(** * kodi_panel: the rendering engine and polling loop of kodi_panel_display.py

    A shallow embedding of the parts of [kodi_panel_display.py] that carry
    the caching policy, the display-mode cycle and the failure handling:
    [truncate_text], [progress_bar], [ADisplay.next], [get_artwork],
    [audio_screens], [update_display] and the inner loop of [main].

    Conventions.
    - A Python [str] is a list of Unicode code points ([pystr]); dictionary
      keys that the program writes as literals are Rocq strings.
    - Module-level globals of the script are fields of explicit state
      records that each function receives and returns.
    - A call either returns, raises a Python exception, or never comes
      back ([Hangs]: a loop that cannot exit, a lock that is never
      released).
    - The network, the file system and the clock are oracles passed in as
      records; every request made is appended to a log. *)

From Stdlib Require Import ZArith QArith Qround Lia Lqa List String Ascii.
From stdpp Require Import base list strings gmap.

Local Open Scope Z_scope.

(** ** Python values *)

Definition codepoint := N.
Definition pystr := list codepoint.

(** A literal of the script, as a [pystr]. *)
Definition py (s : string) : pystr :=
  map N_of_ascii (list_ascii_of_string s).

(** The character U+2026, the horizontal ellipsis. *)
Definition ellipsis : codepoint := 8230%N.

(** [s[0:n]] for an integer [n]: a negative bound counts from the end. *)
Definition py_slice_to (s : pystr) (n : Z) : pystr :=
  if 0 <=? n then take (Z.to_nat n) s
  else take (Z.to_nat (Z.of_nat (length s) + n)) s.

(** [s.startswith(p)]. *)
Definition startswith (p s : pystr) : bool :=
  bool_decide (take (length p) s = p).

(** [int(q)]: truncation towards zero. *)
Definition py_int (q : Q) : Z :=
  if Qle_bool 0 q then Qfloor q else Qceiling q.

(** ** Exceptions and outcomes *)

Inductive exn :=
  | ConnectionError
  | KeyError
  | ValueError
  | IndexError
  | ZeroDivisionError
  | UnboundLocalError
  | AttributeError
  | FileNotFoundError
  | UnidentifiedImageError.

Inductive outcome (A : Type) :=
  | Returns (a : A)
  | Raises (e : exn)
  | Hangs.
Arguments Returns {A} a.
Arguments Raises {A} e.
Arguments Hangs {A}.

Definition obind {A B} (m : outcome A) (k : A -> outcome B) : outcome B :=
  match m with
  | Returns a => k a
  | Raises e => Raises e
  | Hangs => Hangs
  end.

(** ** Fonts, colours and the drawing log *)

(** A font object is identified by its name in the [fonts] table; the
    script compares fonts with [==], which is object identity. *)
Definition font := string.
Definition color := string.

(** A reference to a Pillow image object of the heap. *)
Definition img_ref := nat.

Inductive paste_pos :=
  | Centered
  | At (posx posy : Z).

Inductive draw_op :=
  | DrawText (xy : Z * Z) (text : pystr) (fill : color) (f : font)
  | Rectangle (x0 y0 x1 y1 : Q) (fill : color)
  | Paste (im : img_ref) (pos : paste_pos).

(** ** truncate_text *)

(** One element of the global list [last_trunc]. *)
Record trunc_entry := mk_trunc_entry {
  te_str : pystr;
  te_short_str : pystr;
  te_truncating : bool;
  te_font : font
}.

(** What one call of [truncate_text] does: the string it hands to
    [pil_draw.text], the value of [last_trunc] afterwards, and how many
    times it called [pil_draw.textsize]. *)
Record trunc_result := mk_trunc_result {
  disp_text : pystr;
  tr_truncating : bool;
  tr_last_trunc : list trunc_entry;
  tr_measured : nat;
  tr_drawn : draw_op
}.

Section TruncateText.

(** [frame_size[0]], from the settings. *)
Variable frame_width : Z.

(** [pil_draw.textsize(text, font)], the rendered (width, height). *)
Variable textsize : font -> pystr -> Z * Z.

Definition avail_width : Z := frame_width - 20.

(** The scan of [last_trunc] for an entry with this string and font. *)
Definition trunc_lookup (new_text : pystr) (f : font)
    (last_trunc : list trunc_entry) : option trunc_entry :=
  List.find (fun e => bool_decide (new_text = te_str e)
                      && bool_decide (f = te_font e)) last_trunc.

(** The initial estimate of how many characters fit:
    [avg_char = len(new_text) / t_width] and
    [num_chars = int((avail_width + 20) / avg_char)].  Both quotients
    are taken exactly; either division raises on a zero divisor. *)
Definition estimate_chars (new_text : pystr) (t_width : Z) : outcome Z :=
  if t_width =? 0 then Raises ZeroDivisionError
  else
    let avg_char := (inject_Z (Z.of_nat (length new_text)) / inject_Z t_width)%Q in
    if Qeq_bool avg_char 0 then Raises ZeroDivisionError
    else Returns (py_int (inject_Z (avail_width + 20) / avg_char)%Q).

(** The first rendering and the cut to the estimated length. *)
Definition initial_candidate (f : font) (new_text : pystr) : outcome pystr :=
  let t_width := fst (textsize f new_text) in
  obind (estimate_chars new_text t_width) (fun num_chars =>
  Returns (py_slice_to new_text num_chars)).

(** The loop [while (xy[0] + t_width) > avail_width], dropping the last
    character each round.  [new_text[:-1]] of the empty string is the
    empty string again, so once the text is empty and the test still
    holds the loop cannot exit. *)
Fixpoint shrink (fuel : nat) (x : Z) (f : font) (new_text : pystr)
    (truncating : bool) (measured : nat) : outcome (pystr * bool * nat) :=
  if x + fst (textsize f new_text) >? avail_width then
    match new_text, fuel with
    | [], _ => Hangs
    | _, O => Hangs
    | _, S fuel' =>
        shrink fuel' x f (removelast new_text) true (S measured)
    end
  else Returns (new_text, truncating, measured).

Definition truncate_text (last_trunc : list trunc_entry) (xy : Z * Z)
    (text : pystr) (fill : color) (f : font) : outcome trunc_result :=
  let new_text := py_slice_to text 59 in
  match trunc_lookup new_text f last_trunc with
  | Some e =>
      Returns {| disp_text := te_short_str e;
                 tr_truncating := false;
                 tr_last_trunc := last_trunc;
                 tr_measured := 0;
                 tr_drawn := DrawText xy (te_short_str e) fill f |}
  | None =>
      obind (initial_candidate f new_text) (fun new_text =>
      obind (shrink (length new_text) (fst xy) f new_text false 2)
        (fun '(new_text, truncating, measured) =>
      let disp_text := if truncating then new_text ++ [ellipsis] else new_text in
      let new_result := {| te_str := py_slice_to text 59;
                           te_short_str := disp_text;
                           te_truncating := truncating;
                           te_font := f |} in
      Returns {| disp_text := disp_text;
                 tr_truncating := truncating;
                 tr_last_trunc := take 9 (new_result :: last_trunc);
                 tr_measured := measured;
                 tr_drawn := DrawText xy disp_text fill f |}))
  end.

End TruncateText.

(** A font in which every character, the ellipsis included, is [w] pixels
    wide and [h] pixels high. *)
Definition fixed_pitch (w h : Z) : font -> pystr -> Z * Z :=
  fun _ s => (w * Z.of_nat (length s), h).

(** ** progress_bar *)

(** The two clamping tests, in the order of the source. *)
Definition clamp_progress (progress : Q) : Q :=
  let progress := if Qle_bool progress 0 then (1 # 100)%Q else progress in
  if negb (Qle_bool progress 1) then 1%Q else progress.

Definition progress_bar (bgcolor fgcolor : color) (x y w h : Z)
    (progress : Q) (vertical : bool) : list draw_op :=
  let qx := inject_Z x in
  let qy := inject_Z y in
  let qw := inject_Z w in
  let qh := inject_Z h in
  let background := Rectangle qx qy (qx + qw)%Q (qy + qh)%Q bgcolor in
  let progress := clamp_progress progress in
  if vertical then
    let dh := (qh * progress)%Q in
    [background; Rectangle qx (qy + qh - dh)%Q (qx + qw)%Q (qy + qh)%Q fgcolor]
  else
    let dw := (qw * progress)%Q in
    [background; Rectangle qx qy (qx + dw)%Q (qy + qh)%Q fgcolor].

(** ** ADisplay: the audio screen enumeration *)

Module ADisplay.

(** A member is known by its name; [members] is [list(cls)], the names
    of [ALAYOUT_NAMES] in definition order. *)
Definition member := string.

(** [members.index(self)]. *)
Definition index (self : member) (members : list member) : outcome nat :=
  match list_find (fun m => m = self) members with
  | Some (i, _) => Returns i
  | None => Raises ValueError
  end.

Definition next (members : list member) (self : member) : outcome member :=
  obind (index self members) (fun i =>
  let index := S i in
  let index := if decide (length members <= index)%nat then O else index in
  match members !! index with
  | Some m => Returns m
  | None => Raises IndexError
  end).

(** [k] presses of the screen, starting from [self]. *)
Fixpoint iterate (members : list member) (k : nat) (self : member)
    : outcome member :=
  match k with
  | O => Returns self
  | S k' => obind (next members self) (iterate members k')
  end.

(** The variants shown by the first [k] presses, the start included. *)
Fixpoint visited (members : list member) (k : nat) (self : member)
    : outcome (list member) :=
  match k with
  | O => Returns []
  | S k' =>
      obind (next members self) (fun m =>
      obind (visited members k' m) (fun l => Returns (self :: l)))
  end.

End ADisplay.

(** ** Settings, layouts and the outside world *)

(** The [thumb], [prog] and [fields] members of a layout, after
    [fixup_layouts] has resolved fonts and colours. *)
Record thumb_spec := mk_thumb_spec {
  th_size : Z;
  th_center : bool;
  th_posx : Z;
  th_posy : Z
}.

Record prog_spec := mk_prog_spec {
  pr_posx : Z;
  pr_posy : Z;
  pr_height : Z;
  pr_vertical : bool;
  pr_len : Z;
  pr_long_len : Z;
  pr_short_len : Z
}.

Record label_spec := mk_label_spec {
  lb_label : pystr;
  lb_lposx : Z;
  lb_lposy : Z;
  lb_lfill : color;
  lb_lfont : font
}.

Record field_spec := mk_field_spec {
  fd_name : string;
  fd_posx : Z;
  fd_posy : Z;
  fd_fill : color;
  fd_font : font;
  fd_smfont : option font;
  fd_label : option label_spec;
  fd_trunc : bool
}.

Record layout := mk_layout {
  ly_thumb : option thumb_spec;
  ly_prog : option prog_spec;
  ly_fields : option (list field_spec)
}.

Record settings := mk_settings {
  BASE_URL : pystr;
  DISPLAY_WIDTH : Z;
  DISPLAY_HEIGHT : Z;
  KODI_THUMB : pystr;
  DEFAULT_THUMB : pystr;
  DEFAULT_AIRPLAY : pystr;
  ALAYOUT_NAMES : list string;
  ALAYOUT_INITIAL : string;
  A_LAYOUT : gmap string layout;
  STATUS_LAYOUT : layout;
  USE_BACKLIGHT : bool;
  (** [pil_draw.textsize] for the fonts the settings load. *)
  textsize_of : font -> pystr -> Z * Z
}.

Definition USE_PWM : bool := false.
Definition PWM_LEVEL : Q := 75%Q.
Definition DEMO_MODE : bool := false.
Definition screen_wake : Z := 25.
Definition PANEL_VER : pystr := py "v0.90".

(** The reply to [requests.post(...).json()] or [requests.get(...)]:
    the host cannot be reached, or it answers. *)
Inductive rpc (A : Type) :=
  | Unreachable
  | Reply (a : A).
Arguments Unreachable {A}.
Arguments Reply {A} a.

Record http_response := mk_http_response {
  status_code : Z;
  content : list N
}.

(** What the player, the file system and the clock answer during one
    pass.  Replies follow the JSON-RPC shapes the script indexes:
    [rpc_active_players] is the list of the [type] members of [result];
    [rpc_prepare_download p] is [result.details.path] when both members
    are there; [rpc_file_details p] is [result.filedetails.lastmodified]
    when it can be read; [rpc_percentage] is [result.percentage] when both
    members are there. *)
Record env := mk_env {
  now : Z;
  rpc_ping : rpc pystr;
  rpc_active_players : rpc (list pystr);
  rpc_system_labels : rpc (gmap string pystr);
  rpc_music_labels : rpc (gmap string pystr);
  rpc_percentage : rpc (option Q);
  rpc_prepare_download : pystr -> rpc (option pystr);
  rpc_file_details : pystr -> rpc (option pystr);
  http_get : pystr -> rpc http_response;
  (** [Image.open(io.BytesIO(content))] succeeds. *)
  decodes : list N -> bool;
  (** [os.path.isfile(path)]. *)
  isfile : pystr -> bool;
  (** [Image.open(path)] succeeds. *)
  opens : pystr -> bool
}.

(** ** Image objects *)

Inductive img_source :=
  | FromContent (bytes : list N)
  | FromFile (path : pystr).

(** A Pillow image: where its pixels came from and the [thumbnail] calls
    that were applied to it, oldest first. *)
Record image := mk_image {
  img_source_of : img_source;
  img_thumbnails : list Z
}.

(** Requests to the outside, in the order they are made. *)
Inductive io_event :=
  | RpcPost (method : string) (arg : pystr)
  | HttpGet (url : pystr)
  | ImageDecode (bytes : list N)
  | ImageOpen (path : pystr)
  | IsFile (path : pystr)
  | Thumbnail (im : img_ref) (size : Z)
  | DeviceBacklight (on : bool)
  | DeviceBacklightLevel (level : Q)
  | DeviceDisplay (frame : list draw_op).

(** ** The globals of the script *)

Record globals := mk_globals {
  _last_image_path : option pystr;
  _last_thumb : option img_ref;
  _last_image_time : option pystr;
  audio_dmode : ADisplay.member;
  kodi_active : bool;
  screen_press : bool;
  screen_active : bool;
  screen_offtime : Z;
  last_trunc : list trunc_entry;
  (** [lock.locked()]. *)
  lock : bool;
  (** The image objects allocated so far; [img_ref] indexes this list. *)
  heap : list image;
  (** What has been drawn on the shared [image] since it was last cleared. *)
  frame : list draw_op;
  io_log : list io_event
}.

Definition set_last_image_path (v : option pystr) (g : globals) : globals :=
  mk_globals v (_last_thumb g) (_last_image_time g) (audio_dmode g)
    (kodi_active g) (screen_press g) (screen_active g) (screen_offtime g)
    (last_trunc g) (lock g) (heap g) (frame g) (io_log g).

Definition set_last_thumb (v : option img_ref) (g : globals) : globals :=
  mk_globals (_last_image_path g) v (_last_image_time g) (audio_dmode g)
    (kodi_active g) (screen_press g) (screen_active g) (screen_offtime g)
    (last_trunc g) (lock g) (heap g) (frame g) (io_log g).

Definition set_last_image_time (v : option pystr) (g : globals) : globals :=
  mk_globals (_last_image_path g) (_last_thumb g) v (audio_dmode g)
    (kodi_active g) (screen_press g) (screen_active g) (screen_offtime g)
    (last_trunc g) (lock g) (heap g) (frame g) (io_log g).

Definition set_audio_dmode (v : ADisplay.member) (g : globals) : globals :=
  mk_globals (_last_image_path g) (_last_thumb g) (_last_image_time g) v
    (kodi_active g) (screen_press g) (screen_active g) (screen_offtime g)
    (last_trunc g) (lock g) (heap g) (frame g) (io_log g).

Definition set_kodi_active (v : bool) (g : globals) : globals :=
  mk_globals (_last_image_path g) (_last_thumb g) (_last_image_time g)
    (audio_dmode g) v (screen_press g) (screen_active g) (screen_offtime g)
    (last_trunc g) (lock g) (heap g) (frame g) (io_log g).

Definition set_screen_press (v : bool) (g : globals) : globals :=
  mk_globals (_last_image_path g) (_last_thumb g) (_last_image_time g)
    (audio_dmode g) (kodi_active g) v (screen_active g) (screen_offtime g)
    (last_trunc g) (lock g) (heap g) (frame g) (io_log g).

Definition set_screen_active (v : bool) (g : globals) : globals :=
  mk_globals (_last_image_path g) (_last_thumb g) (_last_image_time g)
    (audio_dmode g) (kodi_active g) (screen_press g) v (screen_offtime g)
    (last_trunc g) (lock g) (heap g) (frame g) (io_log g).

Definition set_screen_offtime (v : Z) (g : globals) : globals :=
  mk_globals (_last_image_path g) (_last_thumb g) (_last_image_time g)
    (audio_dmode g) (kodi_active g) (screen_press g) (screen_active g) v
    (last_trunc g) (lock g) (heap g) (frame g) (io_log g).

Definition set_last_trunc (v : list trunc_entry) (g : globals) : globals :=
  mk_globals (_last_image_path g) (_last_thumb g) (_last_image_time g)
    (audio_dmode g) (kodi_active g) (screen_press g) (screen_active g)
    (screen_offtime g) v (lock g) (heap g) (frame g) (io_log g).

Definition set_lock (v : bool) (g : globals) : globals :=
  mk_globals (_last_image_path g) (_last_thumb g) (_last_image_time g)
    (audio_dmode g) (kodi_active g) (screen_press g) (screen_active g)
    (screen_offtime g) (last_trunc g) v (heap g) (frame g) (io_log g).

Definition set_heap (v : list image) (g : globals) : globals :=
  mk_globals (_last_image_path g) (_last_thumb g) (_last_image_time g)
    (audio_dmode g) (kodi_active g) (screen_press g) (screen_active g)
    (screen_offtime g) (last_trunc g) (lock g) v (frame g) (io_log g).

Definition set_frame (v : list draw_op) (g : globals) : globals :=
  mk_globals (_last_image_path g) (_last_thumb g) (_last_image_time g)
    (audio_dmode g) (kodi_active g) (screen_press g) (screen_active g)
    (screen_offtime g) (last_trunc g) (lock g) (heap g) v (io_log g).

Definition set_io_log (v : list io_event) (g : globals) : globals :=
  mk_globals (_last_image_path g) (_last_thumb g) (_last_image_time g)
    (audio_dmode g) (kodi_active g) (screen_press g) (screen_active g)
    (screen_offtime g) (last_trunc g) (lock g) (heap g) (frame g) v.

(** ** Computations over the globals *)

(** A statement of the script: it starts from the globals and ends with
    an outcome and the globals as it left them.  A raised exception keeps
    every assignment made before it. *)
Definition M (A : Type) : Type := globals -> outcome A * globals.

Definition ret {A} (a : A) : M A := fun g => (Returns a, g).

Definition bind {A B} (m : M A) (k : A -> M B) : M B :=
  fun g =>
    match m g with
    | (Returns a, g') => k a g'
    | (Raises e, g') => (Raises e, g')
    | (Hangs, g') => (Hangs, g')
    end.

Definition raise {A} (e : exn) : M A := fun g => (Raises e, g).
Definition hang {A} : M A := fun g => (Hangs, g).
Definition gets {A} (f : globals -> A) : M A := fun g => (Returns (f g), g).
Definition modify (f : globals -> globals) : M unit := fun g => (Returns tt, f g).

Definition lift {A} (o : outcome A) : M A := fun g => (o, g).

(** [try: body except: handler], with a bare [except]: every exception is
    caught; a computation that hangs still hangs. *)
Definition try_except {A} (body : M A) (handler : M A) : M A :=
  fun g =>
    match body g with
    | (Raises _, g') => handler g'
    | r => r
    end.

Declare Scope py_scope.
Delimit Scope py_scope with py.
Notation "'let*' x ':=' c 'in' k" := (bind c (fun x => k))
  (at level 10, x pattern, c at level 100, k at level 200) : py_scope.
Notation "c ';;' k" := (bind c (fun _ => k))
  (at level 100, k at level 200, right associativity) : py_scope.
Notation "'when' b 'then' c" := (if b then c else ret tt)
  (at level 10, b at level 100, c at level 200) : py_scope.

Local Open Scope py_scope.

Definition log (ev : io_event) : M unit :=
  modify (fun g => set_io_log (io_log g ++ [ev]) g).

Definition draw_emit (op : draw_op) : M unit :=
  modify (fun g => set_frame (frame g ++ [op]) g).

(** [d[key]] on a dictionary. *)
Definition dict_get {A} (d : gmap string A) (key : string) : M A :=
  match d !! key with
  | Some v => ret v
  | None => raise KeyError
  end.

(** [requests.post(rpc_url, ...).json()] for one method. *)
Definition post {A} (method : string) (arg : pystr) (reply : rpc A) : M A :=
  log (RpcPost method arg);;
  match reply with
  | Unreachable => raise ConnectionError
  | Reply a => ret a
  end.

(** A new image object. *)
Definition alloc (im : image) : M img_ref :=
  let* h := gets heap in
  modify (set_heap (h ++ [im]));;
  ret (length h).

(** ** get_artwork *)

(** [_airtunes_re.match(s)]: the first group when [s] starts with the
    AirPlay cover path. *)
Definition _airtunes_re_match (s : pystr) : option pystr :=
  if startswith (py "special://temp/airtunes_album_thumb.png") s
  then Some (py "airtunes_album_thumb.png")
  else if startswith (py "special://temp/airtunes_album_thumb.jpg") s
  then Some (py "airtunes_album_thumb.jpg")
  else None.

(** The test that opens the first block of [get_artwork]: the cover is
    neither empty, nor the default album cover, nor the AirPlay file. *)
Definition is_library_cover (cover_path : pystr) : bool :=
  bool_decide (cover_path <> [])
  && bool_decide (cover_path <> py "DefaultAlbumCover.png")
  && negb (bool_decide (is_Some (_airtunes_re_match cover_path))).

(** The truth value of a string that may be [None]. *)
Definition truthy (o : option pystr) : bool :=
  match o with
  | Some (_ :: _) => true
  | _ => false
  end.

(** The local variables of [get_artwork], [prev_image] included: it is a
    parameter that the body reassigns. *)
Record art_locals := mk_art_locals {
  image_set : bool;
  resize_needed : bool;
  cover : option img_ref;
  prev_image : option img_ref
}.

(** The last statement of [get_artwork]. *)
Definition art_return (l : art_locals) : option img_ref :=
  if image_set l then prev_image l else None.

Section Artwork.

Variable cfg : settings.
Variable world : env.

Definition _local_kodi : bool :=
  startswith (py "http://localhost:") (BASE_URL cfg)
  || startswith (py "https://localhost:") (BASE_URL cfg).

(** [Image.open(path)]. *)
Definition image_open_file (path : pystr) : M img_ref :=
  log (ImageOpen path);;
  if opens world path
  then alloc {| img_source_of := FromFile path; img_thumbnails := [] |}
  else raise FileNotFoundError.

(** [Image.open(io.BytesIO(r.content))]. *)
Definition image_open_bytes (bytes : list N) : M img_ref :=
  log (ImageDecode bytes);;
  if decodes world bytes
  then alloc {| img_source_of := FromContent bytes; img_thumbnails := [] |}
  else raise UnidentifiedImageError.

(** The [Files.PrepareDownload] request and the assignment of
    [image_url] that is guarded by the shape of the reply: without a
    path in the reply, [image_url] stays unbound. *)
Definition prepare_download (image_path : pystr) : M (option pystr) :=
  let* path := post "Files.PrepareDownload" image_path
                 (rpc_prepare_download world image_path) in
  match path with
  | Some p => ret (Some (BASE_URL cfg ++ py "/" ++ p))
  | None => ret None
  end.

(** [r = requests.get(image_url, stream = True)] and the decoding that
    follows; [on_success] is what the branch does after a successful
    decode besides setting its flags. *)
Definition fetch_cover (image_url : option pystr) (on_success : M unit)
    (l : art_locals) : M art_locals :=
  match image_url with
  | None => raise UnboundLocalError
  | Some url =>
      log (HttpGet url);;
      match http_get world url with
      | Unreachable => raise ConnectionError
      | Reply r =>
          if status_code r =? 200 then
            try_except
              (let* c := image_open_bytes (content r) in
               on_success;;
               ret {| image_set := true; resize_needed := true;
                      cover := Some c; prev_image := prev_image l |})
              (let* c := image_open_file (DEFAULT_THUMB cfg) in
               ret {| image_set := true; resize_needed := false;
                      cover := Some c; prev_image := Some c |})
          else ret l
      end
  end.

(** First block: a cover from the library or from a remote source. *)
Definition artwork_library (cover_path : pystr) (l : art_locals)
    : M art_locals :=
  if is_library_cover cover_path then
    let image_path := cover_path in
    let* last := gets _last_image_path in
    if bool_decide (Some image_path = last)
       && bool_decide (is_Some (prev_image l))
    then ret {| image_set := true; resize_needed := resize_needed l;
                cover := cover l; prev_image := prev_image l |}
    else
      modify (set_last_image_path (Some image_path));;
      let* image_url :=
        if startswith (py "http://") image_path
        then ret (Some image_path)
        else prepare_download image_path in
      fetch_cover image_url (ret tt) l
  else ret l.

(** Second block: AirPlay artwork held by a player on another host. *)
Definition artwork_airplay (cover_path : pystr) (l : art_locals)
    : M art_locals :=
  if negb (image_set l)
     && bool_decide (is_Some (_airtunes_re_match cover_path))
     && negb _local_kodi
  then
    let image_path := cover_path in
    let* new_image_time := post "Files.GetFileDetails" image_path
                             (rpc_file_details world image_path) in
    let* last_time := gets _last_image_time in
    if truthy new_image_time
       && bool_decide (new_image_time <> last_time)
    then
      let* image_url := prepare_download image_path in
      fetch_cover image_url
        (modify (set_last_image_time new_image_time)) l
    else ret {| image_set := true; resize_needed := resize_needed l;
                cover := cover l; prev_image := prev_image l |}
  else ret l.

(** Third block: the AirPlay file of a local player, or a default image. *)
Definition artwork_fallback (cover_path : pystr) (l : art_locals)
    : M art_locals :=
  if negb (image_set l) then
    let* resize :=
      match _airtunes_re_match cover_path with
      | Some name =>
          let airplay_thumb := py "/storage/.kodi/temp/" ++ name in
          log (IsFile airplay_thumb);;
          if isfile world airplay_thumb
          then modify (set_last_image_path (Some airplay_thumb));; ret true
          else modify (set_last_image_path (Some (DEFAULT_AIRPLAY cfg)));;
               ret false
      | None =>
          modify (set_last_image_path (Some (DEFAULT_THUMB cfg)));;
          ret false
      end in
    let* last := gets _last_image_path in
    let* c := match last with
              | Some path => image_open_file path
              | None => raise AttributeError
              end in
    ret {| image_set := true; resize_needed := resize;
           cover := Some c; prev_image := Some c |}
  else ret l.

(** [cover.thumbnail((thumb_size, thumb_size))]: the image object is
    changed in place. *)
Definition thumbnail (c : option img_ref) (thumb_size : Z) : M unit :=
  match c with
  | None => raise AttributeError
  | Some r =>
      let* h := gets heap in
      match h !! r with
      | None => raise AttributeError
      | Some im =>
          log (Thumbnail r thumb_size);;
          modify (set_heap
            (<[r := {| img_source_of := img_source_of im;
                       img_thumbnails := img_thumbnails im ++ [thumb_size] |}]> h))
      end
  end.

Definition artwork_resize (thumb_size : Z) (l : art_locals) : M art_locals :=
  if image_set l && resize_needed l then
    thumbnail (cover l) thumb_size;;
    ret {| image_set := image_set l; resize_needed := resize_needed l;
           cover := cover l; prev_image := cover l |}
  else ret l.

Definition get_artwork (info : gmap string pystr)
    (prev_image : option img_ref) (thumb_size : Z) : M (option img_ref) :=
  let l := {| image_set := false; resize_needed := false;
              cover := None; prev_image := prev_image |} in
  let* cover_path := dict_get info "MusicPlayer.Cover" in
  let* l := artwork_library cover_path l in
  let* l := artwork_airplay cover_path l in
  let* l := artwork_fallback cover_path l in
  let* l := artwork_resize thumb_size l in
  ret (art_return l).

End Artwork.


(** ** The screens *)

(** The audio/video codec lookup table. *)
Definition codec_name : list (string * string) :=
  [ ("ac3", "DD"); ("eac3", "DD"); ("dtshd_ma", "DTS-MA"); ("dca", "DTS");
    ("truehd", "DD-HD"); ("wmapro", "WMA"); ("mp3float", "MP3");
    ("flac", "FLAC"); ("alac", "ALAC"); ("vorbis", "OggV"); ("aac", "AAC");
    ("pcm_s16be", "PCM"); ("mp2", "MP2"); ("pcm_u8", "PCM");
    ("BXA", "AirPlay"); ("dsd_lsbf_planar", "DSD") ]%string.

Definition codec_lookup (codec : pystr) : option pystr :=
  match List.find (fun kv => bool_decide (py (fst kv) = codec)) codec_name with
  | Some kv => Some (py (snd kv))
  | None => None
  end.

(** The prefixes of the status fields. *)
Definition str_prefix (name : string) : option pystr :=
  if String.eqb name "System.Date" then Some (py "")
  else if String.eqb name "System.Uptime" then Some (py "Up: ")
  else if String.eqb name "System.CPUTemperature" then Some (py "CPU: ")
  else None.

(** [s.split(sep)] for a separator of one character. *)
Fixpoint py_split (sep : codepoint) (s : pystr) : list pystr :=
  match s with
  | [] => [[]]
  | c :: s' =>
      if N.eqb c sep then [] :: py_split sep s'
      else match py_split sep s' with
           | w :: ws => (c :: w) :: ws
           | [] => [[c]]
           end
  end.

(** [s.count(c)] for one character. *)
Definition py_count (c : codepoint) (s : pystr) : nat :=
  length (List.filter (N.eqb c) s).

(** [for item in l: body(item)]. *)
Fixpoint for_each {A} (l : list A) (body : A -> M unit) : M unit :=
  match l with
  | [] => ret tt
  | a :: l' => body a;; for_each l' body
  end.

Definition color_progbg : color := "color_progbg".
Definition color_progfg : color := "color_progfg".

Section Screens.

Variable cfg : settings.
Variable world : env.

Definition draw_text (xy : Z * Z) (text : pystr) (fill : color) (f : font)
    : M unit :=
  draw_emit (DrawText xy text fill f).

(** [truncate_text] on the shared drawing and the global [last_trunc]. *)
Definition draw_truncated (xy : Z * Z) (text : pystr) (fill : color)
    (f : font) : M unit :=
  let* cache := gets last_trunc in
  let* r := lift (truncate_text (DISPLAY_WIDTH cfg) (textsize_of cfg)
                    cache xy text fill f) in
  draw_emit (tr_drawn r);;
  modify (set_last_trunc (tr_last_trunc r)).

Definition draw_label (fd : field_spec) : M unit :=
  match fd_label fd with
  | Some lb =>
      draw_text (lb_lposx lb, lb_lposy lb) (lb_label lb)
        (lb_lfill lb) (lb_lfont lb)
  | None => ret tt
  end.

Definition draw_value (fd : field_spec) (text : pystr) : M unit :=
  if fd_trunc fd
  then draw_truncated (fd_posx fd, fd_posy fd) text (fd_fill fd) (fd_font fd)
  else draw_text (fd_posx fd, fd_posy fd) text (fd_fill fd) (fd_font fd).

(** One round of the loop over the text fields of an audio layout.  The
    drawing of the value of a field, truncated or not, is the parameter
    [draw]; the script has [draw_value] there. *)
Definition audio_field_via (draw : field_spec -> pystr -> M unit)
    (info : gmap string pystr) (fd : field_spec) : M unit :=
  if String.eqb (fd_name fd) "codec" then
    let* codec := dict_get info "MusicPlayer.Codec" in
    match codec_lookup codec with
    | Some label =>
        draw_label fd;;
        draw_text (fd_posx fd, fd_posy fd) label (fd_fill fd) (fd_font fd)
    | None => ret tt
    end
  else if String.eqb (fd_name fd) "artist" then
    let* artist := dict_get info "MusicPlayer.Artist" in
    let* display_string :=
      if bool_decide (artist <> []) then ret (Some artist)
      else
        let* composer := dict_get info "MusicPlayer.Property(Role.Composer)" in
        if bool_decide (composer <> [])
        then ret (Some (py "(" ++ composer ++ py ")"))
        else ret None in
    match display_string with
    | Some text => when truthy display_string then draw fd text
    | None => ret tt
    end
  else
    match info !! fd_name fd with
    | Some text =>
        when bool_decide (text <> []) then
          (draw_label fd;; draw fd text)
    | None => ret tt
    end.

Definition audio_field (info : gmap string pystr) (fd : field_spec)
    : M unit :=
  audio_field_via draw_value info fd.

Definition audio_screens (info : gmap string pystr) (prog : Q) : M unit :=
  let* mode := gets audio_dmode in
  let* layout := dict_get (A_LAYOUT cfg) mode in
  match ly_thumb layout with
  | Some th =>
      let* prev := gets _last_thumb in
      let* thumb := get_artwork cfg world info prev (th_size th) in
      modify (set_last_thumb thumb);;
      match thumb with
      | Some im =>
          draw_emit (Paste im (if th_center th then Centered
                               else At (th_posx th) (th_posy th)))
      | None => ret tt
      end
  | None => modify (set_last_thumb None)
  end;;
  match ly_prog layout with
  | Some pr =>
      when negb (Qeq_bool prog (-1)) then
        if pr_vertical pr then
          for_each (progress_bar color_progbg color_progfg
                      (pr_posx pr) (pr_posy pr) (pr_len pr) (pr_height pr)
                      prog true) draw_emit
        else
          let* time := dict_get info "MusicPlayer.Time" in
          if Nat.eqb (py_count 58%N time) 2 then
            for_each (progress_bar color_progbg color_progfg
                        (pr_posx pr) (pr_posy pr) (pr_long_len pr)
                        (pr_height pr) prog false) draw_emit
          else
            for_each (progress_bar color_progbg color_progfg
                        (pr_posx pr) (pr_posy pr) (pr_short_len pr)
                        (pr_height pr) prog false) draw_emit
  | None => ret tt
  end;;
  match ly_fields layout with
  | None => ret tt
  | Some txt_field => for_each txt_field (audio_field info)
  end.

(** One round of the loop over the text fields of the status layout. *)
Definition status_field (kodi_status : gmap string pystr)
    (summary_string : pystr) (fd : field_spec) : M unit :=
  let xy := (fd_posx fd, fd_posy fd) in
  if String.eqb (fd_name fd) "version" then
    draw_text xy (py "kodi_panel " ++ PANEL_VER) (fd_fill fd) (fd_font fd)
  else if String.eqb (fd_name fd) "summary" then
    draw_text xy summary_string (fd_fill fd) (fd_font fd)
  else if String.eqb (fd_name fd) "time_hrmin" then
    let* time := dict_get kodi_status "System.Time" in
    let time_parts := py_split 32%N time in
    let* part0 := match time_parts !! 0%nat with
                  | Some p => ret p
                  | None => raise IndexError
                  end in
    let time_width := fst (textsize_of cfg (fd_font fd) part0) in
    draw_text xy part0 (fd_fill fd) (fd_font fd);;
    let* part1 := match time_parts !! 1%nat with
                  | Some p => ret p
                  | None => raise IndexError
                  end in
    let* smfont := match fd_smfont fd with
                   | Some f => ret f
                   | None => raise KeyError
                   end in
    draw_text (fd_posx fd + time_width + 5, fd_posy fd) part1
      (fd_fill fd) smfont
  else
    let* display_string := dict_get kodi_status (fd_name fd) in
    let display_string :=
      match str_prefix (fd_name fd) with
      | Some prefix => prefix ++ display_string
      | None => display_string
      end in
    draw_text xy display_string (fd_fill fd) (fd_font fd).

Definition status_screen (kodi_status : gmap string pystr)
    (summary_string : pystr) : M unit :=
  let layout := STATUS_LAYOUT cfg in
  match ly_thumb layout with
  | Some th =>
      let* kodi_icon := image_open_file world (KODI_THUMB cfg) in
      thumbnail (Some kodi_icon) (th_size th);;
      draw_emit (Paste kodi_icon (At (th_posx th) (th_posy th)))
  | None => ret tt
  end;;
  match ly_fields layout with
  | None => ret tt
  | Some txt_field =>
      for_each txt_field (status_field kodi_status summary_string)
  end.

End Screens.

(** ** update_display, touch_callback and main *)

Section Polling.

Variable cfg : settings.

Definition screen_on : M unit :=
  if negb (USE_BACKLIGHT cfg) || DEMO_MODE then ret tt
  else if USE_PWM then log (DeviceBacklightLevel PWM_LEVEL)
  else log (DeviceBacklight true).

Definition screen_off : M unit :=
  if negb (USE_BACKLIGHT cfg) || DEMO_MODE then ret tt
  else
    (when USE_PWM then log (DeviceBacklightLevel 0%Q));;
    log (DeviceBacklight false).

(** [lock.acquire()] on a lock that is held waits for a release.  A call
    of [update_display] starts only after the one before it has left, by
    return or by exception, so a lock found held has no holder left to
    release it. *)
Definition lock_acquire : M unit :=
  let* held := gets lock in
  if held then hang else modify (set_lock true).

Definition lock_release : M unit := modify (set_lock false).

(** [draw.rectangle([(0,0), frame_size], 'black', 'black')]. *)
Definition blank_slate : M unit :=
  modify (set_frame
    [Rectangle 0%Q 0%Q (inject_Z (DISPLAY_WIDTH cfg))
       (inject_Z (DISPLAY_HEIGHT cfg)) "black"]).

Definition device_display : M unit :=
  let* image := gets frame in
  log (DeviceDisplay image).

(** The branch taken when nothing, or something that is not audio, is
    playing.  [update_display] declares [_last_image_path] and
    [_last_thumb] global but not [_last_image_time]: its assignment
    binds a local name of the function. *)
Definition update_idle (world : env) (result : list pystr) : M unit :=
  modify (set_last_image_path None);;
  let _last_image_time : option pystr := None in
  modify (set_last_thumb None);;
  let* pressed := gets screen_press in
  (when pressed then
     (modify (set_screen_press false);;
      screen_on;;
      modify (set_screen_active true);;
      modify (set_screen_offtime (now world + screen_wake))));;
  let* active := gets screen_active in
  if active then
    let summary :=
      match result with
      | [] => Some (py "Idle")
      | type :: _ =>
          if bool_decide (type = py "video") then Some (py "Video playing")
          else if bool_decide (type = py "picture") then Some (py "Photo viewing")
          else None
      end in
    let* status_resp := post "XBMC.GetInfoLabels" (py "System")
                          (rpc_system_labels world) in
    match summary with
    | Some summary => status_screen cfg world status_resp summary
    | None => raise UnboundLocalError
    end
  else screen_off.

(** The branch taken when audio is playing; the same remark applies to
    [_last_image_time]. *)
Definition update_audio (world : env) : M unit :=
  screen_on;;
  let* pressed := gets screen_press in
  (when pressed then
     (modify (set_screen_press false);;
      let* mode := gets audio_dmode in
      let* mode := lift (ADisplay.next (ALAYOUT_NAMES cfg) mode) in
      modify (set_audio_dmode mode);;
      modify (set_last_image_path None);;
      let _last_image_time : option pystr := None in
      modify (set_last_thumb None)));;
  let* track_info := post "XBMC.GetInfoLabels" (py "MusicPlayer")
                       (rpc_music_labels world) in
  let* percentage := post "Player.GetProperties" (py "percentage")
                       (rpc_percentage world) in
  let prog := match percentage with
              | Some p => (p / 100)%Q
              | None => (-1)%Q
              end in
  audio_screens cfg world track_info prog.

Definition update_display (world : env) : M unit :=
  lock_acquire;;
  blank_slate;;
  let* active := gets screen_active in
  let* offtime := gets screen_offtime in
  (when active && (now world >=? offtime) then
     (modify (set_screen_active false);; screen_off));;
  let* result := post "Player.GetActivePlayers" (py "")
                   (rpc_active_players world) in
  match result with
  | type :: _ =>
      if bool_decide (type <> py "audio")
      then update_idle world result
      else update_audio world
  | [] => update_idle world result
  end;;
  device_display;;
  lock_release.

(** The interrupt callback of the touch screen. *)
Definition touch_callback (world : env) : M unit :=
  let* active := gets kodi_active in
  modify (set_screen_press active);;
  when active then
    try_except
      (update_display world;; modify (set_screen_press false))
      (ret tt).

(** Where [main] stands: in the loop that pings the player, in the loop
    that calls [update_display], left through an exception that no
    handler caught, or inside a call that never returns. *)
Inductive main_status :=
  | Connecting
  | Polling
  | Crashed (e : exn)
  | Stuck.

Definition waiting_screen : M unit :=
  screen_on;;
  blank_slate;;
  draw_text (5, 5) (py "Waiting to connect with Kodi...") "white" "font_main";;
  device_display.

(** The two nested loops of [main].  Each element of [worlds] is the
    outside world during one round: one ping while connecting, one call
    of [update_display] while polling.  The loops have no exit of their
    own; when [worlds] is used up the status tells which loop is
    running. *)
Fixpoint main_loop (status : main_status) (worlds : list env) (g : globals)
    : main_status * globals :=
  match worlds with
  | [] => (status, g)
  | world :: worlds' =>
      match status with
      | Connecting =>
          match try_except
                  (let* response := post "JSONRPC.Ping" (py "") (rpc_ping world) in
                   ret (bool_decide (response = py "pong")))
                  (ret false) g with
          | (Returns true, g') =>
              match (screen_off;;
                     modify (set_kodi_active true);;
                     modify (set_screen_press false)) g' with
              | (_, g'') => main_loop Polling worlds' g''
              end
          | (_, g') => main_loop Connecting worlds' g'
          end
      | Polling =>
          match update_display world g with
          | (Returns _, g') => main_loop Polling worlds' g'
          | (Raises ConnectionError, g') =>
              match (modify (set_kodi_active false);; waiting_screen) g' with
              | (_, g'') => main_loop Connecting worlds' g''
              end
          | (Raises e, g') => (Crashed e, g')
          | (Hangs, g') => (Stuck, g')
          end
      | Crashed e => (Crashed e, g)
      | Stuck => (Stuck, g)
      end
  end.

Definition main (worlds : list env) (g : globals) : main_status * globals :=
  match (modify (set_kodi_active false);; waiting_screen) g with
  | (_, g') => main_loop Connecting worlds g'
  end.

End Polling.

(** The globals as the script initialises them, before [main] runs. *)
Definition initial_globals (cfg : settings) (start : Z) : globals :=
  {| _last_image_path := None;
     _last_thumb := None;
     _last_image_time := None;
     audio_dmode := ALAYOUT_INITIAL cfg;
     kodi_active := false;
     screen_press := false;
     screen_active := false;
     screen_offtime := start;
     last_trunc := [];
     lock := false;
     heap := [];
     frame := [];
     io_log := [] |}.

(** ** fixup_layouts and fixup_array *)

(** A value of the settings file, as a layout holds it before and after
    the fixup: numbers, strings, lists and dictionaries, and the font
    objects that the fixup puts in place of font names.  A dictionary is
    the list of its entries in insertion order.  [VInt] stands for every
    scalar that is not a string: none has [startswith], none is a key of
    [fonts]. *)
#[local] Set Warnings "-register-all".
Inductive value :=
  | VInt (z : Z)
  | VStr (s : pystr)
  | VFont (f : font)
  | VList (items : list value)
  | VDict (entries : list (pystr * value)).
#[local] Set Warnings "register-all".

(** [key.startswith("color") or key == "lcolor" or key == "fill" or
    key == "lfill"]. *)
Definition is_color_key (key : pystr) : bool :=
  startswith (py "color") key
  || bool_decide (key = py "lcolor")
  || bool_decide (key = py "fill")
  || bool_decide (key = py "lfill").

(** [key == "font" or key == "lfont" or key == "smfont"]. *)
Definition is_font_key (key : pystr) : bool :=
  bool_decide (key = py "font")
  || bool_decide (key = py "lfont")
  || bool_decide (key = py "smfont").

Section Fixup.

(** [colors], the table [COLORS] of the settings, and [fonts], the fonts
    loaded at startup by name. *)
Variable colors : gmap pystr value.
Variable fonts : gmap pystr font.

(** [value.startswith(prefix)] on a value that is neither a dictionary
    nor a list. *)
Definition value_startswith (prefix : pystr) (v : value) : outcome bool :=
  match v with
  | VStr s => Returns (startswith prefix s)
  | _ => Raises AttributeError
  end.

(** The last branch of the loop of [fixup_layouts]: the value is neither
    a dictionary nor a list. *)
Definition fixup_scalar (key : pystr) (v : value) : outcome value :=
  obind (if is_color_key key
         then value_startswith (py "color_") v
         else Returns false) (fun color_name =>
  if color_name then
    match v with
    | VStr s => match colors !! s with
                | Some c => Returns c
                | None => Raises KeyError
                end
    | _ => Raises KeyError
    end
  else if is_font_key key then
    match v with
    | VStr s => match fonts !! s with
                | Some f => Returns (VFont f)
                | None => Raises KeyError
                end
    | _ => Raises KeyError
    end
  else Returns v).

(** [fixup_layouts(nested_dict)].  The two loops are written inside the
    function, the inner one being the body of [fixup_array]: the
    recursion goes through the lists of entries and of items.
    [nested_dict.items()] raises on anything but a dictionary. *)
Fixpoint fixup_layouts (nested_dict : value) : outcome value :=
  match nested_dict with
  | VDict entries =>
      obind
        ((fix items (es : list (pystr * value))
            : outcome (list (pystr * value)) :=
            match es with
            | [] => Returns []
            | (key, v) :: es' =>
                obind
                  (match v with
                   | VDict _ => fixup_layouts v
                   | VList array =>
                       obind
                         ((fix each (l : list value) : outcome (list value) :=
                             match l with
                             | [] => Returns []
                             | item :: l' =>
                                 obind
                                   (match item with
                                    | VDict _ => fixup_layouts item
                                    | _ => Returns item
                                    end) (fun item' =>
                                 obind (each l') (fun newarray =>
                                 Returns (item' :: newarray)))
                             end) array)
                         (fun newarray => Returns (VList newarray))
                   | _ => fixup_scalar key v
                   end) (fun v' =>
                obind (items es') (fun newdict =>
                Returns ((key, v') :: newdict)))
            end) entries)
        (fun newdict => Returns (VDict newdict))
  | _ => Raises AttributeError
  end.

(** [fixup_array(array)]. *)
Fixpoint fixup_array (array : list value) : outcome (list value) :=
  match array with
  | [] => Returns []
  | item :: array' =>
      obind
        (match item with
         | VDict _ => fixup_layouts item
         | _ => Returns item
         end) (fun item' =>
      obind (fixup_array array') (fun newarray =>
      Returns (item' :: newarray)))
  end.

(** One round of the loop of [fixup_layouts]: the new value of [key]. *)
Definition fixup_entry (key : pystr) (v : value) : outcome value :=
  match v with
  | VDict _ => fixup_layouts v
  | VList array =>
      obind (fixup_array array) (fun newarray => Returns (VList newarray))
  | _ => fixup_scalar key v
  end.

(** The loop of [fixup_layouts] over the entries. *)
Fixpoint fixup_entries (es : list (pystr * value))
    : outcome (list (pystr * value)) :=
  match es with
  | [] => Returns []
  | (key, v) :: es' =>
      obind (fixup_entry key v) (fun v' =>
      obind (fixup_entries es') (fun newdict =>
      Returns ((key, v') :: newdict)))
  end.

End Fixup.

(** ** Sample settings and worlds *)

(** A 320 x 240 panel with two audio layouts, in the shape of the
    settings distributed with the script, and fonts of 10 pixels per
    character. *)
Definition sample_layout : layout :=
  {| ly_thumb := Some (mk_thumb_spec 140 false 5 5);
     ly_prog := Some (mk_prog_spec 150 7 8 false 100 164 104);
     ly_fields := Some
       [ mk_field_spec "MusicPlayer.Title" 150 40 "white" "font_main"
           None None true;
         mk_field_spec "artist" 150 60 "yellow" "font_main" None None true;
         mk_field_spec "codec" 150 80 "white" "font_sm" None
           (Some (mk_label_spec (py "Codec") 100 80 "grey" "font_sm")) false ] |}.

Definition sample_status_layout : layout :=
  {| ly_thumb := Some (mk_thumb_spec 128 false 5 5);
     ly_prog := None;
     ly_fields := Some
       [ mk_field_spec "version" 145 8 "white" "font_main" None None false;
         mk_field_spec "summary" 145 40 "white" "font_main" None None false;
         mk_field_spec "time_hrmin" 145 80 "white" "font7S"
           (Some "font7S_sm") None false;
         mk_field_spec "System.Uptime" 5 150 "white" "font_main"
           None None false ] |}.

Definition sample_settings : settings :=
  {| BASE_URL := py "http://10.0.0.2:8080";
     DISPLAY_WIDTH := 320;
     DISPLAY_HEIGHT := 240;
     KODI_THUMB := py "./images/kodi_thumb.jpg";
     DEFAULT_THUMB := py "./images/music_icon2_lg.png";
     DEFAULT_AIRPLAY := py "./images/airplay_thumb.png";
     ALAYOUT_NAMES := ["A_DEFAULT"; "A_FULLSCREEN"; "A_FULL_PROG"];
     ALAYOUT_INITIAL := "A_DEFAULT";
     A_LAYOUT := <["A_DEFAULT" := sample_layout]>
                   (<["A_FULLSCREEN" := sample_layout]>
                      (<["A_FULL_PROG" := sample_layout]> ∅));
     STATUS_LAYOUT := sample_status_layout;
     USE_BACKLIGHT := true;
     textsize_of := fixed_pitch 10 16 |}.

Definition sample_cover : pystr :=
  py "image://music@smb%3a%2f%2fnas%2fBach%2fcover.jpg/".

Definition sample_info (cover_path : pystr) : gmap string pystr :=
  list_to_map
    [ ("MusicPlayer.Title", py "A very long title that does not fit the panel at all");
      ("MusicPlayer.Album", py "Cantatas");
      ("MusicPlayer.Artist", py "");
      ("MusicPlayer.Time", py "01:23");
      ("MusicPlayer.Duration", py "04:56");
      ("MusicPlayer.TrackNumber", py "3");
      ("MusicPlayer.Property(Role.Composer)", py "J.S. Bach");
      ("MusicPlayer.Codec", py "flac");
      ("MusicPlayer.Year", py "1985");
      ("MusicPlayer.Genre", py "Classical");
      ("MusicPlayer.Cover", cover_path) ].

Definition sample_status : gmap string pystr :=
  list_to_map
    [ ("System.Uptime", py "3 days");
      ("System.CPUTemperature", py "48 C");
      ("System.Date", py "Monday, 5 October 2020");
      ("System.Time", py "10:30 PM") ].

(** Audio is playing, every request is answered, the cover is served
    with status 200 and decodes. *)
Definition sample_world : env :=
  {| now := 1000;
     rpc_ping := Reply (py "pong");
     rpc_active_players := Reply [py "audio"];
     rpc_system_labels := Reply sample_status;
     rpc_music_labels := Reply (sample_info sample_cover);
     rpc_percentage := Reply (Some 50%Q);
     rpc_prepare_download := fun _ => Reply (Some (py "image/cover.jpg"));
     rpc_file_details := fun _ => Reply None;
     http_get := fun _ => Reply (mk_http_response 200 [255; 216; 255]%N);
     decodes := fun _ => true;
     isfile := fun _ => false;
     opens := fun _ => true |}.

(** The same world with other answers. *)
Definition with_players (players : rpc (list pystr)) (w : env) : env :=
  mk_env (now w) (rpc_ping w) players (rpc_system_labels w)
    (rpc_music_labels w) (rpc_percentage w) (rpc_prepare_download w)
    (rpc_file_details w) (http_get w) (decodes w) (isfile w) (opens w).

Definition with_music_labels (labels : rpc (gmap string pystr)) (w : env)
    : env :=
  mk_env (now w) (rpc_ping w) (rpc_active_players w) (rpc_system_labels w)
    labels (rpc_percentage w) (rpc_prepare_download w)
    (rpc_file_details w) (http_get w) (decodes w) (isfile w) (opens w).

Definition with_prepare_download (reply : pystr -> rpc (option pystr))
    (w : env) : env :=
  mk_env (now w) (rpc_ping w) (rpc_active_players w) (rpc_system_labels w)
    (rpc_music_labels w) (rpc_percentage w) reply
    (rpc_file_details w) (http_get w) (decodes w) (isfile w) (opens w).

Definition with_file_details (reply : pystr -> rpc (option pystr))
    (w : env) : env :=
  mk_env (now w) (rpc_ping w) (rpc_active_players w) (rpc_system_labels w)
    (rpc_music_labels w) (rpc_percentage w) (rpc_prepare_download w)
    reply (http_get w) (decodes w) (isfile w) (opens w).

Definition with_http_get (reply : pystr -> rpc http_response) (w : env)
    : env :=
  mk_env (now w) (rpc_ping w) (rpc_active_players w) (rpc_system_labels w)
    (rpc_music_labels w) (rpc_percentage w) (rpc_prepare_download w)
    (rpc_file_details w) reply (decodes w) (isfile w) (opens w).

Definition with_decodes (d : list N -> bool) (w : env) : env :=
  mk_env (now w) (rpc_ping w) (rpc_active_players w) (rpc_system_labels w)
    (rpc_music_labels w) (rpc_percentage w) (rpc_prepare_download w)
    (rpc_file_details w) (http_get w) d (isfile w) (opens w).

(** The player has gone away: no request is answered. *)
Definition offline_world : env :=
  {| now := 1001;
     rpc_ping := Unreachable;
     rpc_active_players := Unreachable;
     rpc_system_labels := Unreachable;
     rpc_music_labels := Unreachable;
     rpc_percentage := Unreachable;
     rpc_prepare_download := fun _ => Unreachable;
     rpc_file_details := fun _ => Unreachable;
     http_get := fun _ => Unreachable;
     decodes := fun _ => false;
     isfile := fun _ => false;
     opens := fun _ => true |}.

Definition sample_globals : globals := initial_globals sample_settings 0.

(** Nothing is playing. *)
Definition idle_world : env := with_players (Reply []) sample_world.

(** The globals after an AirPlay cover was fetched: its last-modified
    token is cached. *)
Definition airplay_cover : pystr := py "special://temp/airtunes_album_thumb.jpg".
Definition airplay_token : pystr := py "2020-10-05 22:30:00".
Definition airplay_globals : globals :=
  set_last_image_time (Some airplay_token) sample_globals.

(** Audio is played over AirPlay by a player on another host; the cover
    file has the token [airplay_token]. *)
Definition airplay_world : env :=
  with_file_details (fun _ => Reply (Some airplay_token))
    (with_music_labels (Reply (sample_info airplay_cover)) sample_world).

(** The image host answers 404. *)
Definition not_found_world : env :=
  with_http_get (fun _ => Reply (mk_http_response 404 [])) sample_world.

(** The [Paste] operations of a frame. *)
Definition pastes (ops : list draw_op) : list draw_op :=
  List.filter (fun op => match op with Paste _ _ => true | _ => false end) ops.

(** Texts drawn in the examples. *)
Definition symphony_title : pystr := py "Symphony No. 9 in D minor".
Definition concerto_title : pystr :=
  py "Brandenburg Concerto No. 3 in G major, BWV 1048: I. Allegro.".
Definition long_title : pystr :=
  py "A very long title that does not fit the panel at all".
Definition composer_credit : pystr := py "(J.S. Bach)".

(** [last_trunc] after [long_title] was drawn from pixel 150 in the main
    font. *)
Definition title_cache : list trunc_entry :=
  [ {| te_str := long_title;
       te_short_str := py "A very long tit" ++ [ellipsis];
       te_truncating := true;
       te_font := "font_main" |} ].

(** The panel runs on the host of the player. *)
Definition local_settings : settings :=
  {| BASE_URL := py "http://localhost:8080";
     DISPLAY_WIDTH := DISPLAY_WIDTH sample_settings;
     DISPLAY_HEIGHT := DISPLAY_HEIGHT sample_settings;
     KODI_THUMB := KODI_THUMB sample_settings;
     DEFAULT_THUMB := DEFAULT_THUMB sample_settings;
     DEFAULT_AIRPLAY := DEFAULT_AIRPLAY sample_settings;
     ALAYOUT_NAMES := ALAYOUT_NAMES sample_settings;
     ALAYOUT_INITIAL := ALAYOUT_INITIAL sample_settings;
     A_LAYOUT := A_LAYOUT sample_settings;
     STATUS_LAYOUT := STATUS_LAYOUT sample_settings;
     USE_BACKLIGHT := USE_BACKLIGHT sample_settings;
     textsize_of := textsize_of sample_settings |}.

Definition with_isfile (f : pystr -> bool) (w : env) : env :=
  mk_env (now w) (rpc_ping w) (rpc_active_players w) (rpc_system_labels w)
    (rpc_music_labels w) (rpc_percentage w) (rpc_prepare_download w)
    (rpc_file_details w) (http_get w) (decodes w) f (opens w).

(** The AirPlay cover file is on the disk of the panel. *)
Definition airplay_file_world : env := with_isfile (fun _ => true) airplay_world.

(** The player shows a 24-hour clock. *)
Definition clock24_status : gmap string pystr :=
  <["System.Time" := py "22:30"]> sample_status.

Definition time_field : field_spec :=
  mk_field_spec "time_hrmin" 145 80 "white" "font7S"
    (Some "font7S_sm") None false.

(** Nothing is playing and the player shows a 24-hour clock. *)
Definition clock24_world : env :=
  mk_env (now idle_world) (rpc_ping idle_world) (rpc_active_players idle_world)
    (Reply clock24_status) (rpc_music_labels idle_world)
    (rpc_percentage idle_world) (rpc_prepare_download idle_world)
    (rpc_file_details idle_world) (http_get idle_world) (decodes idle_world)
    (isfile idle_world) (opens idle_world).

(** A panel without a backlight to switch. *)
Definition oled_settings : settings :=
  {| BASE_URL := BASE_URL sample_settings;
     DISPLAY_WIDTH := DISPLAY_WIDTH sample_settings;
     DISPLAY_HEIGHT := DISPLAY_HEIGHT sample_settings;
     KODI_THUMB := KODI_THUMB sample_settings;
     DEFAULT_THUMB := DEFAULT_THUMB sample_settings;
     DEFAULT_AIRPLAY := DEFAULT_AIRPLAY sample_settings;
     ALAYOUT_NAMES := ALAYOUT_NAMES sample_settings;
     ALAYOUT_INITIAL := ALAYOUT_INITIAL sample_settings;
     A_LAYOUT := A_LAYOUT sample_settings;
     STATUS_LAYOUT := STATUS_LAYOUT sample_settings;
     USE_BACKLIGHT := false;
     textsize_of := textsize_of sample_settings |}.

(** The player reports no percentage. *)
Definition no_percentage_world : env :=
  mk_env (now sample_world) (rpc_ping sample_world)
    (rpc_active_players sample_world) (rpc_system_labels sample_world)
    (rpc_music_labels sample_world) (Reply None)
    (rpc_prepare_download sample_world) (rpc_file_details sample_world)
    (http_get sample_world) (decodes sample_world) (isfile sample_world)
    (opens sample_world).

(** The screen has been touched since the last pass. *)
Definition pressed_globals : globals := set_screen_press true sample_globals.

(** The colour and font tables of the sample settings, and a text
    field of a layout as the settings file has it. *)
Definition sample_colors : gmap pystr value :=
  {[ py "color_artist" := VStr (py "yellow") ]}.

Definition sample_fonts : gmap pystr font :=
  {[ py "font_main" := "font_main"%string ]}.

Definition raw_field : value :=
  VDict [ (py "name", VStr (py "artist"));
          (py "posx", VInt 150);
          (py "posy", VInt 60);
          (py "fill", VStr (py "color_artist"));
          (py "lfill", VStr (py "white"));
          (py "font", VStr (py "font_main")) ].

(** A field that names a font that is not loaded, alone and inside a
    list of lists. *)
Definition unknown_font_field : value :=
  VDict [ (py "name", VStr (py "title"));
          (py "font", VStr (py "font_huge")) ].

Definition field_rows : list value :=
  [ VList [unknown_font_field]; VStr (py "rows"); raw_field ].


(** ** Vocabulary of the properties *)

(** The URL that the first block of [get_artwork] fetches for a cover:
    the cover itself when it is an [http://] URL, else the path that
    [Files.PrepareDownload] gave, under the base URL. *)
Definition cover_url (cfg : settings) (world : env) (c : pystr)
    : option pystr :=
  if startswith (py "http://") c then Some c
  else match rpc_prepare_download world c with
       | Reply (Some p) => Some (BASE_URL cfg ++ py "/" ++ p)
       | _ => None
       end.

(** The default thumbnail as [Image.open] gives it: no [thumbnail] call
    has touched it. *)
Definition default_image (cfg : settings) : image :=
  {| img_source_of := FromFile (DEFAULT_THUMB cfg); img_thumbnails := [] |}.

(** The cached locator, when there is one, is of the kind that enters the
    first block of [get_artwork]: not empty, not [DefaultAlbumCover.png],
    not the AirPlay file under [special://temp].  The script starts with
    no cached locator; with settings whose two default image paths are
    of that kind it only ever stores locators of that kind
    ([main_loop_caches_library_locators]). *)
Definition cached_locator_ok (g : globals) : Prop :=
  forall p, _last_image_path g = Some p -> is_library_cover p = true.

(** The cached locator and the cached image, as one view. *)
Definition cached_artwork (g : globals) : option pystr * option img_ref :=
  (_last_image_path g, _last_thumb g).

(** [keeps view m]: whatever its outcome, [m] ends with the same [view]
    of the globals as it started with. *)
Definition keeps {A B} (view : globals -> B) (m : M A) : Prop :=
  forall g, view (snd (m g)) = view g.

(** [returns_with view v m]: when [m] returns, the view is [v]. *)
Definition returns_with {A B} (view : globals -> B) (v : B) (m : M A) : Prop :=
  forall g a g', m g = (Returns a, g') -> view g' = v.

(** [keeps_unless_returns view m]: a run of [m] that does not return has
    kept the view. *)
Definition keeps_unless_returns {A B} (view : globals -> B) (m : M A) : Prop :=
  forall g r g', m g = (r, g') -> (forall a, r <> Returns a) ->
    view g' = view g.

(** [preserves P m]: whatever its outcome, [m] ends in globals that
    satisfy [P] when it started in such globals. *)
Definition preserves {A} (P : globals -> Prop) (m : M A) : Prop :=
  forall g, P g -> P (snd (m g)).

(** [extended view Q base g]: the list [view g] is [base] followed by
    elements that all satisfy [Q]. *)
Definition extended {B} (view : globals -> list B) (Q : B -> Prop)
    (base : list B) (g : globals) : Prop :=
  exists l, view g = base ++ l /\ Forall Q l.

(** The calls of [device.backlight]. *)
Definition is_backlight (ev : io_event) : bool :=
  match ev with
  | DeviceBacklight _ | DeviceBacklightLevel _ => true
  | _ => false
  end.

Definition is_rectangle (op : draw_op) : bool :=
  match op with
  | Rectangle _ _ _ _ _ => true
  | _ => false
  end.

(** The rectangle that clears the frame. *)
Definition black_slate (cfg : settings) : draw_op :=
  Rectangle 0%Q 0%Q (inject_Z (DISPLAY_WIDTH cfg))
    (inject_Z (DISPLAY_HEIGHT cfg)) "black".

(** * Properties *)

(** ** Outcomes *)

(** Unfolding of the monadic operations, for computations whose branches
    are decided by the hypotheses at hand. *)
Ltac mrun :=
  cbv beta iota delta
    [bind ret gets modify raise hang log post alloc lift draw_emit
     try_except dict_get];
  cbn [fst snd heap io_log frame lock _last_image_path _last_thumb
       _last_image_time audio_dmode kodi_active screen_press screen_active
       screen_offtime last_trunc
       set_heap set_io_log set_frame set_lock set_last_image_path
       set_last_thumb set_last_image_time set_audio_dmode set_kodi_active
       set_screen_press set_screen_active set_screen_offtime set_last_trunc
       image_set resize_needed cover prev_image negb andb orb].

Lemma obind_Returns {A B} (m : outcome A) (k : A -> outcome B) (b : B) :
  obind m k = Returns b -> exists a, m = Returns a /\ k a = Returns b.
Proof.
  destruct m as [a| |]; simpl; intros H; try discriminate.
  exists a. split; [reflexivity | exact H].
Qed.

Lemma py_slice_to_prefix (s : pystr) (n : Z) : py_slice_to s n `prefix_of` s.
Proof. unfold py_slice_to. destruct (0 <=? n); apply prefix_take. Qed.

Lemma py_slice_to_all (s : pystr) (n : Z) :
  Z.of_nat (length s) <= n -> py_slice_to s n = s.
Proof.
  intros Hn. unfold py_slice_to.
  destruct (Z.leb_spec 0 n) as [_|Hneg]; [|lia].
  apply take_ge. lia.
Qed.

Lemma py_slice_to_59 (text : pystr) : py_slice_to text 59 = take 59 text.
Proof. reflexivity. Qed.

(** ** The truncation loop *)

Section TruncateFacts.

Variable frame_width : Z.
Variable textsize : font -> pystr -> Z * Z.

Lemma removelast_prefix (s : pystr) : removelast s `prefix_of` s.
Proof. rewrite removelast_firstn_len. apply prefix_take. Qed.

Lemma removelast_shorter (s : pystr) :
  s <> [] -> (length (removelast s) < length s)%nat.
Proof.
  intros Hs. rewrite removelast_firstn_len, length_take.
  destruct s; [congruence | simpl; lia].
Qed.

(** A text that passes the test of the loop leaves it at once. *)
Lemma shrink_fits fuel x f s t m :
  x + fst (textsize f s) <= frame_width - 20 ->
  shrink frame_width textsize fuel x f s t m = Returns (s, t, m).
Proof.
  intros Hfit. destruct fuel; simpl; unfold avail_width;
    destruct (Z.gtb_spec (x + fst (textsize f s)) (frame_width - 20));
    solve [lia | reflexivity].
Qed.

(** What the loop guarantees when it ends: the text it leaves passes the
    test, is a prefix of the text it was given, and the flag is raised
    exactly when a character was dropped. *)
Lemma shrink_Returns fuel : forall x f s t m s' t' m',
  shrink frame_width textsize fuel x f s t m = Returns (s', t', m') ->
  x + fst (textsize f s') <= frame_width - 20
  /\ s' `prefix_of` s
  /\ ((s' = s /\ t' = t /\ m' = m)
      \/ (t' = true /\ (length s' < length s)%nat /\ (m < m')%nat)).
Proof.
  induction fuel as [|fuel IH]; intros x f s t m s' t' m'; simpl;
    unfold avail_width;
    destruct (Z.gtb_spec (x + fst (textsize f s)) (frame_width - 20)) as [Hgt|Hle];
    intros H.
  - destruct s; discriminate.
  - inversion H; subst. split; [lia|]. split; [reflexivity|]. left. auto.
  - destruct s as [|c s0]; [discriminate|].
    apply IH in H. destruct H as (Hfit & Hpre & Hcase).
    assert (Hlt : (length (removelast (c :: s0)) < length (c :: s0))%nat)
      by (apply removelast_shorter; discriminate).
    split; [exact Hfit|]. split.
    + etransitivity; [exact Hpre | apply removelast_prefix].
    + right. destruct Hcase as [(-> & -> & ->) | (Ht & Hlen & Hm)].
      * repeat split; [exact Hlt | lia].
      * repeat split; [exact Ht | lia | lia].
  - inversion H; subst. split; [lia|]. split; [reflexivity|]. left. auto.
Qed.

(** The fuel given by [truncate_text], the length of the text, is never
    what ends the loop: any larger amount gives the same outcome. *)
Lemma shrink_fuel_enough fuel : forall x f s t m,
  (length s <= fuel)%nat ->
  shrink frame_width textsize fuel x f s t m = shrink frame_width textsize (length s) x f s t m.
Proof.
  induction fuel as [|fuel IH]; intros x f s t m Hlen.
  - destruct s; [reflexivity | simpl in Hlen; lia].
  - destruct s as [|c s0]; [reflexivity|].
    assert (Hrl : length (removelast (c :: s0)) = length s0).
    { rewrite removelast_firstn_len, length_take. simpl. lia. }
    cbn [shrink length].
    destruct (x + fst (textsize f (c :: s0)) >? avail_width frame_width);
      [|reflexivity].
    rewrite IH by (rewrite Hrl; simpl in Hlen; lia).
    rewrite Hrl. reflexivity.
Qed.

(** The loop ends as soon as the empty text passes its test, that is,
    when the text starts at or before [frame_size[0] - 20], less the width
    the font gives to the empty text. *)
Lemma shrink_terminates fuel : forall x f s t m,
  x + fst (textsize f []) <= frame_width - 20 ->
  (length s <= fuel)%nat ->
  exists s' t' m', shrink frame_width textsize fuel x f s t m = Returns (s', t', m').
Proof.
  induction fuel as [|fuel IH]; intros x f s t m Hroom Hlen; simpl;
    unfold avail_width;
    destruct (Z.gtb_spec (x + fst (textsize f s)) (frame_width - 20)) as [Hgt|Hle];
    eauto.
  - destruct s; [lia | simpl in Hlen; lia].
  - destruct s as [|c s0]; [lia|].
    apply IH; [exact Hroom|].
    pose proof (removelast_shorter (c :: s0)) as Hlt.
    simpl in Hlen. specialize (Hlt ltac:(discriminate)). simpl in Hlt |- *. lia.
Qed.

(** The loop never raises. *)
Lemma shrink_no_exception fuel : forall x f s t m e,
  shrink frame_width textsize fuel x f s t m <> Raises e.
Proof.
  induction fuel as [|fuel IH]; intros x f s t m e; simpl;
    destruct (x + fst (textsize f s) >? avail_width frame_width);
    try discriminate; destruct s; try discriminate.
  apply IH.
Qed.

Lemma initial_candidate_prefix f s c :
  initial_candidate frame_width textsize f s = Returns c -> c `prefix_of` s.
Proof.
  unfold initial_candidate. intros H.
  apply obind_Returns in H. destruct H as (n & _ & H).
  inversion H; subst. apply py_slice_to_prefix.
Qed.

Lemma inject_Z_eq_0 (z : Z) : (inject_Z z == 0)%Q -> z = 0.
Proof. unfold Qeq, inject_Z. simpl. lia. Qed.

Lemma Qdiv_Z_eq_0 (a b : Z) :
  (inject_Z a / inject_Z b == 0)%Q -> a = 0 \/ b = 0.
Proof.
  unfold Qdiv. intros H. apply Qmult_integral in H. destruct H as [H|H].
  - left. apply inject_Z_eq_0, H.
  - right. destruct b as [|p|p]; [reflexivity | |];
      unfold Qeq, Qinv, inject_Z in H; simpl in H; lia.
Qed.

(** The estimate is defined as soon as the text is not empty and its
    rendered width is not zero. *)
Lemma initial_candidate_defined f s :
  s <> [] -> fst (textsize f s) <> 0 ->
  exists c, initial_candidate frame_width textsize f s = Returns c.
Proof.
  intros Hs Hw. unfold initial_candidate, estimate_chars.
  destruct (Z.eqb_spec (fst (textsize f s)) 0) as [|_]; [contradiction|].
  destruct (Qeq_bool _ 0) eqn:Hq.
  - apply Qeq_bool_iff, Qdiv_Z_eq_0 in Hq. destruct Hq as [Hq|Hq].
    + destruct s; [contradiction | simpl in Hq; lia].
    + contradiction.
  - simpl. eauto.
Qed.

(** The empty text always fails in the estimate: its length is the
    dividend of the first quotient, so the second one divides by zero
    whenever the first one did not. *)
Lemma initial_candidate_empty f :
  initial_candidate frame_width textsize f [] = Raises ZeroDivisionError.
Proof.
  unfold initial_candidate, estimate_chars.
  destruct (fst (textsize f []) =? 0); [reflexivity|].
  destruct (Qeq_bool _ 0) eqn:Hq; [reflexivity|].
  exfalso. apply Qeq_bool_neq in Hq. apply Hq.
  unfold Qdiv. simpl. apply Qmult_0_l.
Qed.

(** The path of [truncate_text] when no entry of [last_trunc] matches,
    with the two steps named. *)
Lemma truncate_text_miss cache xy text fill f cand s t m :
  trunc_lookup (take 59 text) f cache = None ->
  initial_candidate frame_width textsize f (take 59 text) = Returns cand ->
  shrink frame_width textsize (length cand) (fst xy) f cand false 2 = Returns (s, t, m) ->
  truncate_text frame_width textsize cache xy text fill f =
    Returns {| disp_text := if t then s ++ [ellipsis] else s;
               tr_truncating := t;
               tr_last_trunc :=
                 take 9 ({| te_str := take 59 text;
                            te_short_str := if t then s ++ [ellipsis] else s;
                            te_truncating := t;
                            te_font := f |} :: cache);
               tr_measured := m;
               tr_drawn := DrawText xy (if t then s ++ [ellipsis] else s) fill f |}.
Proof.
  intros Hmiss Hcand Hloop. unfold truncate_text.
  rewrite py_slice_to_59, Hmiss, Hcand. simpl obind at 1.
  rewrite Hloop. reflexivity.
Qed.

(** On that path a call that returns went through both steps. *)
Lemma truncate_text_miss_inv cache xy text fill f r :
  trunc_lookup (take 59 text) f cache = None ->
  truncate_text frame_width textsize cache xy text fill f = Returns r ->
  exists cand s t m,
    initial_candidate frame_width textsize f (take 59 text) = Returns cand
    /\ shrink frame_width textsize (length cand) (fst xy) f cand false 2 = Returns (s, t, m).
Proof.
  intros Hmiss H. unfold truncate_text in H.
  rewrite py_slice_to_59, Hmiss in H.
  apply obind_Returns in H. destruct H as (cand & Hcand & H).
  apply obind_Returns in H. destruct H as (((s & t) & m) & Hloop & _).
  exists cand, s, t, m. split; assumption.
Qed.


Lemma trunc_lookup_Some new_text f cache e :
  trunc_lookup new_text f cache = Some e ->
  te_str e = new_text /\ te_font e = f /\ In e cache.
Proof.
  unfold trunc_lookup. intros H. apply find_some in H.
  destruct H as (Hin & H). apply andb_prop in H. destruct H as (H1 & H2).
  apply bool_decide_eq_true_1 in H1, H2. auto.
Qed.

(** ** truncate_text: what is drawn and cached *)

(** C4 (amended).  When the loop of [truncate_text] has dropped characters
    (the flag [truncating] is set when the call returns), the string drawn
    and stored in [last_trunc] is a strict prefix of the first 59
    characters of the text followed by one ellipsis, and it is that prefix
    alone, measured before the ellipsis is appended, whose right edge
    [xy[0] + width] stays within [frame_size[0] - 20].  The loop does drop
    characters and the call does return whenever no entry of [last_trunc]
    matches, the candidate of the estimate does not pass the test of the
    loop and the empty text does. *)
Theorem truncate_text_shortened cache xy text fill f :
  (forall r,
     truncate_text frame_width textsize cache xy text fill f = Returns r ->
     tr_truncating r = true ->
     exists p,
       disp_text r = p ++ [ellipsis]
       /\ p `prefix_of` take 59 text
       /\ (length p < length (take 59 text))%nat
       /\ fst xy + fst (textsize f p) <= frame_width - 20
       /\ tr_drawn r = DrawText xy (p ++ [ellipsis]) fill f
       /\ head (tr_last_trunc r) =
            Some {| te_str := take 59 text;
                    te_short_str := p ++ [ellipsis];
                    te_truncating := true;
                    te_font := f |})
  /\ (forall cand,
       trunc_lookup (take 59 text) f cache = None ->
       initial_candidate frame_width textsize f (take 59 text) = Returns cand ->
       frame_width - 20 < fst xy + fst (textsize f cand) ->
       fst xy + fst (textsize f []) <= frame_width - 20 ->
       exists r,
         truncate_text frame_width textsize cache xy text fill f = Returns r
         /\ tr_truncating r = true).
Proof.
  split.
  - intros r Hcall Hflag.
    destruct (trunc_lookup (take 59 text) f cache) as [e|] eqn:Hlook.
    + unfold truncate_text in Hcall. rewrite py_slice_to_59, Hlook in Hcall.
      inversion Hcall; subst r. discriminate.
    + destruct (truncate_text_miss_inv _ _ _ _ _ _ Hlook Hcall)
        as (cand & s & t & m & Hcand & Hloop).
      rewrite (truncate_text_miss _ xy _ fill _ _ _ _ _ Hlook Hcand Hloop)
        in Hcall.
      inversion Hcall; subst r; clear Hcall. simpl in Hflag. subst t.
      apply shrink_Returns in Hloop.
      destruct Hloop as (Hfit & Hpre & [(_ & Hno & _) | (_ & Hlen & _)]);
        [discriminate|].
      pose proof (initial_candidate_prefix _ _ _ Hcand) as Hcp.
      exists s. simpl. repeat split; try assumption.
      * etransitivity; eassumption.
      * apply prefix_length in Hcp. lia.
  - intros cand Hlook Hcand Hwide Hroom.
    destruct (shrink_terminates (length cand) (fst xy) f cand false 2%nat
                Hroom (le_n _)) as (s & t & m & Hloop).
    eexists. split.
    + apply (truncate_text_miss cache xy text fill f cand s t m
               Hlook Hcand Hloop).
    + simpl. apply shrink_Returns in Hloop.
      destruct Hloop as (Hfit & _ & [(-> & _ & _) | (Ht & _)]);
        [lia | exact Ht].
Qed.

(** With no matching entry in [last_trunc], a text that is not empty and
    whose first 59 characters have a rendered width other than zero gets
    through the estimate without error; the candidate it yields is a
    prefix of the text, and when that candidate already fits the call
    returns and draws it with no ellipsis appended. *)
Lemma truncate_text_fitting_candidate cache xy text fill f :
  trunc_lookup (take 59 text) f cache = None ->
  text <> [] ->
  fst (textsize f (take 59 text)) <> 0 ->
  exists cand,
    initial_candidate frame_width textsize f (take 59 text) = Returns cand
    /\ cand `prefix_of` text
    /\ (fst xy + fst (textsize f cand) <= frame_width - 20 ->
        exists r,
          truncate_text frame_width textsize cache xy text fill f = Returns r
          /\ disp_text r = cand
          /\ tr_truncating r = false
          /\ tr_drawn r = DrawText xy cand fill f).
Proof.
  intros Hlook Htext Hwidth.
  destruct (initial_candidate_defined f (take 59 text)) as (cand & Hcand).
  { destruct text; [contradiction | discriminate]. }
  { exact Hwidth. }
  exists cand. split; [exact Hcand|]. split.
  - etransitivity; [apply (initial_candidate_prefix _ _ _ Hcand)|].
    apply prefix_take.
  - intros Hfit. eexists. split.
    + apply (truncate_text_miss cache xy text fill f cand cand false 2%nat
               Hlook Hcand).
      apply shrink_fits. exact Hfit.
    + simpl. auto.
Qed.

(** C5 (amended).  With no matching entry in [last_trunc], a text of at
    most 59 characters for which the estimate is defined and is at least
    its length, and whose right edge [xy[0] + width] stays within
    [frame_size[0] - 20], is drawn and stored unchanged: no character
    dropped and no ellipsis. *)
Theorem truncate_text_fitting_unchanged cache xy text fill f n :
  trunc_lookup (take 59 text) f cache = None ->
  (length text <= 59)%nat ->
  estimate_chars frame_width text (fst (textsize f text)) = Returns n ->
  Z.of_nat (length text) <= n ->
  fst xy + fst (textsize f text) <= frame_width - 20 ->
  exists r,
    truncate_text frame_width textsize cache xy text fill f = Returns r
    /\ disp_text r = text
    /\ tr_truncating r = false
    /\ tr_drawn r = DrawText xy text fill f
    /\ head (tr_last_trunc r) =
         Some {| te_str := text;
                 te_short_str := text;
                 te_truncating := false;
                 te_font := f |}.
Proof.
  intros Hlook Hlen Hest Hn Hfit.
  assert (Htake : take 59 text = text) by (apply take_ge; exact Hlen).
  assert (Hcand : initial_candidate frame_width textsize f (take 59 text) = Returns text).
  { unfold initial_candidate. rewrite Htake, Hest. simpl.
    rewrite py_slice_to_all by exact Hn. reflexivity. }
  eexists. split.
  - apply (truncate_text_miss cache xy text fill f text text false 2%nat
             Hlook Hcand).
    apply shrink_fits. exact Hfit.
  - simpl. rewrite Htake. auto.
Qed.


End TruncateFacts.

(** The empty text, with no entry for it in [last_trunc], raises whatever
    the font, the frame and the position are. *)
Lemma truncate_text_empty frame_width textsize cache xy fill f :
  trunc_lookup [] f cache = None ->
  truncate_text frame_width textsize cache xy [] fill f
    = Raises ZeroDivisionError.
Proof.
  intros Hlook. unfold truncate_text.
  change (py_slice_to [] 59) with (@nil codepoint).
  rewrite Hlook, initial_candidate_empty. reflexivity.
Qed.

(** The estimate covers the whole text when the frame is at least as
    many pixels wide as the text has characters and the characters are
    one pixel wide or more on average. *)
Lemma estimate_chars_whole frame_width (text : pystr) (t_width : Z) :
  text <> [] ->
  Z.of_nat (length text) <= frame_width ->
  Z.of_nat (length text) <= t_width ->
  exists n, estimate_chars frame_width text t_width = Returns n
            /\ Z.of_nat (length text) <= n.
Proof.
  intros Htext Hframe Hwide.
  assert (Hpos : 0 < Z.of_nat (length text)).
  { destruct text; [contradiction | simpl; lia]. }
  unfold estimate_chars, avail_width.
  destruct (Z.eqb_spec t_width 0) as [|_]; [lia|].
  set (L := inject_Z (Z.of_nat (length text))).
  set (W := inject_Z t_width).
  set (A := inject_Z (frame_width - 20 + 20)).
  assert (HL : (0 < L)%Q) by (unfold L, Qlt; simpl; lia).
  assert (HW : (0 < W)%Q) by (unfold W, Qlt; simpl; lia).
  assert (HLW : (L <= W)%Q) by (unfold L, W, Qle; simpl; lia).
  assert (HLA : (L <= A)%Q) by (unfold L, A, Qle; simpl; lia).
  assert (HX0 : (0 < L / W)%Q) by (apply Qlt_shift_div_l; [exact HW | lra]).
  assert (HX1 : (L / W <= 1)%Q) by (apply Qle_shift_div_r; [exact HW | lra]).
  destruct (Qeq_bool (L / W) 0) eqn:Hq.
  { apply Qeq_bool_iff in Hq. lra. }
  eexists. split; [reflexivity|].
  assert (Hq' : (L <= A / (L / W))%Q).
  { apply Qle_shift_div_l; [exact HX0|]. nra. }
  unfold py_int.
  destruct (Qle_bool 0 (A / (L / W))) eqn:Hsign.
  - rewrite <- (Qfloor_Z (Z.of_nat (length text))).
    apply Qfloor_resp_le. exact Hq'.
  - exfalso. assert (Hge : (0 <= A / (L / W))%Q) by lra.
    apply Qle_bool_iff in Hge. congruence.
Qed.

(** So it does for a text of at most 59 characters on a frame of 59
    pixels or more. *)
Lemma estimate_chars_covers frame_width (text : pystr) (t_width : Z) :
  text <> [] ->
  (length text <= 59)%nat ->
  59 <= frame_width ->
  Z.of_nat (length text) <= t_width ->
  exists n, estimate_chars frame_width text t_width = Returns n
            /\ Z.of_nat (length text) <= n.
Proof.
  intros Htext Hlen Hframe Hwide.
  apply estimate_chars_whole; [exact Htext | lia | exact Hwide].
Qed.

(** A text that is not empty, is drawn at one pixel or more per
    character and fits from a position that is not negative: the
    estimate keeps all of its first 59 characters, the loop drops none,
    and they are drawn as they are. *)
Lemma truncate_text_fitting_whole frame_width textsize cache xy text fill f :
  trunc_lookup (take 59 text) f cache = None ->
  text <> [] ->
  0 <= fst xy ->
  Z.of_nat (length (take 59 text)) <= fst (textsize f (take 59 text)) ->
  fst xy + fst (textsize f (take 59 text)) <= frame_width - 20 ->
  exists r,
    truncate_text frame_width textsize cache xy text fill f = Returns r
    /\ disp_text r = take 59 text
    /\ tr_truncating r = false
    /\ tr_drawn r = DrawText xy (take 59 text) fill f
    /\ ((length text <= 59)%nat -> disp_text r = text).
Proof.
  intros Hlook Htext Hx Hwide Hfit.
  assert (Hne : take 59 text <> [])
    by (destruct text; [contradiction | discriminate]).
  destruct (estimate_chars_whole frame_width (take 59 text)
              (fst (textsize f (take 59 text))) Hne ltac:(lia) Hwide)
    as (n & Hest & Hn).
  assert (Hcand : initial_candidate frame_width textsize f (take 59 text)
                  = Returns (take 59 text)).
  { unfold initial_candidate. rewrite Hest. simpl.
    rewrite py_slice_to_all by exact Hn. reflexivity. }
  eexists. split.
  - apply (truncate_text_miss frame_width textsize cache xy text fill f
             (take 59 text) (take 59 text) false 2%nat Hlook Hcand).
    apply shrink_fits. exact Hfit.
  - simpl. repeat split. intros Hlen. apply take_ge. exact Hlen.
Qed.

(** The callers of [truncate_text] guard it: what a round of the loop
    over the text fields does is the same for every way of drawing a
    value that agrees with the script's on the texts that are not empty.
    The empty text never reaches [truncate_text]. *)
Lemma audio_field_guards_empty cfg draw info fd g :
  (forall fd text, text <> [] -> draw fd text = draw_value cfg fd text) ->
  audio_field_via draw info fd g = audio_field cfg info fd g.
Proof.
  intros Hdraw. unfold audio_field, audio_field_via.
  destruct (String.eqb (fd_name fd) "codec"); [reflexivity|].
  destruct (String.eqb (fd_name fd) "artist").
  - mrun.
    destruct (info !! "MusicPlayer.Artist"%string) as [artist|]; [|reflexivity].
    destruct (bool_decide_reflect (artist <> [])) as [Hne|He].
    + destruct artist as [|c artist]; [contradiction|].
      cbn [truthy]. rewrite Hdraw by discriminate. reflexivity.
    + destruct (info !! "MusicPlayer.Property(Role.Composer)"%string)
        as [composer|]; [|reflexivity].
      destruct (bool_decide (composer <> [])); [|reflexivity].
      rewrite Hdraw by (vm_compute; discriminate). reflexivity.
  - destruct (info !! fd_name fd) as [text|]; [|reflexivity].
    destruct (bool_decide_reflect (text <> [])) as [Hne|He]; [|reflexivity].
    mrun. rewrite Hdraw by exact Hne. reflexivity.
Qed.

(** C2 (amended).  With no matching entry in [last_trunc], a text that is
    not empty, is drawn from a position that is not negative, is at
    least one pixel wide per character over its first 59 characters, and
    fits with them ([xy[0] + width <= frame_size[0] - 20]) is handled
    without error: the call returns and draws those first 59 characters,
    the whole text when it has no more, with no ellipsis appended.  The
    empty text is not in the domain: the rounds of the loop over the
    text fields, the only callers, never pass it. *)
Theorem truncate_text_fitting_no_ellipsis frame_width textsize cache xy text
    fill f :
  (trunc_lookup (take 59 text) f cache = None ->
   text <> [] ->
   0 <= fst xy ->
   Z.of_nat (length (take 59 text)) <= fst (textsize f (take 59 text)) ->
   fst xy + fst (textsize f (take 59 text)) <= frame_width - 20 ->
   exists r,
     truncate_text frame_width textsize cache xy text fill f = Returns r
     /\ disp_text r = take 59 text
     /\ tr_truncating r = false
     /\ tr_drawn r = DrawText xy (take 59 text) fill f
     /\ ((length text <= 59)%nat -> disp_text r = text))
  /\ (forall cfg draw info fd g,
       (forall fd text, text <> [] -> draw fd text = draw_value cfg fd text) ->
       audio_field_via draw info fd g = audio_field cfg info fd g).
Proof.
  split.
  - apply truncate_text_fitting_whole.
  - apply audio_field_guards_empty.
Qed.

(** *** Concrete calls *)

(** C4, as first stated, fails: on a 320-pixel frame with a font of 25
    pixels per character the 25 characters of the title are cut to 12,
    which end at pixel 300, and the ellipsis drawn after them ends at
    pixel 325, beyond [frame_size[0] - 20] and beyond the frame. *)
Lemma truncate_text_shortened_overflows :
  exists r,
    truncate_text 320 (fixed_pitch 25 30) [] (0, 0)
      symphony_title "white" "font_main" = Returns r
    /\ tr_truncating r = true
    /\ disp_text r = py "Symphony No." ++ [ellipsis]
    /\ 320 - 20 < 0 + fst (fixed_pitch 25 30 "font_main" (disp_text r))
    /\ 320 < 0 + fst (fixed_pitch 25 30 "font_main" (disp_text r)).
Proof.
  eexists. split; [vm_compute; reflexivity|].
  vm_compute. repeat split; reflexivity.
Qed.

Lemma truncate_text_shortened_witness :
  exists r,
    truncate_text 320 (fixed_pitch 25 30) [] (0, 0)
      symphony_title "white" "font_main" = Returns r
    /\ exists p,
         disp_text r = p ++ [ellipsis]
         /\ p `prefix_of` take 59 symphony_title
         /\ (length p < length (take 59 symphony_title))%nat
         /\ fst (0, 0) + fst (fixed_pitch 25 30 "font_main" p) <= 320 - 20
         /\ tr_drawn r = DrawText (0, 0) (p ++ [ellipsis]) "white" "font_main"
         /\ head (tr_last_trunc r) =
              Some {| te_str := take 59 symphony_title;
                      te_short_str := p ++ [ellipsis];
                      te_truncating := true;
                      te_font := "font_main" |}.
Proof.
  eexists. split; [vm_compute; reflexivity|].
  apply (proj1 (truncate_text_shortened 320 (fixed_pitch 25 30) [] (0, 0)
                  symphony_title "white" "font_main"));
    vm_compute; reflexivity.
Defined.

(** C2, as first stated, fails: the empty text fits at every position,
    yet the call raises before anything is drawn. *)
Lemma truncate_text_empty_raises :
  fst (0, 0) + fst (fixed_pitch 10 16 "font_main" []) <= 320 - 20
  /\ truncate_text 320 (fixed_pitch 10 16) [] (0, 0) [] "white" "font_main"
       = Raises ZeroDivisionError.
Proof. split; [vm_compute; discriminate | vm_compute; reflexivity]. Qed.

(** Why the amended C2 asks for a pixel per character and a position
    that is not negative: 40 characters that fit are cut by the estimate,
    to 7 in a font of a quarter of a pixel per character on a frame of 30
    pixels, to 30 when drawn from pixel -1000 at one pixel per
    character. *)
Lemma truncate_text_fitting_estimate_cut :
  (fst (0, 0) + fst ((fun (_ : font) (s : pystr) =>
                        (Z.of_nat (length s) / 4, 8)) "font_sm"
                       (repeat 97%N 40)) <= 30 - 20
   /\ exists r,
        truncate_text 30 (fun _ s => (Z.of_nat (length s) / 4, 8)) [] (0, 0)
          (repeat 97%N 40) "white" "font_sm" = Returns r
        /\ disp_text r = repeat 97%N 7
        /\ tr_truncating r = false)
  /\ (fst (-1000, 0) + fst (fixed_pitch 1 8 "font_sm" (repeat 97%N 40))
      <= 30 - 20
      /\ exists r,
           truncate_text 30 (fixed_pitch 1 8) [] (-1000, 0)
             (repeat 97%N 40) "white" "font_sm" = Returns r
           /\ disp_text r = repeat 97%N 30
           /\ tr_truncating r = false).
Proof.
  split; (split; [vm_compute; discriminate|]);
    eexists; (split; [vm_compute; reflexivity|]);
    split; vm_compute; reflexivity.
Qed.

Lemma truncate_text_fitting_no_ellipsis_witness :
  exists r,
    truncate_text 320 (fixed_pitch 10 16) [] (150, 60)
      composer_credit "yellow" "font_main" = Returns r
    /\ disp_text r = take 59 composer_credit
    /\ tr_truncating r = false
    /\ tr_drawn r
       = DrawText (150, 60) (take 59 composer_credit) "yellow" "font_main"
    /\ ((length composer_credit <= 59)%nat -> disp_text r = composer_credit).
Proof.
  apply (proj1 (truncate_text_fitting_no_ellipsis 320 (fixed_pitch 10 16) []
                  (150, 60) composer_credit "yellow" "font_main")).
  - reflexivity.
  - discriminate.
  - simpl. lia.
  - vm_compute. discriminate.
  - vm_compute. discriminate.
Defined.

(** C5, as first stated, fails: 60 characters of 5 pixels each end at
    pixel 300 and so fit, but only the first 59 are drawn (and stored),
    with no ellipsis to mark the cut. *)
Lemma truncate_text_fitting_cut :
  length concerto_title = 60%nat
  /\ fst (0, 0) + fst (fixed_pitch 5 9 "font_sm" concerto_title) <= 320 - 20
  /\ exists r,
       truncate_text 320 (fixed_pitch 5 9) [] (0, 0) concerto_title
         "white" "font_sm" = Returns r
       /\ disp_text r = take 59 concerto_title
       /\ disp_text r <> concerto_title
       /\ tr_truncating r = false.
Proof.
  split; [reflexivity|].
  split; [vm_compute; discriminate|].
  eexists. split; [vm_compute; reflexivity|].
  vm_compute. repeat split; try reflexivity. discriminate.
Qed.

Lemma truncate_text_fitting_unchanged_witness :
  exists r,
    truncate_text 320 (fixed_pitch 10 16) [] (150, 60)
      composer_credit "yellow" "font_main" = Returns r
    /\ disp_text r = composer_credit
    /\ tr_truncating r = false
    /\ tr_drawn r = DrawText (150, 60) composer_credit "yellow" "font_main"
    /\ head (tr_last_trunc r) =
         Some {| te_str := composer_credit;
                 te_short_str := composer_credit;
                 te_truncating := false;
                 te_font := "font_main" |}.
Proof.
  apply (truncate_text_fitting_unchanged 320 (fixed_pitch 10 16) []
           (150, 60) composer_credit "yellow" "font_main" 3200).
  - reflexivity.
  - vm_compute. lia.
  - vm_compute. reflexivity.
  - vm_compute. discriminate.
  - vm_compute. discriminate.
Defined.


(** ** progress_bar *)

Lemma clamp_progress_low (p : Q) : (p <= 0)%Q -> (clamp_progress p == 1 # 100)%Q.
Proof.
  intros Hp. unfold clamp_progress.
  apply Qle_bool_iff in Hp. rewrite Hp. reflexivity.
Qed.

Lemma clamp_progress_high (p : Q) : (1 < p)%Q -> (clamp_progress p == 1)%Q.
Proof.
  intros Hp. unfold clamp_progress.
  destruct (Qle_bool p 0) eqn:H0.
  - apply Qle_bool_iff in H0. lra.
  - destruct (Qle_bool p 1) eqn:H1; [|reflexivity].
    apply Qle_bool_iff in H1. lra.
Qed.

Lemma clamp_progress_mid (p : Q) :
  (0 < p)%Q -> (p <= 1)%Q -> (clamp_progress p == p)%Q.
Proof.
  intros Hp0 Hp1. unfold clamp_progress.
  destruct (Qle_bool p 0) eqn:H0.
  - apply Qle_bool_iff in H0. lra.
  - apply Qle_bool_iff in Hp1. rewrite Hp1. reflexivity.
Qed.

Lemma clamp_progress_range (p : Q) :
  (0 < clamp_progress p)%Q /\ (clamp_progress p <= 1)%Q.
Proof.
  destruct (Qlt_le_dec 0 p) as [Hpos|Hneg].
  - destruct (Qlt_le_dec 1 p) as [Hhigh|Hlow].
    + rewrite (clamp_progress_high p Hhigh). lra.
    + rewrite (clamp_progress_mid p Hpos Hlow). lra.
  - rewrite (clamp_progress_low p Hneg). lra.
Qed.

(** C8.  [progress_bar] draws the background over the whole bar and then
    the filled part, whose length is the length of the bar times the
    clamped progress: 0.01 for a progress of 0 or less, 1 for a progress
    above 1, the progress itself in between.  For a bar of non-negative
    length and height the filled rectangle lies inside the background,
    horizontally from the left, vertically from the bottom. *)
Theorem progress_bar_clamped (bg fg : color) (x y w h : Z) (p : Q) :
  0 <= w -> 0 <= h ->
  ((p <= 0)%Q -> (clamp_progress p == 1 # 100)%Q)
  /\ ((1 < p)%Q -> (clamp_progress p == 1)%Q)
  /\ ((0 < p)%Q -> (p <= 1)%Q -> (clamp_progress p == p)%Q)
  /\ progress_bar bg fg x y w h p false =
       [ Rectangle (inject_Z x) (inject_Z y)
           (inject_Z x + inject_Z w)%Q (inject_Z y + inject_Z h)%Q bg;
         Rectangle (inject_Z x) (inject_Z y)
           (inject_Z x + inject_Z w * clamp_progress p)%Q
           (inject_Z y + inject_Z h)%Q fg ]
  /\ (inject_Z x <= inject_Z x + inject_Z w * clamp_progress p)%Q
  /\ (inject_Z x + inject_Z w * clamp_progress p <= inject_Z x + inject_Z w)%Q
  /\ progress_bar bg fg x y w h p true =
       [ Rectangle (inject_Z x) (inject_Z y)
           (inject_Z x + inject_Z w)%Q (inject_Z y + inject_Z h)%Q bg;
         Rectangle (inject_Z x)
           (inject_Z y + inject_Z h - inject_Z h * clamp_progress p)%Q
           (inject_Z x + inject_Z w)%Q (inject_Z y + inject_Z h)%Q fg ]
  /\ (inject_Z y <= inject_Z y + inject_Z h - inject_Z h * clamp_progress p)%Q
  /\ (inject_Z y + inject_Z h - inject_Z h * clamp_progress p
        <= inject_Z y + inject_Z h)%Q.
Proof.
  intros Hw Hh.
  destruct (clamp_progress_range p) as (Hc0 & Hc1).
  assert (HW : (0 <= inject_Z w)%Q) by (unfold Qle; simpl; lia).
  assert (HH : (0 <= inject_Z h)%Q) by (unfold Qle; simpl; lia).
  repeat split;
    auto using clamp_progress_low, clamp_progress_high, clamp_progress_mid;
    nra.
Qed.

Lemma progress_bar_clamped_witness :
  progress_bar "color_progbg" "color_progfg" 150 7 104 8 (3 # 2) false =
    [ Rectangle 150 7 (150 + 104) (7 + 8) "color_progbg";
      Rectangle 150 7 (150 + 104 * clamp_progress (3 # 2)) (7 + 8)
        "color_progfg" ]%Q
  /\ (clamp_progress (3 # 2) == 1)%Q
  /\ (clamp_progress (-1) == 1 # 100)%Q.
Proof.
  pose proof (progress_bar_clamped "color_progbg" "color_progfg"
                150 7 104 8 (3 # 2)) as H32.
  pose proof (progress_bar_clamped "color_progbg" "color_progfg"
                150 7 104 8 (-1)) as Hneg.
  destruct H32 as (_ & Hhigh & _ & Hbar & _); [lia | lia |].
  destruct Hneg as (Hlow & _); [lia | lia |].
  split; [exact Hbar|]. split.
  - apply Hhigh. reflexivity.
  - apply Hlow. discriminate.
Defined.

(** ** ADisplay.next *)

Section DisplayModes.

Variable members : list ADisplay.member.
Hypothesis members_distinct : NoDup members.

(** [members.index] finds a member at its own position. *)
Lemma ADisplay_index_lookup i m :
  members !! i = Some m -> ADisplay.index m members = Returns i.
Proof.
  intros Hi. unfold ADisplay.index.
  destruct (list_find (fun m0 => m0 = m) members) as [[j y]|] eqn:Hfind.
  - apply list_find_Some in Hfind. destruct Hfind as (Hj & -> & _).
    f_equal. eapply NoDup_lookup; eassumption.
  - apply list_find_None in Hfind.
    rewrite Forall_forall in Hfind.
    exfalso. apply (Hfind m); [|reflexivity].
    apply list_elem_of_lookup. eauto.
Qed.

Lemma succ_mod_lt i n : (i < n)%nat -> (S i mod n < n)%nat.
Proof. intros Hi. apply Nat.mod_upper_bound. lia. Qed.

(** [next] is the member at index + 1 modulo the number of members. *)
Lemma ADisplay_next_lookup i m :
  members !! i = Some m ->
  exists m', ADisplay.next members m = Returns m'
             /\ members !! (S i mod length members)%nat = Some m'.
Proof.
  intros Hi. pose proof (lookup_lt_Some _ _ _ Hi) as Hlt.
  unfold ADisplay.next. rewrite (ADisplay_index_lookup i m Hi). simpl.
  destruct (decide (length members <= S i)%nat) as [Hwrap|Hin].
  - assert (S i = length members) as Heq by lia.
    rewrite Heq, Nat.Div0.mod_same.
    destruct (members !! 0%nat) as [m0|] eqn:H0; [eauto|].
    apply lookup_ge_None in H0. lia.
  - rewrite Nat.mod_small by lia.
    destruct (members !! S i) as [m1|] eqn:H1; [eauto|].
    apply lookup_ge_None in H1. lia.
Qed.

Lemma ADisplay_iterate_lookup k : forall i m,
  members !! i = Some m ->
  exists m', ADisplay.iterate members k m = Returns m'
             /\ members !! ((i + k) mod length members)%nat = Some m'.
Proof.
  induction k as [|k IH]; intros i m Hi;
    pose proof (lookup_lt_Some _ _ _ Hi) as Hlt.
  - exists m. split; [reflexivity|].
    rewrite Nat.add_0_r, Nat.mod_small by lia. exact Hi.
  - destruct (ADisplay_next_lookup i m Hi) as (m1 & Hnext & H1).
    destruct (IH _ _ H1) as (m' & Hiter & Hm').
    exists m'. split.
    + simpl. rewrite Hnext. exact Hiter.
    + rewrite <- Hm'. f_equal.
      rewrite Nat.Div0.add_mod_idemp_l. f_equal. lia.
Qed.

Lemma ADisplay_visited_lookup k : forall i m,
  members !! i = Some m ->
  exists l, ADisplay.visited members k m = Returns l
            /\ length l = k
            /\ forall j, (j < k)%nat ->
                 l !! j = members !! ((i + j) mod length members)%nat.
Proof.
  induction k as [|k IH]; intros i m Hi;
    pose proof (lookup_lt_Some _ _ _ Hi) as Hlt.
  - exists []. repeat split. intros j Hj. lia.
  - destruct (ADisplay_next_lookup i m Hi) as (m1 & Hnext & H1).
    destruct (IH _ _ H1) as (l & Hvis & Hlen & Hl).
    exists (m :: l). split; [|split].
    + simpl. rewrite Hnext. simpl. rewrite Hvis. reflexivity.
    + simpl. lia.
    + intros [|j] Hj.
      * rewrite Nat.add_0_r, Nat.mod_small by lia. simpl. symmetry. exact Hi.
      * simpl. rewrite Hl by lia. f_equal.
        rewrite Nat.Div0.add_mod_idemp_l. f_equal. lia.
Qed.

Lemma rotate_nat_add_mod (i j n : nat) :
  (0 < n)%nat -> rotate_nat_add i j n = ((i + j) mod n)%nat.
Proof.
  intros Hn. unfold rotate_nat_add.
  rewrite Z2Nat.inj_mod, Z2Nat.inj_add, !Nat2Z.id; lia.
Qed.

(** A full round from the member at index [i] shows the list of members
    rotated by [i]. *)
Lemma ADisplay_visited_rotate i m :
  members !! i = Some m ->
  ADisplay.visited members (length members) m = Returns (rotate i members).
Proof.
  intros Hi. pose proof (lookup_lt_Some _ _ _ Hi) as Hlt.
  destruct (ADisplay_visited_lookup (length members) i m Hi)
    as (l & Hvis & Hlen & Hl).
  rewrite Hvis. f_equal. apply list_eq. intros j.
  destruct (decide (j < length members)%nat) as [Hj|Hj].
  - rewrite Hl, lookup_rotate_r, rotate_nat_add_mod by lia. reflexivity.
  - rewrite !(proj2 (lookup_ge_None _ _));
      [reflexivity | rewrite length_rotate; lia | lia].
Qed.

Lemma rotate_Permutation {A} (n : nat) (l : list A) : rotate n l ≡ₚ l.
Proof.
  unfold rotate. rewrite Permutation_app_comm. rewrite take_drop. reflexivity.
Qed.

(** C9.  With [n] distinct variants, from any variant: [next] is the
    variant at index + 1 modulo [n], so the last one is followed by the
    first; [n] presses show every variant once, in the order of the list
    rotated to the start; and after them the display is back at the
    start. *)
Theorem ADisplay_next_cycle i self :
  members !! i = Some self ->
  (exists m, ADisplay.next members self = Returns m
             /\ members !! (S i mod length members)%nat = Some m)
  /\ (S i = length members ->
      exists first, members !! 0%nat = Some first
                    /\ ADisplay.next members self = Returns first)
  /\ (exists l, ADisplay.visited members (length members) self = Returns l
                /\ l = rotate i members
                /\ l ≡ₚ members
                /\ NoDup l
                /\ forall j, (j < length members)%nat ->
                     exists m, l !! j = Some m
                               /\ ADisplay.iterate members j self = Returns m)
  /\ ADisplay.iterate members (length members) self = Returns self.
Proof.
  intros Hi. pose proof (lookup_lt_Some _ _ _ Hi) as Hlt.
  split; [apply ADisplay_next_lookup; exact Hi|]. split; [|split].
  - intros Hlast.
    destruct (ADisplay_next_lookup i self Hi) as (m & Hnext & Hm).
    rewrite Hlast, Nat.Div0.mod_same in Hm. eauto.
  - exists (rotate i members).
    split; [apply ADisplay_visited_rotate; exact Hi|].
    split; [reflexivity|].
    split; [apply rotate_Permutation|].
    split; [rewrite rotate_Permutation; exact members_distinct|].
    intros j Hj.
    destruct (ADisplay_iterate_lookup j i self Hi) as (m & Hiter & Hm).
    exists m. split; [|exact Hiter].
    rewrite lookup_rotate_r, rotate_nat_add_mod by lia. exact Hm.
  - destruct (ADisplay_iterate_lookup (length members) i self Hi)
      as (m & Hiter & Hm).
    rewrite Hiter. f_equal.
    replace ((i + length members) mod length members)%nat with i in Hm.
    + congruence.
    + rewrite <- Nat.Div0.add_mod_idemp_r, Nat.Div0.mod_same, Nat.add_0_r.
      symmetry. apply Nat.mod_small. lia.
Qed.

End DisplayModes.

(** ** get_artwork *)



Arguments py : simpl never.
Arguments startswith : simpl never.
Arguments _airtunes_re_match : simpl never.
Arguments is_library_cover : simpl never.

Lemma is_library_cover_not_airtunes c :
  is_library_cover c = true -> _airtunes_re_match c = None.
Proof.
  unfold is_library_cover. intros H.
  apply andb_prop in H. destruct H as (_ & H).
  apply negb_true_iff, bool_decide_eq_false_1 in H.
  destruct (_airtunes_re_match c); [|reflexivity].
  exfalso. apply H. eauto.
Qed.

Section ArtworkFacts.

Variable cfg : settings.
Variable world : env.

(** A block of [get_artwork] that is skipped leaves everything as it is. *)
Lemma artwork_airplay_skip c l g :
  image_set l = true \/ _airtunes_re_match c = None ->
  artwork_airplay cfg world c l g = (Returns l, g).
Proof.
  intros [H|H]; unfold artwork_airplay; rewrite H; [reflexivity|].
  rewrite bool_decide_eq_false_2 by (intros [? ?]; discriminate).
  rewrite andb_false_r. reflexivity.
Qed.

Lemma artwork_fallback_skip c l g :
  image_set l = true -> artwork_fallback cfg world c l g = (Returns l, g).
Proof. intros H. unfold artwork_fallback. rewrite H. reflexivity. Qed.

Lemma artwork_resize_skip thumb_size l g :
  resize_needed l = false ->
  artwork_resize thumb_size l g = (Returns l, g).
Proof.
  intros H. unfold artwork_resize. rewrite H, andb_false_r. reflexivity.
Qed.

(** The third block, for a cover that is not the AirPlay file: the
    default thumbnail is opened as a new image object. *)
Lemma artwork_fallback_default c l g :
  image_set l = false ->
  _airtunes_re_match c = None ->
  opens world (DEFAULT_THUMB cfg) = true ->
  exists g',
    artwork_fallback cfg world c l g
      = (Returns {| image_set := true; resize_needed := false;
                    cover := Some (length (heap g));
                    prev_image := Some (length (heap g)) |}, g')
    /\ heap g' = heap g ++ [default_image cfg]
    /\ _last_image_path g' = Some (DEFAULT_THUMB cfg)
    /\ _last_image_time g' = _last_image_time g.
Proof.
  intros Hset Hair Hopen. unfold artwork_fallback, image_open_file.
  rewrite Hset, Hair. mrun. rewrite Hopen. mrun.
  eexists. split; [reflexivity|]. mrun. auto.
Qed.

(** [fetch_cover] when the host answers but gives no image: either the
    status is not 200 and nothing is set, or the bytes do not decode and
    the default thumbnail is opened in their place. *)
Lemma fetch_cover_no_image url on_success l g r :
  http_get world url = Reply r ->
  status_code r <> 200 \/ decodes world (content r) = false ->
  opens world (DEFAULT_THUMB cfg) = true ->
  exists l' g',
    fetch_cover cfg world (Some url) on_success l g = (Returns l', g')
    /\ _last_image_path g' = _last_image_path g
    /\ ((l' = l /\ heap g' = heap g)
        \/ (l' = {| image_set := true; resize_needed := false;
                    cover := Some (length (heap g));
                    prev_image := Some (length (heap g)) |}
            /\ heap g' = heap g ++ [default_image cfg])).
Proof.
  intros Hget Hfail Hopen. unfold fetch_cover. mrun. rewrite Hget.
  destruct (Z.eqb_spec (status_code r) 200) as [H200|H200].
  - destruct Hfail as [Hfail|Hdec]; [contradiction|].
    unfold image_open_bytes, image_open_file. mrun.
    rewrite Hdec. mrun. rewrite Hopen. mrun.
    eexists _, _. split; [reflexivity|]. mrun. auto.
  - eexists _, _. split; [reflexivity|]. mrun. auto.
Qed.

(** The first block up to the request for the image, when a fetch is due
    and the cover resolves to a URL: the cover becomes the cached
    locator and [fetch_cover] runs on that URL. *)
Lemma artwork_library_fetches c l g url :
  is_library_cover c = true ->
  _last_image_path g <> Some c \/ prev_image l = None ->
  cover_url cfg world c = Some url ->
  exists g0,
    artwork_library cfg world c l g
      = fetch_cover cfg world (Some url) (ret tt) l g0
    /\ heap g0 = heap g
    /\ _last_image_path g0 = Some c.
Proof.
  intros Hlib Hdue Hurl. unfold artwork_library. rewrite Hlib. mrun.
  assert (Htest : bool_decide (Some c = _last_image_path g)
                  && bool_decide (is_Some (prev_image l)) = false).
  { destruct Hdue as [Hne|Hnone].
    - rewrite bool_decide_eq_false_2 by congruence. reflexivity.
    - rewrite Hnone, (bool_decide_eq_false_2 (is_Some None))
        by (intros [? ?]; discriminate).
      apply andb_false_r. }
  rewrite Htest. unfold cover_url in Hurl.
  destruct (startswith (py "http://") c).
  - inversion Hurl; subst url. mrun.
    eexists. split; [reflexivity|]. split; reflexivity.
  - unfold prepare_download. mrun.
    destruct (rpc_prepare_download world c) as [|[p|]]; try discriminate.
    inversion Hurl; subst url. mrun.
    eexists. split; [reflexivity|]. split; reflexivity.
Qed.

(** [fetch_cover] when the host of the image cannot be reached. *)
Lemma fetch_cover_unreachable url on_success l g :
  http_get world url = Unreachable ->
  fst (fetch_cover cfg world (Some url) on_success l g)
    = Raises ConnectionError.
Proof. intros Hget. unfold fetch_cover. mrun. rewrite Hget. reflexivity. Qed.

End ArtworkFacts.

(** C6 (amended).  For a cover that enters the first block and has to be
    fetched, when the image URL is known: if the host answers, but with a
    status other than 200 or with bytes that do not decode, [get_artwork]
    does not raise and returns the default thumbnail, a newly opened
    image object that no [thumbnail] call has resized; if the host cannot
    be reached, the connection error of [requests.get] leaves
    [get_artwork]. *)
Theorem get_artwork_fetch_failure cfg world info prev thumb_size g c url :
  info !! "MusicPlayer.Cover" = Some c ->
  is_library_cover c = true ->
  _last_image_path g <> Some c \/ prev = None ->
  cover_url cfg world c = Some url ->
  (forall r,
     http_get world url = Reply r ->
     status_code r <> 200 \/ decodes world (content r) = false ->
     opens world (DEFAULT_THUMB cfg) = true ->
     exists g',
       get_artwork cfg world info prev thumb_size g
         = (Returns (Some (length (heap g))), g')
       /\ heap g' = heap g ++ [default_image cfg]
       /\ heap g' !! length (heap g) = Some (default_image cfg))
  /\ (http_get world url = Unreachable ->
      fst (get_artwork cfg world info prev thumb_size g)
        = Raises ConnectionError).
Proof.
  intros Hcover Hlib Hdue Hurl.
  pose proof (is_library_cover_not_airtunes c Hlib) as Hair.
  set (l0 := {| image_set := false; resize_needed := false;
                cover := None; prev_image := prev |}).
  destruct (artwork_library_fetches cfg world c l0 g url Hlib Hdue Hurl)
    as (g0 & Hblock & Hheap0 & _).
  assert (Hstart : get_artwork cfg world info prev thumb_size g
    = (let* l := fetch_cover cfg world (Some url) (ret tt) l0 in
       let* l := artwork_airplay cfg world c l in
       let* l := artwork_fallback cfg world c l in
       let* l := artwork_resize thumb_size l in
       ret (art_return l)) g0).
  { unfold get_artwork, bind at 1, dict_get. rewrite Hcover. unfold ret at 1.
    fold l0. unfold bind at 1. rewrite Hblock. reflexivity. }
  rewrite Hstart. split.
  - intros r Hget Hfail Hopen.
    destruct (fetch_cover_no_image cfg world url (ret tt) l0 g0 r
                Hget Hfail Hopen) as (l1 & g1 & Hfetch & _ & Hcase).
    assert (Hlookup : forall h : list image,
              (h ++ [default_image cfg]) !! length h
                = Some (default_image cfg)).
    { intros h. rewrite lookup_app_r, Nat.sub_diag by lia. reflexivity. }
    unfold bind at 1. rewrite Hfetch. rewrite Hheap0 in Hcase.
    destruct Hcase as [(-> & Hheap) | (-> & Hheap)].
    + unfold bind at 1. rewrite artwork_airplay_skip by (right; exact Hair).
      destruct (artwork_fallback_default cfg world c l0 g1 eq_refl Hair Hopen)
        as (g2 & Hfb & Hheap2 & _).
      unfold bind at 1. rewrite Hfb.
      unfold bind at 1. rewrite artwork_resize_skip by reflexivity.
      rewrite Hheap in *. exists g2. rewrite Hheap2. auto.
    + unfold bind at 1. rewrite artwork_airplay_skip by (left; reflexivity).
      unfold bind at 1. rewrite artwork_fallback_skip by reflexivity.
      unfold bind at 1. rewrite artwork_resize_skip by reflexivity.
      exists g1. rewrite Hheap. auto.
  - intros Hget.
    pose proof (fetch_cover_unreachable cfg world url (ret tt) l0 g0 Hget)
      as Hfetch.
    unfold bind at 1.
    destruct (fetch_cover cfg world (Some url) (ret tt) l0 g0) as [o g1].
    simpl in Hfetch. subst o. reflexivity.
Qed.

Lemma get_artwork_fetch_failure_witness :
  exists g',
    get_artwork sample_settings
      not_found_world
      (sample_info sample_cover) None 140 sample_globals
      = (Returns (Some (length (heap sample_globals))), g')
    /\ heap g' = heap sample_globals ++ [default_image sample_settings]
    /\ heap g' !! length (heap sample_globals)
         = Some (default_image sample_settings).
Proof.
  apply (proj1 (get_artwork_fetch_failure sample_settings
           not_found_world
           (sample_info sample_cover) None 140 sample_globals sample_cover
           (py "http://10.0.0.2:8080/image/cover.jpg")
           ltac:(vm_compute; reflexivity) ltac:(vm_compute; reflexivity)
           (or_intror eq_refl) ltac:(vm_compute; reflexivity))
           (mk_http_response 404 [])).
  - reflexivity.
  - left. vm_compute. discriminate.
  - reflexivity.
Defined.

(** C6, as first stated, fails for two of the failures it lists.  When
    the host of the image cannot be reached, the connection error of
    [requests.get] leaves [get_artwork]; when the reply to
    [Files.PrepareDownload] has no path, [image_url] is read before it
    was ever assigned. *)
Lemma get_artwork_fetch_raises :
  fst (get_artwork sample_settings
         (with_http_get (fun _ => Unreachable) sample_world)
         (sample_info sample_cover) None 140 sample_globals)
    = Raises ConnectionError
  /\ fst (get_artwork sample_settings
            (with_prepare_download (fun _ => Reply None) sample_world)
            (sample_info sample_cover) None 140 sample_globals)
       = Raises UnboundLocalError.
Proof. split; vm_compute; reflexivity. Qed.

(** Bytes that do not decode: the default thumbnail again, and the cover
    stays the cached locator, so the next pass does not ask again. *)
Lemma get_artwork_undecodable :
  exists g',
    get_artwork sample_settings (with_decodes (fun _ => false) sample_world)
      (sample_info sample_cover) None 140 sample_globals
      = (Returns (Some 0%nat), g')
    /\ heap g' = [default_image sample_settings]
    /\ _last_image_path g' = Some sample_cover
    /\ get_artwork sample_settings offline_world
         (sample_info sample_cover) (Some 0%nat) 140 g'
       = (Returns (Some 0%nat), g').
Proof.
  eexists. split; [vm_compute; reflexivity|].
  vm_compute. repeat split; reflexivity.
Qed.

(** A fetch that is answered with 404 does not leave the cover as the
    cached locator: the path of the default thumbnail takes its place, and
    the next pass over the same snapshot asks for the cover again. *)
Lemma failed_fetch_is_repeated :
  exists g1 g2,
    get_artwork sample_settings not_found_world (sample_info sample_cover)
      None 140 sample_globals = (Returns (Some 0%nat), g1)
    /\ _last_image_path g1 = Some (DEFAULT_THUMB sample_settings)
    /\ get_artwork sample_settings not_found_world (sample_info sample_cover)
         (Some 0%nat) 140 g1 = (Returns (Some 1%nat), g2)
    /\ List.filter (fun ev => match ev with HttpGet _ => true | _ => false end)
         (io_log g2)
       = [HttpGet (py "http://10.0.0.2:8080/image/cover.jpg");
          HttpGet (py "http://10.0.0.2:8080/image/cover.jpg")].
Proof.
  eexists _, _. split; [vm_compute; reflexivity|].
  split; [vm_compute; reflexivity|].
  split; vm_compute; reflexivity.
Qed.

(** A [thumbnail] call on the image object allocated last. *)
Lemma thumbnail_newest (h : list image) im thumb_size g :
  heap g = h ++ [im] ->
  thumbnail (Some (length h)) thumb_size g
  = (Returns tt,
     set_heap (h ++ [{| img_source_of := img_source_of im;
                        img_thumbnails := img_thumbnails im ++ [thumb_size] |}])
       (set_io_log (io_log g ++ [Thumbnail (length h) thumb_size]) g)).
Proof.
  intros Hheap. unfold thumbnail. mrun. rewrite Hheap.
  rewrite list_lookup_middle by reflexivity. mrun.
  rewrite insert_app_r_alt, Nat.sub_diag by lia. reflexivity.
Qed.

(** A cover from the library that is fetched and decodes: the image made
    from the bytes received is resized once and returned, and the cover
    is the cached locator afterwards. *)
Lemma get_artwork_fetches cfg world info prev thumb_size g (c url : pystr) r :
  info !! "MusicPlayer.Cover" = Some c ->
  is_library_cover c = true ->
  _last_image_path g <> Some c \/ prev = None ->
  cover_url cfg world c = Some url ->
  http_get world url = Reply r ->
  status_code r = 200 ->
  decodes world (content r) = true ->
  exists g',
    get_artwork cfg world info prev thumb_size g
      = (Returns (Some (length (heap g))), g')
    /\ heap g' = heap g ++ [{| img_source_of := FromContent (content r);
                               img_thumbnails := [thumb_size] |}]
    /\ _last_image_path g' = Some c.
Proof.
  intros Hcover Hlib Hdue Hurl Hget H200 Hdec.
  pose proof (is_library_cover_not_airtunes c Hlib) as Hair.
  set (l0 := {| image_set := false; resize_needed := false;
                cover := None; prev_image := prev |}).
  destruct (artwork_library_fetches cfg world c l0 g url Hlib Hdue Hurl)
    as (g0 & Hblock & Hheap0 & Hpath0).
  unfold get_artwork, bind at 1, dict_get. rewrite Hcover. unfold ret at 1.
  fold l0. unfold bind at 1. rewrite Hblock.
  unfold fetch_cover, image_open_bytes. mrun. rewrite Hget, H200.
  cbn [Z.eqb Pos.eqb]. mrun. rewrite Hdec. mrun.
  rewrite artwork_airplay_skip by (left; reflexivity). mrun.
  rewrite artwork_fallback_skip by reflexivity. mrun.
  unfold artwork_resize. mrun.
  rewrite (thumbnail_newest (heap g0)
             {| img_source_of := FromContent (content r);
                img_thumbnails := [] |}) by reflexivity.
  mrun. rewrite <- Hheap0. eexists. split; [reflexivity|]. mrun. auto.
Qed.




(** ** What a computation leaves alone *)

Section Keeps.

Context {B : Type} (view : globals -> B).

Lemma keeps_ret {A} (a : A) : keeps view (ret a).
Proof. intros g. reflexivity. Qed.

Lemma keeps_raise {A} (e : exn) : keeps view (@raise A e).
Proof. intros g. reflexivity. Qed.

Lemma keeps_hang {A} : keeps view (@hang A).
Proof. intros g. reflexivity. Qed.

Lemma keeps_gets {A} (f : globals -> A) : keeps view (gets f).
Proof. intros g. reflexivity. Qed.

Lemma keeps_lift {A} (o : outcome A) : keeps view (lift o).
Proof. intros g. reflexivity. Qed.

Lemma keeps_modify (f : globals -> globals) :
  (forall g, view (f g) = view g) -> keeps view (modify f).
Proof. intros Hf g. apply Hf. Qed.

Lemma keeps_bind {A C} (m : M A) (k : A -> M C) :
  keeps view m -> (forall a, keeps view (k a)) -> keeps view (bind m k).
Proof.
  intros Hm Hk g. unfold bind. specialize (Hm g).
  destruct (m g) as [[a| |] g']; simpl in *; [|assumption..].
  rewrite Hk. exact Hm.
Qed.

Lemma keeps_try_except {A} (body handler : M A) :
  keeps view body -> keeps view handler ->
  keeps view (try_except body handler).
Proof.
  intros Hb Hh g. unfold try_except. specialize (Hb g).
  destruct (body g) as [[a| |] g']; simpl in *; [assumption| |assumption].
  rewrite Hh. exact Hb.
Qed.

Lemma keeps_for_each {A} (l : list A) (body : A -> M unit) :
  (forall a, keeps view (body a)) -> keeps view (for_each l body).
Proof.
  intros Hbody. induction l as [|a l IH]; simpl.
  - apply keeps_ret.
  - apply keeps_bind; [apply Hbody | intros _; exact IH].
Qed.

(** A request that is answered only adds to the log. *)
Lemma keeps_post_reply {A C} (method : string) (arg : pystr) (a : A)
    (k : A -> M C) :
  (forall ev g, view (set_io_log ev g) = view g) ->
  keeps view (k a) -> keeps view (bind (post method arg (Reply a)) k).
Proof.
  intros Hlog Hk g. unfold post, log, bind, modify, ret. simpl.
  rewrite Hk. apply Hlog.
Qed.

Lemma returns_with_bind_r {A C} v (m : M A) (k : A -> M C) :
  (forall a, returns_with view v (k a)) -> returns_with view v (bind m k).
Proof.
  intros Hk g c g' Hrun. unfold bind in Hrun.
  destruct (m g) as [[a| |] g1]; try discriminate.
  eapply Hk. eassumption.
Qed.

Lemma returns_with_bind_l {A C} v (m : M A) (k : A -> M C) :
  returns_with view v m -> (forall a, keeps view (k a)) ->
  returns_with view v (bind m k).
Proof.
  intros Hm Hk g c g' Hrun. unfold bind in Hrun.
  destruct (m g) as [[a| |] g1] eqn:Hmg; try discriminate.
  specialize (Hk a g1). rewrite Hrun in Hk. simpl in Hk.
  rewrite Hk. eapply Hm. eassumption.
Qed.

Lemma returns_with_post_reply {A C} v (method : string) (arg : pystr)
    (a : A) (k : A -> M C) :
  returns_with view v (k a) ->
  returns_with view v (bind (post method arg (Reply a)) k).
Proof.
  intros Hk g c g' Hrun. unfold post, log, bind, modify, ret in Hrun.
  simpl in Hrun. eapply Hk. eassumption.
Qed.

Lemma keeps_unless_returns_bind {A C} (m : M A) (k : A -> M C) :
  keeps view m -> (forall a, keeps_unless_returns view (k a)) ->
  keeps_unless_returns view (bind m k).
Proof.
  intros Hm Hk g r g' Hrun Hr. unfold bind in Hrun. specialize (Hm g).
  destruct (m g) as [[a| |] g1]; simpl in Hm.
  - rewrite <- Hm. eapply Hk; eassumption.
  - inversion Hrun; subst. exact Hm.
  - inversion Hrun; subst. exact Hm.
Qed.

Lemma keeps_unless_returns_modify (f : globals -> globals) :
  keeps_unless_returns view (modify f).
Proof.
  intros g r g' Hrun Hr. inversion Hrun; subst.
  exfalso. apply (Hr tt). reflexivity.
Qed.

End Keeps.

(** The structural part of a proof of [keeps]: binds, branches and loops
    are taken apart, assignments to other globals are checked by
    computation. *)
Ltac head_of t :=
  lazymatch t with
  | ?f _ => head_of f
  | _ => t
  end.

Ltac keeps_step :=
  lazymatch goal with
  | |- keeps _ (bind _ _) => apply keeps_bind; [|intros ?]
  | |- keeps _ (ret _) => apply keeps_ret
  | |- keeps _ (raise _) => apply keeps_raise
  | |- keeps _ hang => apply keeps_hang
  | |- keeps _ (gets _) => apply keeps_gets
  | |- keeps _ (lift _) => apply keeps_lift
  | |- keeps _ (modify _) => apply keeps_modify; intros ?; reflexivity
  | |- keeps _ (try_except _ _) => apply keeps_try_except
  | |- keeps _ (for_each _ _) => apply keeps_for_each; intros ?
  | |- keeps _ (match ?x with _ => _ end) => destruct x
  | |- keeps _ (let _ := _ in _) => cbv zeta
  | |- keeps _ ?m => let h := head_of m in unfold h
  end.

Ltac keeps_tac := repeat keeps_step.

(** ** update_display and the lock *)

Section PollingFacts.

Variable cfg : settings.

(** Nothing between [lock.acquire()] and [lock.release()] touches the
    lock. *)
Lemma update_idle_keeps_lock world result :
  keeps lock (update_idle cfg world result).
Proof. keeps_tac. Qed.

Lemma update_audio_keeps_lock world : keeps lock (update_audio cfg world).
Proof. keeps_tac. Qed.

(** A call that finds the lock held never gets it. *)
Lemma update_display_locked_hangs world g :
  lock g = true -> update_display cfg world g = (Hangs, g).
Proof.
  intros Hheld. unfold update_display, lock_acquire. mrun.
  rewrite Hheld. reflexivity.
Qed.

(** A call that returns has released the lock. *)
Lemma update_display_returns_unlocked world :
  returns_with lock false (update_display cfg world).
Proof.
  unfold update_display.
  repeat (apply returns_with_bind_r; intros ?).
  intros g1 r g2 Hrun. inversion Hrun. reflexivity.
Qed.

(** A call that gets the lock and does not return has not released it. *)
Lemma update_display_not_returning world g r g' :
  lock g = false ->
  update_display cfg world g = (r, g') ->
  (forall a, r <> Returns a) ->
  lock g' = true.
Proof.
  intros Hfree Hrun Hr. unfold update_display in Hrun.
  unfold bind at 1, lock_acquire in Hrun. revert Hrun. mrun.
  rewrite Hfree. intros Hrun.
  change true with (lock (set_lock true g)).
  revert Hrun Hr. generalize (set_lock true g). intros g1 Hrun Hr.
  revert g1 r g' Hrun Hr.
  change (keeps_unless_returns lock
    (blank_slate cfg;;
     let* active := gets screen_active in
     let* offtime := gets screen_offtime in
     (when active && (now world >=? offtime) then
        (modify (set_screen_active false);; screen_off cfg));;
     let* result := post "Player.GetActivePlayers" (py "")
                      (rpc_active_players world) in
     match result with
     | type :: _ =>
         if bool_decide (type <> py "audio")
         then update_idle cfg world result
         else update_audio cfg world
     | [] => update_idle cfg world result
     end;;
     device_display;;
     lock_release)).
  repeat (apply keeps_unless_returns_bind; [solve [keeps_tac] | intros ?]).
  apply keeps_unless_returns_modify.
Qed.

Lemma waiting_screen_keeps_lock :
  keeps lock (modify (set_kodi_active false);; waiting_screen cfg).
Proof. keeps_tac. Qed.

Lemma connected_keeps_lock :
  keeps lock (screen_off cfg;;
              modify (set_kodi_active true);;
              modify (set_screen_press false)).
Proof. keeps_tac. Qed.

(** What [main] does with a connection error in [update_display]: the
    handler marks the player as away and the outer loop starts over. *)
Lemma main_loop_connection_error world worlds g g1 :
  update_display cfg world g = (Raises ConnectionError, g1) ->
  exists g2,
    main_loop cfg Polling (world :: worlds) g
      = main_loop cfg Connecting worlds g2
    /\ lock g2 = lock g1
    /\ kodi_active g2 = false.
Proof.
  intros Hrun. cbn [main_loop]. rewrite Hrun.
  destruct ((modify (set_kodi_active false);; waiting_screen cfg) g1)
    as [o2 g2] eqn:H2.
  exists g2. split; [reflexivity|]. split.
  - pose proof (waiting_screen_keeps_lock g1) as Hk.
    rewrite H2 in Hk. exact Hk.
  - assert (Hk : keeps kodi_active (waiting_screen cfg)) by keeps_tac.
    unfold bind at 1, modify in H2.
    specialize (Hk (set_kodi_active false g1)). rewrite H2 in Hk. exact Hk.
Qed.

Lemma ping_answered ping g :
  rpc_ping ping = Reply (py "pong") ->
  try_except
    (let* response := post "JSONRPC.Ping" (py "") (rpc_ping ping) in
     ret (bool_decide (response = py "pong")))
    (ret false) g
  = (Returns true,
     set_io_log (io_log g ++ [RpcPost "JSONRPC.Ping" (py "")]) g).
Proof.
  intros Hping. rewrite Hping. mrun.
  rewrite bool_decide_eq_true_2 by reflexivity. reflexivity.
Qed.

(** A ping that is answered moves [main] to the polling loop. *)
Lemma main_loop_pong ping worlds g :
  rpc_ping ping = Reply (py "pong") ->
  exists g2,
    main_loop cfg Connecting (ping :: worlds) g
      = main_loop cfg Polling worlds g2
    /\ lock g2 = lock g.
Proof.
  intros Hping. cbn [main_loop]. rewrite (ping_answered ping g Hping).
  set (g1 := set_io_log _ g).
  destruct ((screen_off cfg;;
             modify (set_kodi_active true);;
             modify (set_screen_press false)) g1) as [o2 g2] eqn:H2.
  exists g2. split; [reflexivity|].
  pose proof (connected_keeps_lock g1) as Hk. rewrite H2 in Hk. exact Hk.
Qed.

(** C1 (the code against the claim).  A call of [update_display] that
    takes the lock and ends with a connection error leaves the lock held.
    [main] handles the error as the claim says: the player is marked as
    away and the ping loop runs again.  But the lock is never released:
    every later call of [update_display] waits for it without end, and so
    does [main] in its first call after the player has answered a ping. *)
Theorem update_display_connection_error_keeps_lock world g g' :
  lock g = false ->
  update_display cfg world g = (Raises ConnectionError, g') ->
  lock g' = true
  /\ (forall world', update_display cfg world' g' = (Hangs, g'))
  /\ (exists g2, main_loop cfg Polling [world] g = (Connecting, g2)
                 /\ kodi_active g2 = false /\ lock g2 = true)
  /\ (forall ping poll worlds,
        rpc_ping ping = Reply (py "pong") ->
        fst (main_loop cfg Polling (world :: ping :: poll :: worlds) g)
          = Stuck).
Proof.
  intros Hfree Hrun.
  assert (Hheld : lock g' = true).
  { apply (update_display_not_returning world g _ g' Hfree Hrun).
    intros a. discriminate. }
  split; [exact Hheld|]. split; [|split].
  - intros world'. apply update_display_locked_hangs. exact Hheld.
  - destruct (main_loop_connection_error world [] g g' Hrun)
      as (g2 & Hloop & Hlock & Hactive).
    exists g2. rewrite Hloop. simpl. rewrite Hlock. auto.
  - intros ping poll worlds Hping.
    destruct (main_loop_connection_error world (ping :: poll :: worlds)
                g g' Hrun) as (g2 & Hloop & Hlock & _).
    destruct (main_loop_pong ping (poll :: worlds) g2 Hping)
      as (g3 & Hloop3 & Hlock3).
    rewrite Hloop, Hloop3. cbn [main_loop].
    rewrite update_display_locked_hangs by congruence. reflexivity.
Qed.

(** ** update_display and the artwork cache *)

Lemma players_branch_idle world (result : list pystr) :
  head result <> Some (py "audio") ->
  match result with
  | type :: _ =>
      if bool_decide (type <> py "audio")
      then update_idle cfg world result
      else update_audio cfg world
  | [] => update_idle cfg world result
  end = update_idle cfg world result.
Proof.
  intros Hna. destruct result as [|type rest]; [reflexivity|].
  rewrite bool_decide_eq_true_2; [reflexivity|].
  intros ->. apply Hna. reflexivity.
Qed.

Lemma update_idle_keeps_image_time world result :
  keeps _last_image_time (update_idle cfg world result).
Proof. keeps_tac. Qed.

Lemma update_idle_resets_cached_artwork world result :
  returns_with cached_artwork (None, None) (update_idle cfg world result).
Proof.
  intros g a g' Hrun. unfold update_idle in Hrun.
  unfold bind at 1 2, modify at 1 2 in Hrun.
  match type of Hrun with
  | ?rest ?g0 = _ =>
      assert (Hk : keeps cached_artwork rest) by keeps_tac;
      specialize (Hk g0); rewrite Hrun in Hk; exact Hk
  end.
Qed.

(** C3 (the code against the claim).  When the poll finds that nothing,
    or something that is not audio, is playing, a call of
    [update_display] that returns has reset the cached locator and the
    cached image, but the cached last-modified token is what it was
    before the call: the assignment [_last_image_time = None] binds a
    local name, the global is not declared in [update_display]. *)
Theorem update_display_idle_keeps_image_time world g result :
  rpc_active_players world = Reply result ->
  head result <> Some (py "audio") ->
  _last_image_time (snd (update_display cfg world g)) = _last_image_time g
  /\ forall g',
       update_display cfg world g = (Returns tt, g') ->
       _last_image_path g' = None /\ _last_thumb g' = None.
Proof.
  intros Hplayers Hna. split.
  - revert g.
    change (keeps _last_image_time (update_display cfg world)).
    unfold update_display. rewrite Hplayers.
    do 5 (apply keeps_bind; [solve [keeps_tac] | intros ?]).
    apply keeps_post_reply; [reflexivity|].
    rewrite (players_branch_idle world result Hna).
    apply keeps_bind; [apply update_idle_keeps_image_time | intros ?].
    keeps_tac.
  - intros g' Hrun.
    assert (Hview : cached_artwork g' = (None, None)).
    { apply (fun H : returns_with cached_artwork (None, None)
                       (update_display cfg world) => H g tt g' Hrun).
      unfold update_display. rewrite Hplayers.
      do 5 (apply returns_with_bind_r; intros ?).
      apply returns_with_post_reply.
      rewrite (players_branch_idle world result Hna).
      apply returns_with_bind_l;
        [apply update_idle_resets_cached_artwork | intros ?].
      keeps_tac. }
    inversion Hview. auto.
Qed.

End PollingFacts.

(** The lock stays held after the player has gone away. *)
Lemma update_display_connection_error_keeps_lock_witness :
  exists g',
    update_display sample_settings offline_world sample_globals
      = (Raises ConnectionError, g')
    /\ lock g' = true
    /\ (forall world',
          update_display sample_settings world' g' = (Hangs, g'))
    /\ (exists g2,
          main_loop sample_settings Polling [offline_world] sample_globals
            = (Connecting, g2)
          /\ kodi_active g2 = false /\ lock g2 = true)
    /\ (forall ping poll worlds,
          rpc_ping ping = Reply (py "pong") ->
          fst (main_loop sample_settings Polling
                 (offline_world :: ping :: poll :: worlds) sample_globals)
            = Stuck).
Proof.
  eexists. split; [vm_compute; reflexivity|].
  apply (update_display_connection_error_keeps_lock sample_settings
           offline_world sample_globals);
    vm_compute; reflexivity.
Defined.

(** The player comes back after one failed poll, and [main] is stuck in
    its next call of [update_display]. *)
Lemma main_stuck_after_reconnect :
  fst (main sample_settings
         [sample_world; sample_world; offline_world; offline_world;
          sample_world; sample_world] sample_globals) = Stuck.
Proof. vm_compute. reflexivity. Qed.

(** The token of the AirPlay cover outlives a poll that finds the player
    idle. *)
Lemma update_display_idle_keeps_image_time_witness :
  fst (update_display sample_settings idle_world airplay_globals)
    = Returns tt
  /\ _last_image_time (snd (update_display sample_settings idle_world
                              airplay_globals))
    = Some airplay_token
  /\ forall g',
       update_display sample_settings idle_world airplay_globals
         = (Returns tt, g') ->
       _last_image_path g' = None /\ _last_thumb g' = None.
Proof.
  split; [vm_compute; reflexivity|].
  apply (update_display_idle_keeps_image_time sample_settings idle_world
           airplay_globals []).
  - reflexivity.
  - discriminate.
Defined.

(** The same omission in the branch for audio: a press of the screen
    while an AirPlay cover is shown changes the display mode and resets
    the cached image, but the token stays; [get_artwork] then finds the
    file unchanged and hands back the image it was given, which is none.
    The frame after the press has no cover. *)
Lemma mode_change_loses_airplay_artwork :
  exists g1 g2,
    update_display sample_settings airplay_world sample_globals
      = (Returns tt, g1)
    /\ _last_thumb g1 = Some 0%nat
    /\ _last_image_time g1 = Some airplay_token
    /\ pastes (frame g1) = [Paste 0%nat (At 5 5)]
    /\ update_display sample_settings airplay_world
         (set_screen_press true g1) = (Returns tt, g2)
    /\ audio_dmode g2 = "A_FULLSCREEN"
    /\ _last_image_time g2 = Some airplay_token
    /\ _last_thumb g2 = None
    /\ pastes (frame g2) = [].
Proof.
  eexists _, _. split; [vm_compute; reflexivity|].
  do 3 (split; [vm_compute; reflexivity|]).
  split; [vm_compute; reflexivity|].
  vm_compute. repeat split; reflexivity.
Qed.

(** A render pass whose cover request is answered with 404 goes through:
    the default thumbnail is pasted at its native size and the frame is
    handed to the display. *)
Lemma render_pass_survives_fetch_failure :
  exists g',
    update_display sample_settings not_found_world sample_globals
      = (Returns tt, g')
    /\ _last_thumb g' = Some 0%nat
    /\ heap g' = [default_image sample_settings]
    /\ pastes (frame g') = [Paste 0%nat (At 5 5)]
    /\ last (io_log g') = Some (DeviceDisplay (frame g'))
    /\ lock g' = false.
Proof.
  eexists. split; [vm_compute; reflexivity|].
  vm_compute. repeat split; reflexivity.
Qed.

(** The touch callback swallows exceptions, but not a wait for the lock. *)
Lemma touch_callback_hangs_on_held_lock cfg world g :
  kodi_active g = true -> lock g = true ->
  fst (touch_callback cfg world g) = Hangs.
Proof.
  intros Hactive Hheld. unfold touch_callback, try_except. mrun.
  rewrite Hactive. mrun.
  rewrite update_display_locked_hangs by exact Hheld. reflexivity.
Qed.

Lemma ADisplay_next_cycle_witness :
  (exists m, ADisplay.next (ALAYOUT_NAMES sample_settings) "A_FULL_PROG"
               = Returns m
             /\ ALAYOUT_NAMES sample_settings
                  !! (3 mod length (ALAYOUT_NAMES sample_settings))%nat
                = Some m)
  /\ (3%nat = length (ALAYOUT_NAMES sample_settings) ->
      exists first,
        ALAYOUT_NAMES sample_settings !! 0%nat = Some first
        /\ ADisplay.next (ALAYOUT_NAMES sample_settings) "A_FULL_PROG"
             = Returns first)
  /\ (exists l,
        ADisplay.visited (ALAYOUT_NAMES sample_settings)
          (length (ALAYOUT_NAMES sample_settings)) "A_FULL_PROG" = Returns l
        /\ l = rotate 2 (ALAYOUT_NAMES sample_settings)
        /\ l ≡ₚ ALAYOUT_NAMES sample_settings
        /\ NoDup l
        /\ forall j, (j < length (ALAYOUT_NAMES sample_settings))%nat ->
             exists m, l !! j = Some m
                       /\ ADisplay.iterate (ALAYOUT_NAMES sample_settings)
                            j "A_FULL_PROG" = Returns m)
  /\ ADisplay.iterate (ALAYOUT_NAMES sample_settings)
       (length (ALAYOUT_NAMES sample_settings)) "A_FULL_PROG"
     = Returns "A_FULL_PROG".
Proof.
  apply (ADisplay_next_cycle (ALAYOUT_NAMES sample_settings)).
  - apply (bool_decide_unpack (NoDup (ALAYOUT_NAMES sample_settings))).
    vm_compute. exact I.
  - reflexivity.
Defined.

(** ** The locators that get_artwork caches *)

Section Preserves.

Variable P : globals -> Prop.

Lemma preserves_unchanged {A} (m : M A) :
  (forall g, snd (m g) = g) -> preserves P m.
Proof. intros Hm g Hg. rewrite Hm. exact Hg. Qed.

Lemma preserves_modify (f : globals -> globals) :
  (forall g, P g -> P (f g)) -> preserves P (modify f).
Proof. intros Hf g Hg. apply Hf, Hg. Qed.

Lemma preserves_bind {A C} (m : M A) (k : A -> M C) :
  preserves P m -> (forall a, preserves P (k a)) -> preserves P (bind m k).
Proof.
  intros Hm Hk g Hg. unfold bind. specialize (Hm g Hg).
  destruct (m g) as [[a| |] g']; simpl in *; [|assumption..].
  apply Hk, Hm.
Qed.

Lemma preserves_for_each {A} (l : list A) (body : A -> M unit) :
  (forall a, preserves P (body a)) -> preserves P (for_each l body).
Proof.
  intros Hbody. induction l as [|a l IH]; simpl.
  - apply preserves_unchanged. reflexivity.
  - apply preserves_bind; [apply Hbody | intros _; exact IH].
Qed.

Lemma preserves_try_except {A} (body handler : M A) :
  preserves P body -> preserves P handler ->
  preserves P (try_except body handler).
Proof.
  intros Hb Hh g Hg. unfold try_except. specialize (Hb g Hg).
  destruct (body g) as [[a| |] g']; simpl in *; [assumption| |assumption].
  apply Hh, Hb.
Qed.

End Preserves.

Ltac preserves_step :=
  lazymatch goal with
  | |- preserves _ (bind _ _) => apply preserves_bind; [|intros ?]
  | |- preserves _ (ret _) => apply preserves_unchanged; reflexivity
  | |- preserves _ (raise _) => apply preserves_unchanged; reflexivity
  | |- preserves _ (gets _) => apply preserves_unchanged; reflexivity
  | |- preserves _ hang => apply preserves_unchanged; reflexivity
  | |- preserves _ (lift _) => apply preserves_unchanged; reflexivity
  | |- preserves _ (for_each _ _) => apply preserves_for_each; intros ?
  | |- preserves _ (modify _) => apply preserves_modify
  | |- preserves _ (try_except _ _) => apply preserves_try_except
  | |- preserves _ (match ?x with _ => _ end) => destruct x eqn:?
  | |- preserves _ (let _ := _ in _) => cbv zeta
  | |- preserves _ ?m => let h := head_of m in unfold h
  end.

Lemma airplay_thumb_is_library_cover c name :
  _airtunes_re_match c = Some name ->
  is_library_cover (py "/storage/.kodi/temp/" ++ name) = true.
Proof.
  unfold _airtunes_re_match. intros H.
  destruct (startswith (py "special://temp/airtunes_album_thumb.png") c).
  - inversion H; subst. vm_compute. reflexivity.
  - destruct (startswith (py "special://temp/airtunes_album_thumb.jpg") c);
      [|discriminate].
    inversion H; subst. vm_compute. reflexivity.
Qed.

(** Every locator that [get_artwork] stores is of that kind, provided the
    two default images of the settings are named by paths of that kind
    (not empty, not [DefaultAlbumCover.png], not under [special://temp]).
    So a cover of a snapshot that equals the cached locator is one that
    enters the first block. *)
(** An assignment to a global keeps [cached_locator_ok] when it is not
    the cached locator that is assigned, or when the locator assigned is
    known to be of the right kind. *)
Ltac cached_locator_assign :=
  let g := fresh "g" in
  let Hg := fresh "Hg" in
  let q := fresh "q" in
  let Hq := fresh "Hq" in
  intros g Hg q Hq; cbn in Hq;
  first [ exact (Hg q Hq)
        | discriminate
        | inversion Hq; subst;
          first [ assumption
                | eapply airplay_thumb_is_library_cover; eassumption ] ].

Lemma get_artwork_caches_library_locators cfg world info prev thumb_size :
  is_library_cover (DEFAULT_THUMB cfg) = true ->
  is_library_cover (DEFAULT_AIRPLAY cfg) = true ->
  preserves cached_locator_ok (get_artwork cfg world info prev thumb_size).
Proof.
  intros Hthumb Hairplay. repeat preserves_step; cached_locator_assign.
Qed.

Lemma update_display_caches_library_locators cfg world :
  is_library_cover (DEFAULT_THUMB cfg) = true ->
  is_library_cover (DEFAULT_AIRPLAY cfg) = true ->
  preserves cached_locator_ok (update_display cfg world).
Proof.
  intros Hthumb Hairplay. repeat preserves_step; cached_locator_assign.
Qed.

Lemma initial_globals_cached_locator_ok cfg start :
  cached_locator_ok (initial_globals cfg start).
Proof. intros p Hp. discriminate. Qed.

(** So every state that [main] reaches has a cached locator of that
    kind, or none. *)
Lemma main_loop_caches_library_locators cfg worlds :
  is_library_cover (DEFAULT_THUMB cfg) = true ->
  is_library_cover (DEFAULT_AIRPLAY cfg) = true ->
  forall status g,
    cached_locator_ok g ->
    cached_locator_ok (snd (main_loop cfg status worlds g)).
Proof.
  intros Hthumb Hairplay.
  assert (Hwait : preserves cached_locator_ok
            (modify (set_kodi_active false);; waiting_screen cfg))
    by (repeat preserves_step; cached_locator_assign).
  assert (Hconn : preserves cached_locator_ok
            (screen_off cfg;;
             modify (set_kodi_active true);;
             modify (set_screen_press false)))
    by (repeat preserves_step; cached_locator_assign).
  induction worlds as [|world worlds IH]; intros status g Hg; [exact Hg|].
  destruct status; cbn [main_loop]; try exact Hg.
  - match goal with
    | |- context [try_except ?body ?handler g] =>
        assert (Hping : preserves cached_locator_ok (try_except body handler))
          by (repeat preserves_step; cached_locator_assign);
        specialize (Hping g Hg);
        destruct (try_except body handler g) as [[[|]| |] g1]
    end; simpl in Hping; try (apply IH; exact Hping).
    specialize (Hconn g1 Hping).
    destruct ((screen_off cfg;;
               modify (set_kodi_active true);;
               modify (set_screen_press false)) g1) as [o2 g2].
    apply IH. exact Hconn.
  - pose proof (update_display_caches_library_locators cfg world
                  Hthumb Hairplay g Hg) as Hupd.
    destruct (update_display cfg world g) as [[a|e|] g1]; simpl in Hupd.
    + apply IH. exact Hupd.
    + destruct e; try exact Hupd.
      specialize (Hwait g1 Hupd).
      destruct ((modify (set_kodi_active false);; waiting_screen cfg) g1)
        as [o2 g2].
      apply IH. exact Hwait.
    + exact Hupd.
Qed.

(** * Further properties of the code *)

(** ** truncate_text: the list of recent truncations and the loop *)

Section TruncateMore.

Variable frame_width : Z.
Variable textsize : font -> pystr -> Z * Z.

(** The loop counts one measurement for each character it drops. *)
Lemma shrink_measured fuel : forall x f s t m s' t' m',
  shrink frame_width textsize fuel x f s t m = Returns (s', t', m') ->
  (m' + length s' = m + length s)%nat.
Proof.
  induction fuel as [|fuel IH]; intros x f s t m s' t' m'; simpl;
    destruct (x + fst (textsize f s) >? avail_width frame_width);
    intros H; try (inversion H; subst; reflexivity);
    destruct s as [|c s0]; try discriminate.
  apply IH in H.
  pose proof (removelast_shorter (c :: s0) ltac:(discriminate)) as Hlt.
  assert (Hlen : S (length (removelast (c :: s0))) = length (c :: s0)).
  { rewrite removelast_firstn_len, length_take. simpl. lia. }
  lia.
Qed.

(** Where not even the empty text passes its test, the loop has no way
    out. *)
Lemma shrink_hangs fuel : forall x f s t m,
  (forall s0, frame_width - 20 < x + fst (textsize f s0)) ->
  shrink frame_width textsize fuel x f s t m = Hangs.
Proof.
  induction fuel as [|fuel IH]; intros x f s t m Hwide; simpl;
    unfold avail_width;
    destruct (Z.gtb_spec (x + fst (textsize f s)) (frame_width - 20))
      as [_|Hle];
    try (specialize (Hwide s); lia);
    destruct s; try reflexivity.
  apply IH. exact Hwide.
Qed.

(** The two ways a call returns: with an entry of the list, or with a new
    entry put in front of it. *)
Lemma truncate_text_Returns cache xy text fill f r :
  truncate_text frame_width textsize cache xy text fill f = Returns r ->
  (exists e,
     trunc_lookup (take 59 text) f cache = Some e
     /\ r = {| disp_text := te_short_str e; tr_truncating := false;
               tr_last_trunc := cache; tr_measured := 0;
               tr_drawn := DrawText xy (te_short_str e) fill f |})
  \/ (exists cand s t m,
        trunc_lookup (take 59 text) f cache = None
        /\ initial_candidate frame_width textsize f (take 59 text)
             = Returns cand
        /\ shrink frame_width textsize (length cand) (fst xy) f cand false 2
             = Returns (s, t, m)
        /\ r = {| disp_text := if t then s ++ [ellipsis] else s;
                  tr_truncating := t;
                  tr_last_trunc :=
                    take 9 ({| te_str := take 59 text;
                               te_short_str := if t then s ++ [ellipsis] else s;
                               te_truncating := t;
                               te_font := f |} :: cache);
                  tr_measured := m;
                  tr_drawn := DrawText xy (if t then s ++ [ellipsis] else s)
                                fill f |}).
Proof.
  intros Hcall.
  destruct (trunc_lookup (take 59 text) f cache) as [e|] eqn:Hlook.
  - left. exists e. split; [reflexivity|].
    unfold truncate_text in Hcall. rewrite py_slice_to_59, Hlook in Hcall.
    inversion Hcall. reflexivity.
  - right.
    destruct (truncate_text_miss_inv _ _ _ _ _ _ _ _ Hlook Hcall)
      as (cand & s & t & m & Hcand & Hloop).
    exists cand, s, t, m. repeat split; try assumption.
    rewrite (truncate_text_miss _ _ _ xy _ fill _ _ _ _ _ Hlook Hcand Hloop)
      in Hcall.
    inversion Hcall. reflexivity.
Qed.

(** X1.  [last_trunc] is a bounded list, newest first.  A call that
    measured something has put its result in front and kept the eight
    entries that followed, dropping any older one; a call that measured
    nothing has left the list as it was.  A list of at most nine entries
    stays one. *)
Theorem truncate_text_cache_bounded cache xy text fill f r :
  truncate_text frame_width textsize cache xy text fill f = Returns r ->
  (tr_measured r = 0%nat -> tr_last_trunc r = cache)
  /\ (tr_measured r <> 0%nat ->
      tr_last_trunc r =
        {| te_str := take 59 text; te_short_str := disp_text r;
           te_truncating := tr_truncating r; te_font := f |}
        :: take 8 cache)
  /\ ((length cache <= 9)%nat -> (length (tr_last_trunc r) <= 9)%nat).
Proof.
  intros Hcall.
  destruct (truncate_text_Returns _ _ _ _ _ _ Hcall)
    as [(e & _ & ->) | (cand & s & t & m & _ & _ & Hloop & ->)]; simpl.
  - repeat split; [congruence | auto].
  - apply shrink_Returns in Hloop.
    assert (Hm : (2 <= m)%nat) by (destruct Hloop as (_ & _ & [(_ & _ & ->)|(_ & _ & ?)]); lia).
    split; [intros Hzero; lia|]. split; [reflexivity|].
    intros Hlen. rewrite length_take. lia.
Qed.

(** X2.  A truncated field placed to the right of [frame_size[0] - 20]
    stops the panel: with no matching entry in [last_trunc], a text that
    is not empty and a font whose widths are not negative, the loop drops
    every character and then goes on for ever on the empty text. *)
Theorem truncate_text_hangs_beyond_width cache xy text fill f :
  trunc_lookup (take 59 text) f cache = None ->
  text <> [] ->
  fst (textsize f (take 59 text)) <> 0 ->
  (forall s, 0 <= fst (textsize f s)) ->
  frame_width - 20 < fst xy ->
  truncate_text frame_width textsize cache xy text fill f = Hangs.
Proof.
  intros Hlook Htext Hwidth Hpos Hright.
  destruct (initial_candidate_defined frame_width textsize f (take 59 text))
    as (cand & Hcand).
  { destruct text; [contradiction | discriminate]. }
  { exact Hwidth. }
  unfold truncate_text. rewrite py_slice_to_59, Hlook, Hcand. simpl obind at 1.
  rewrite shrink_hangs; [reflexivity|].
  intros s0. specialize (Hpos s0). lia.
Qed.

(** X3.  A result is taken from [last_trunc] only for the same font and
    the same first 59 characters: a call that returns without having
    measured anything has drawn the stored string of such an entry. *)
Theorem truncate_text_cached_entry cache xy text fill f r :
  truncate_text frame_width textsize cache xy text fill f = Returns r ->
  tr_measured r = 0%nat ->
  exists e,
    In e cache
    /\ te_font e = f
    /\ te_str e = take 59 text
    /\ disp_text r = te_short_str e
    /\ tr_drawn r = DrawText xy (te_short_str e) fill f.
Proof.
  intros Hcall Hzero.
  destruct (truncate_text_Returns _ _ _ _ _ _ Hcall)
    as [(e & Hlook & ->) | (cand & s & t & m & _ & _ & Hloop & ->)].
  - apply trunc_lookup_Some in Hlook. destruct Hlook as (Hstr & Hfont & Hin).
    exists e. auto.
  - simpl in Hzero. subst m. apply shrink_Returns in Hloop.
    destruct Hloop as (_ & _ & [(_ & _ & Hm)|(_ & _ & Hm)]); [discriminate|lia].
Qed.

(** X4.  The search for the fitting prefix is linear: a call that
    measures does so twice before the loop and once for each character
    that the loop drops from the candidate of the estimate. *)
Theorem truncate_text_measurements cache xy text fill f r :
  truncate_text frame_width textsize cache xy text fill f = Returns r ->
  tr_measured r <> 0%nat ->
  exists cand,
    initial_candidate frame_width textsize f (take 59 text) = Returns cand
    /\ (tr_measured r + length (disp_text r)
        = 2 + length cand + (if tr_truncating r then 1 else 0))%nat.
Proof.
  intros Hcall Hmeasured.
  destruct (truncate_text_Returns _ _ _ _ _ _ Hcall)
    as [(e & _ & ->) | (cand & s & t & m & _ & Hcand & Hloop & ->)].
  - contradiction.
  - exists cand. split; [exact Hcand|]. simpl.
    apply shrink_measured in Hloop.
    destruct t; [rewrite length_app; simpl|]; lia.
Qed.

End TruncateMore.

Lemma truncate_text_cache_bounded_witness :
  exists r,
    truncate_text 320 (fixed_pitch 10 16) [] (150, 40) long_title
      "white" "font_main" = Returns r
    /\ (tr_measured r = 0%nat -> tr_last_trunc r = [])
    /\ (tr_measured r <> 0%nat ->
        tr_last_trunc r =
          {| te_str := take 59 long_title; te_short_str := disp_text r;
             te_truncating := tr_truncating r; te_font := "font_main" |}
          :: take 8 [])
    /\ ((length (@nil trunc_entry) <= 9)%nat ->
        (length (tr_last_trunc r) <= 9)%nat).
Proof.
  eexists. split; [vm_compute; reflexivity|].
  apply (truncate_text_cache_bounded 320 (fixed_pitch 10 16) [] (150, 40)
           long_title "white" "font_main").
  vm_compute. reflexivity.
Defined.

Lemma truncate_text_hangs_beyond_width_witness :
  truncate_text 320 (fixed_pitch 10 16) [] (310, 40) long_title
    "white" "font_main" = Hangs.
Proof.
  apply (truncate_text_hangs_beyond_width 320 (fixed_pitch 10 16) []
           (310, 40) long_title "white" "font_main").
  - reflexivity.
  - discriminate.
  - vm_compute. discriminate.
  - intros s. unfold fixed_pitch. simpl. lia.
  - simpl. lia.
Defined.

Lemma truncate_text_cached_entry_witness :
  exists r,
    truncate_text 320 (fixed_pitch 10 16) title_cache (250, 40) long_title
      "white" "font_main" = Returns r
    /\ exists e,
         In e title_cache
         /\ te_font e = "font_main"
         /\ te_str e = take 59 long_title
         /\ disp_text r = te_short_str e
         /\ tr_drawn r = DrawText (250, 40) (te_short_str e)
                           "white" "font_main".
Proof.
  eexists. split; [vm_compute; reflexivity|].
  apply (truncate_text_cached_entry 320 (fixed_pitch 10 16) title_cache
           (250, 40) long_title "white" "font_main");
    vm_compute; reflexivity.
Defined.

Lemma truncate_text_measurements_witness :
  exists r,
    truncate_text 320 (fixed_pitch 10 16) [] (150, 40) long_title
      "white" "font_main" = Returns r
    /\ exists cand,
         initial_candidate 320 (fixed_pitch 10 16) "font_main"
           (take 59 long_title) = Returns cand
         /\ (tr_measured r + length (disp_text r)
             = 2 + length cand + (if tr_truncating r then 1 else 0))%nat.
Proof.
  eexists. split; [vm_compute; reflexivity|].
  apply (truncate_text_measurements 320 (fixed_pitch 10 16) [] (150, 40)
           long_title "white" "font_main").
  - vm_compute. reflexivity.
  - vm_compute. discriminate.
Defined.

(** ** get_artwork: the other sources of an image *)

Section ArtworkMore.

Variable cfg : settings.
Variable world : env.

Lemma not_library_cover_empty : is_library_cover [] = false.
Proof. reflexivity. Qed.

Lemma not_library_cover_default :
  is_library_cover (py "DefaultAlbumCover.png") = false.
Proof. vm_compute. reflexivity. Qed.

Lemma artwork_library_skip c l g :
  is_library_cover c = false ->
  artwork_library cfg world c l g = (Returns l, g).
Proof. intros H. unfold artwork_library. rewrite H. reflexivity. Qed.

(** X5.  Without a cover (an empty locator, or the player's
    [DefaultAlbumCover.png]) [get_artwork] makes no request to the
    player: it opens the default thumbnail, returns it as a new image
    object that no [thumbnail] call has touched, and records its path as
    the cached locator.  It does so on every call, whatever image is
    passed in; when the file cannot be opened the error of [Image.open]
    leaves [get_artwork]. *)
Theorem get_artwork_no_cover info prev thumb_size g (c : pystr) :
  info !! "MusicPlayer.Cover" = Some c ->
  c = [] \/ c = py "DefaultAlbumCover.png" ->
  (opens world (DEFAULT_THUMB cfg) = true ->
   get_artwork cfg world info prev thumb_size g
   = (Returns (Some (length (heap g))),
      set_heap (heap g ++ [default_image cfg])
        (set_io_log (io_log g ++ [ImageOpen (DEFAULT_THUMB cfg)])
           (set_last_image_path (Some (DEFAULT_THUMB cfg)) g))))
  /\ (opens world (DEFAULT_THUMB cfg) = false ->
      fst (get_artwork cfg world info prev thumb_size g)
      = Raises FileNotFoundError).
Proof.
  intros Hcover Hc.
  assert (Hlib : is_library_cover c = false)
    by (destruct Hc as [->| ->];
        [apply not_library_cover_empty | apply not_library_cover_default]).
  assert (Hair : _airtunes_re_match c = None)
    by (destruct Hc as [->| ->]; vm_compute; reflexivity).
  assert (Hstart : get_artwork cfg world info prev thumb_size g
    = (let* l := artwork_fallback cfg world c
                   {| image_set := false; resize_needed := false;
                      cover := None; prev_image := prev |} in
       let* l := artwork_resize thumb_size l in
       ret (art_return l)) g).
  { unfold get_artwork, bind at 1, dict_get. rewrite Hcover. unfold ret at 1.
    unfold bind at 1. rewrite artwork_library_skip by exact Hlib.
    unfold bind at 1. rewrite artwork_airplay_skip by (right; exact Hair).
    reflexivity. }
  rewrite Hstart. unfold artwork_fallback, image_open_file. rewrite Hair.
  split; intros Hopen; mrun; rewrite Hopen; reflexivity.
Qed.

(** X6.  A cover that is fetched and decodes is resized once to the size
    of the thumbnail of the layout and becomes the cached locator:
    [get_artwork] returns a new image object made from the bytes
    received, with exactly one [thumbnail] call applied to it. *)
Theorem get_artwork_fetch_success info prev thumb_size g (c url : pystr) r :
  info !! "MusicPlayer.Cover" = Some c ->
  is_library_cover c = true ->
  _last_image_path g <> Some c \/ prev = None ->
  cover_url cfg world c = Some url ->
  http_get world url = Reply r ->
  status_code r = 200 ->
  decodes world (content r) = true ->
  exists g',
    get_artwork cfg world info prev thumb_size g
      = (Returns (Some (length (heap g))), g')
    /\ heap g' = heap g ++ [{| img_source_of := FromContent (content r);
                               img_thumbnails := [thumb_size] |}]
    /\ _last_image_path g' = Some c.
Proof.
  intros Hcover Hlib Hdue Hurl Hget H200 Hdec.
  apply (get_artwork_fetches cfg world info prev thumb_size g c url r
           Hcover Hlib Hdue Hurl Hget H200 Hdec).
Qed.

Lemma is_airplay_cover_not_library c name :
  _airtunes_re_match c = Some name -> is_library_cover c = false.
Proof.
  intros H. unfold is_library_cover. rewrite H.
  rewrite (bool_decide_eq_true_2 (is_Some (Some name))) by eauto.
  apply andb_false_r.
Qed.

(** X7.  For an AirPlay cover held by a player on another host,
    [get_artwork] asks for the last-modified token of the file.  When the
    token cannot be read, is empty, or is the cached one, it asks
    nothing more: it returns the image it was given, also when that is no
    image at all, and only the log of requests has grown. *)
Theorem get_artwork_airplay_unchanged info prev thumb_size g (c : pystr)
    name t :
  info !! "MusicPlayer.Cover" = Some c ->
  _airtunes_re_match c = Some name ->
  _local_kodi cfg = false ->
  rpc_file_details world c = Reply t ->
  truthy t = false \/ t = _last_image_time g ->
  get_artwork cfg world info prev thumb_size g
  = (Returns prev,
     set_io_log (io_log g ++ [RpcPost "Files.GetFileDetails" c]) g).
Proof.
  intros Hcover Hair Hremote Hdetails Hsame.
  unfold get_artwork, bind at 1, dict_get. rewrite Hcover. unfold ret at 1.
  unfold bind at 1.
  rewrite artwork_library_skip
    by (eapply is_airplay_cover_not_library; exact Hair).
  unfold artwork_airplay. rewrite Hair, Hremote.
  rewrite (bool_decide_eq_true_2 (is_Some (Some name))) by eauto.
  mrun. rewrite Hdetails. mrun.
  assert (Htest : truthy t && bool_decide (t <> _last_image_time g) = false).
  { destruct Hsame as [Hfalse | ->].
    - rewrite Hfalse. reflexivity.
    - rewrite bool_decide_eq_false_2 by (intros H; apply H; reflexivity).
      apply andb_false_r. }
  rewrite Htest. mrun.
  rewrite artwork_fallback_skip by reflexivity. mrun.
  rewrite artwork_resize_skip by reflexivity. mrun.
  unfold art_return. reflexivity.
Qed.

(** X8.  For an AirPlay cover of a player on the same host no request is
    made to the player.  When the cover file is found under
    [/storage/.kodi/temp/] it is opened and resized; when it is not, the
    default AirPlay image is opened and used at its own size.  Either way
    the path of the file opened becomes the cached locator. *)
Theorem get_artwork_airplay_local info prev thumb_size g (c : pystr) name :
  info !! "MusicPlayer.Cover" = Some c ->
  _airtunes_re_match c = Some name ->
  _local_kodi cfg = true ->
  (isfile world (py "/storage/.kodi/temp/" ++ name) = true ->
   opens world (py "/storage/.kodi/temp/" ++ name) = true ->
   exists g',
     get_artwork cfg world info prev thumb_size g
       = (Returns (Some (length (heap g))), g')
     /\ heap g' = heap g ++ [{| img_source_of :=
                                  FromFile (py "/storage/.kodi/temp/" ++ name);
                                img_thumbnails := [thumb_size] |}]
     /\ _last_image_path g' = Some (py "/storage/.kodi/temp/" ++ name)
     /\ io_log g' = io_log g
          ++ [IsFile (py "/storage/.kodi/temp/" ++ name);
              ImageOpen (py "/storage/.kodi/temp/" ++ name);
              Thumbnail (length (heap g)) thumb_size])
  /\ (isfile world (py "/storage/.kodi/temp/" ++ name) = false ->
      opens world (DEFAULT_AIRPLAY cfg) = true ->
      exists g',
        get_artwork cfg world info prev thumb_size g
          = (Returns (Some (length (heap g))), g')
        /\ heap g' = heap g ++ [{| img_source_of :=
                                     FromFile (DEFAULT_AIRPLAY cfg);
                                   img_thumbnails := [] |}]
        /\ _last_image_path g' = Some (DEFAULT_AIRPLAY cfg)
        /\ io_log g' = io_log g
             ++ [IsFile (py "/storage/.kodi/temp/" ++ name);
                 ImageOpen (DEFAULT_AIRPLAY cfg)]).
Proof.
  intros Hcover Hair Hlocal.
  assert (Hstart : get_artwork cfg world info prev thumb_size g
    = (let* l := artwork_fallback cfg world c
                   {| image_set := false; resize_needed := false;
                      cover := None; prev_image := prev |} in
       let* l := artwork_resize thumb_size l in
       ret (art_return l)) g).
  { unfold get_artwork, bind at 1, dict_get. rewrite Hcover. unfold ret at 1.
    unfold bind at 1.
    rewrite artwork_library_skip
      by (eapply is_airplay_cover_not_library; exact Hair).
    unfold bind at 1, artwork_airplay. rewrite Hlocal.
    cbn [negb]. rewrite andb_false_r. reflexivity. }
  rewrite Hstart. unfold artwork_fallback, image_open_file. rewrite Hair.
  split; intros Hfile Hopen; mrun; rewrite Hfile; mrun; rewrite Hopen; mrun.
  - unfold artwork_resize. mrun.
    rewrite (thumbnail_newest (heap g)
               {| img_source_of := FromFile (py "/storage/.kodi/temp/" ++ name);
                  img_thumbnails := [] |}) by reflexivity.
    mrun. eexists. split; [reflexivity|]. mrun.
    rewrite <- !app_assoc. auto.
  - rewrite artwork_resize_skip by reflexivity. mrun.
    eexists. split; [reflexivity|]. mrun.
    rewrite <- !app_assoc. auto.
Qed.

Ltac crack H :=
  repeat (match type of H with
          | context [match ?x with _ => _ end] =>
              lazymatch x with
              | context [match _ with _ => _ end] => fail
              | _ => destruct x eqn:?
              end
          end;
          try discriminate H;
          cbv beta iota delta [fst snd] in H;
          cbn [image_set resize_needed cover prev_image andb negb] in H).

(** X9.  [get_artwork] returns no image in one situation only: it was
    given none, the cover is the AirPlay file of a player on another
    host, and the last-modified token of that file is missing or is the
    cached one.  The call has then made the [Files.GetFileDetails] request
    and nothing else. *)
Theorem get_artwork_returns_none info prev thumb_size g g' :
  get_artwork cfg world info prev thumb_size g = (Returns None, g') ->
  prev = None
  /\ _local_kodi cfg = false
  /\ exists c t,
       info !! "MusicPlayer.Cover" = Some c
       /\ is_Some (_airtunes_re_match c)
       /\ rpc_file_details world c = Reply t
       /\ (truthy t = false \/ t = _last_image_time g)
       /\ g' = set_io_log (io_log g ++ [RpcPost "Files.GetFileDetails" c]) g.
Proof.
  intros H.
  unfold get_artwork, artwork_library, artwork_airplay, artwork_fallback,
    artwork_resize, fetch_cover, prepare_download, thumbnail,
    image_open_file, image_open_bytes, art_return in H.
  cbv beta iota zeta delta
    [bind ret gets modify raise hang log post alloc lift draw_emit
     try_except dict_get] in H.
  cbn [image_set resize_needed cover prev_image andb negb] in H.
  crack H.
  all: injection H as Hret Hst; try discriminate Hret.
  - exfalso. rewrite Hret, andb_comm in Heqb0. discriminate.
  - exfalso. apply andb_prop in Heqb3 as [Hair _].
    rewrite (is_library_cover_not_airtunes _ Heqb) in Hair. discriminate.
  - exfalso. apply andb_prop in Heqb3 as [Hair _].
    rewrite (is_library_cover_not_airtunes _ Heqb) in Hair. discriminate.
  - apply andb_prop in Heqb0 as [Hair Hremote].
    apply bool_decide_eq_true_1 in Hair.
    apply negb_true_iff in Hremote.
    split; [exact Hret|]. split; [exact Hremote|].
    exists p, a. repeat split; auto.
    apply andb_false_iff in Heqb1 as [Hfalse | Hsame]; [left; exact Hfalse|].
    right. apply bool_decide_eq_false_1 in Hsame.
    destruct (decide (a = _last_image_time g)) as [Heq | Hne]; [exact Heq|].
    exfalso. apply Hsame. exact Hne.
Qed.

End ArtworkMore.

Lemma get_artwork_no_cover_witness :
  get_artwork sample_settings offline_world (sample_info []) (Some 7%nat)
    140 sample_globals
  = (Returns (Some (length (heap sample_globals))),
     set_heap (heap sample_globals ++ [default_image sample_settings])
       (set_io_log (io_log sample_globals
                    ++ [ImageOpen (DEFAULT_THUMB sample_settings)])
          (set_last_image_path (Some (DEFAULT_THUMB sample_settings))
             sample_globals))).
Proof.
  apply (proj1 (get_artwork_no_cover sample_settings offline_world
                  (sample_info []) (Some 7%nat) 140 sample_globals []
                  ltac:(vm_compute; reflexivity) (or_introl eq_refl))).
  reflexivity.
Defined.

Lemma get_artwork_fetch_success_witness :
  exists g',
    get_artwork sample_settings sample_world (sample_info sample_cover) None
      140 sample_globals
      = (Returns (Some (length (heap sample_globals))), g')
    /\ heap g' = heap sample_globals
                 ++ [{| img_source_of := FromContent [255; 216; 255]%N;
                        img_thumbnails := [140] |}]
    /\ _last_image_path g' = Some sample_cover.
Proof.
  apply (get_artwork_fetch_success sample_settings sample_world
           (sample_info sample_cover) None 140 sample_globals sample_cover
           (py "http://10.0.0.2:8080/image/cover.jpg")
           (mk_http_response 200 [255; 216; 255]%N)).
  - vm_compute; reflexivity.
  - vm_compute; reflexivity.
  - right; reflexivity.
  - vm_compute; reflexivity.
  - reflexivity.
  - reflexivity.
  - reflexivity.
Defined.

Lemma get_artwork_airplay_unchanged_witness :
  get_artwork sample_settings airplay_world (sample_info airplay_cover)
    (Some 7%nat) 140 airplay_globals
  = (Returns (Some 7%nat),
     set_io_log (io_log airplay_globals
                 ++ [RpcPost "Files.GetFileDetails" airplay_cover])
       airplay_globals).
Proof.
  apply (get_artwork_airplay_unchanged sample_settings airplay_world
           (sample_info airplay_cover) (Some 7%nat) 140 airplay_globals
           airplay_cover (py "airtunes_album_thumb.jpg")
           (Some airplay_token)).
  - vm_compute; reflexivity.
  - vm_compute; reflexivity.
  - vm_compute; reflexivity.
  - reflexivity.
  - right; reflexivity.
Defined.

Lemma get_artwork_airplay_local_witness :
  exists g',
    get_artwork local_settings airplay_file_world
      (sample_info airplay_cover) None 140 sample_globals
      = (Returns (Some (length (heap sample_globals))), g')
    /\ heap g' = heap sample_globals
         ++ [{| img_source_of :=
                  FromFile (py "/storage/.kodi/temp/"
                            ++ py "airtunes_album_thumb.jpg");
                img_thumbnails := [140] |}]
    /\ _last_image_path g'
       = Some (py "/storage/.kodi/temp/" ++ py "airtunes_album_thumb.jpg")
    /\ io_log g' = io_log sample_globals
         ++ [IsFile (py "/storage/.kodi/temp/"
                     ++ py "airtunes_album_thumb.jpg");
             ImageOpen (py "/storage/.kodi/temp/"
                        ++ py "airtunes_album_thumb.jpg");
             Thumbnail (length (heap sample_globals)) 140].
Proof.
  apply (proj1 (get_artwork_airplay_local local_settings airplay_file_world
                  (sample_info airplay_cover) None 140 sample_globals
                  airplay_cover (py "airtunes_album_thumb.jpg")
                  ltac:(vm_compute; reflexivity)
                  ltac:(vm_compute; reflexivity)
                  ltac:(vm_compute; reflexivity))).
  - reflexivity.
  - reflexivity.
Defined.

Lemma get_artwork_returns_none_witness :
  None = @None img_ref
  /\ _local_kodi sample_settings = false
  /\ exists c t,
       sample_info airplay_cover !! "MusicPlayer.Cover" = Some c
       /\ is_Some (_airtunes_re_match c)
       /\ rpc_file_details airplay_world c = Reply t
       /\ (truthy t = false \/ t = _last_image_time airplay_globals)
       /\ set_io_log (io_log airplay_globals
                      ++ [RpcPost "Files.GetFileDetails" airplay_cover])
            airplay_globals
          = set_io_log (io_log airplay_globals
                        ++ [RpcPost "Files.GetFileDetails" c])
              airplay_globals.
Proof.
  apply (get_artwork_returns_none sample_settings airplay_world
           (sample_info airplay_cover) None 140 airplay_globals).
  vm_compute; reflexivity.
Defined.

(** ** The status screen *)

Lemma py_split_no_sep sep (s : pystr) : sep ∉ s -> py_split sep s = [s].
Proof.
  induction s as [|c s IH]; intros Hno; [reflexivity|].
  apply not_elem_of_cons in Hno as [Hne Hno]. cbn [py_split].
  destruct (N.eqb_spec c sep) as [->|_]; [contradiction|].
  rewrite IH by exact Hno. reflexivity.
Qed.

Lemma py_split_at sep (a b : pystr) :
  sep ∉ a -> py_split sep (a ++ sep :: b) = a :: py_split sep b.
Proof.
  induction a as [|c a IH]; intros Hno.
  - cbn [app py_split]. rewrite N.eqb_refl. reflexivity.
  - apply not_elem_of_cons in Hno as [Hne Hno]. cbn [app py_split].
    destruct (N.eqb_spec c sep) as [->|_]; [contradiction|].
    rewrite IH by exact Hno. reflexivity.
Qed.

Section ScreensMore.

Variable cfg : settings.
Variable world : env.

(** X10.  The field [time_hrmin] of the status screen expects a time in
    two parts.  A [System.Time] without a space (a 24-hour clock) is
    drawn whole, and then [time_parts[1]] raises [IndexError]; a time
    ["hh:mm xm"] is drawn as the part before the space in the font of the
    field and the part after it in the small font, 5 pixels to the right
    of the first. *)
Theorem status_field_time_hrmin kodi_status summary fd (t : pystr) g :
  fd_name fd = "time_hrmin"%string ->
  kodi_status !! "System.Time" = Some t ->
  (32%N ∉ t ->
   status_field cfg kodi_status summary fd g
   = (Raises IndexError,
      set_frame (frame g ++ [DrawText (fd_posx fd, fd_posy fd) t
                               (fd_fill fd) (fd_font fd)]) g))
  /\ (forall (a b : pystr) smfont,
        t = a ++ 32%N :: b -> 32%N ∉ a -> 32%N ∉ b ->
        fd_smfont fd = Some smfont ->
        status_field cfg kodi_status summary fd g
        = (Returns tt,
           set_frame
             (frame g
              ++ [DrawText (fd_posx fd, fd_posy fd) a (fd_fill fd) (fd_font fd);
                  DrawText (fd_posx fd
                            + fst (textsize_of cfg (fd_font fd) a) + 5,
                            fd_posy fd) b (fd_fill fd) smfont]) g)).
Proof.
  intros Hname Htime. unfold status_field. rewrite Hname.
  cbn [String.eqb Ascii.eqb Bool.eqb]. unfold draw_text. mrun. cbv zeta.
  rewrite Htime. split.
  - intros Hno. rewrite (py_split_no_sep _ _ Hno). reflexivity.
  - intros a b smfont Ht Ha Hb Hsm. subst t.
    rewrite (py_split_at _ _ _ Ha), (py_split_no_sep _ _ Hb), Hsm.
    cbn [lookup list_lookup]. mrun. rewrite <- app_assoc. reflexivity.
Qed.

End ScreensMore.

(** ** What a pass of update_display does to the screen state *)

Lemma snd_bind_keeps {A C B} (view : globals -> B) (m : M A)
    (k : A -> M C) g :
  (forall a, keeps view (k a)) ->
  view (snd (bind m k g)) = view (snd (m g)).
Proof.
  intros Hk. unfold bind. destruct (m g) as [[a| |] g1]; try reflexivity.
  apply Hk.
Qed.

Section PollingMore.

Variable cfg : settings.

(** X11.  With a backlight, nothing or no audio playing, no press
    pending and the status screen not shown (or shown for longer than its
    wake time), a pass makes one request, [Player.GetActivePlayers],
    sends a frame that holds the black rectangle only, and switches the
    backlight off: once when the screen was dark already, twice in the
    pass in which the wake time runs out. *)
Theorem update_display_idle_dark world g result :
  USE_BACKLIGHT cfg = true ->
  lock g = false ->
  rpc_active_players world = Reply result ->
  head result <> Some (py "audio") ->
  screen_press g = false ->
  screen_active g = false
  \/ (screen_active g = true /\ screen_offtime g <= now world) ->
  exists g',
    update_display cfg world g = (Returns tt, g')
    /\ screen_active g' = false
    /\ frame g' = [black_slate cfg]
    /\ io_log g'
       = io_log g
         ++ (if screen_active g then [DeviceBacklight false] else [])
         ++ [RpcPost "Player.GetActivePlayers" (py "");
             DeviceBacklight false;
             DeviceDisplay [black_slate cfg]].
Proof.
  intros Hbl Hfree Hplayers Hna Hpress Hdark. unfold black_slate.
  unfold update_display. rewrite Hplayers.
  unfold lock_acquire, blank_slate, device_display, lock_release, screen_off.
  rewrite Hbl. cbn [negb orb DEMO_MODE USE_PWM]. mrun.
  rewrite (players_branch_idle cfg world result Hna).
  unfold update_idle, screen_off, screen_on.
  rewrite Hbl. cbn [negb orb DEMO_MODE USE_PWM]. mrun.
  rewrite Hfree. mrun.
  destruct Hdark as [Hoff | [Hon Hexp]].
  - rewrite Hoff. cbn [andb]. mrun. rewrite Hpress. mrun. rewrite Hoff. mrun.
    eexists. split; [reflexivity|]. mrun.
    rewrite <- !app_assoc. auto.
  - rewrite Hon. cbn [andb].
    assert (Hge : (now world >=? screen_offtime g) = true)
      by (apply Z.geb_le; exact Hexp).
    rewrite Hge. mrun. rewrite Hpress. mrun.
    eexists. split; [reflexivity|]. mrun.
    rewrite <- !app_assoc. auto.
Qed.

(** The three globals that follow a press while nothing is playing. *)
Lemma update_idle_press world result g :
  screen_press g = true ->
  (screen_press (snd (update_idle cfg world result g)),
   screen_active (snd (update_idle cfg world result g)),
   screen_offtime (snd (update_idle cfg world result g)))
  = (false, true, now world + screen_wake).
Proof.
  intros Hpress.
  set (view := fun g => (screen_press g, screen_active g, screen_offtime g)).
  change (view (snd (update_idle cfg world result g))
          = (false, true, now world + screen_wake)).
  assert (Hscreen : forall status summary,
            keeps view (status_screen cfg world status summary))
    by (intros; keeps_tac).
  unfold update_idle, screen_on.
  destruct (negb (USE_BACKLIGHT cfg) || DEMO_MODE); cbn [USE_PWM]; mrun;
    rewrite Hpress; mrun.
  all: destruct (rpc_system_labels world) as [|status]; [reflexivity|].
  all: match goal with
       | |- context [match ?x with Some _ => _ | None => _ end] =>
           destruct x as [summary|]; [|reflexivity]
       end.
  all: rewrite Hscreen; reflexivity.
Qed.

(** X12.  A press while nothing, or no audio, is playing wakes the
    status screen: whatever the outcome of the pass, the press is
    consumed, the screen is marked active and its wake time ends
    [screen_wake] seconds after the time of the pass, also when the
    previous wake time ran out in this very pass. *)
Theorem update_display_idle_press_wakes world g result :
  lock g = false ->
  rpc_active_players world = Reply result ->
  head result <> Some (py "audio") ->
  screen_press g = true ->
  screen_press (snd (update_display cfg world g)) = false
  /\ screen_active (snd (update_display cfg world g)) = true
  /\ screen_offtime (snd (update_display cfg world g))
     = now world + screen_wake.
Proof.
  intros Hfree Hplayers Hna Hpress.
  set (view := fun g => (screen_press g, screen_active g, screen_offtime g)).
  assert (Hview : view (snd (update_display cfg world g))
                  = (false, true, now world + screen_wake)).
  { unfold update_display. rewrite Hplayers.
    unfold lock_acquire, blank_slate, device_display, lock_release, screen_off.
    mrun. rewrite Hfree. mrun.
    rewrite (players_branch_idle cfg world result Hna).
    destruct (screen_active g && (now world >=? screen_offtime g));
      [destruct (negb (USE_BACKLIGHT cfg) || DEMO_MODE)|];
      cbn [USE_PWM]; mrun.
    all: match goal with
         | |- context [update_idle _ _ _ ?g2] =>
             assert (Hidle : view (snd (update_idle cfg world result g2))
                             = (false, true, now world + screen_wake))
               by (apply update_idle_press; exact Hpress);
             destruct (update_idle cfg world result g2) as [[[]| |] g3]
         end; exact Hidle. }
  inversion Hview. auto.
Qed.

Lemma update_audio_mode world g :
  let g' := snd (update_audio cfg world g) in
  (screen_press g = true ->
   forall m', ADisplay.next (ALAYOUT_NAMES cfg) (audio_dmode g) = Returns m' ->
   (audio_dmode g', screen_press g') = (m', false))
  /\ (screen_press g = false ->
      (audio_dmode g', screen_press g') = (audio_dmode g, false)).
Proof.
  set (view := fun g => (audio_dmode g, screen_press g)).
  assert (Hscreens : forall info prog,
            keeps view (audio_screens cfg world info prog))
    by (intros; keeps_tac).
  cbv zeta.
  change (
    (screen_press g = true ->
     forall m', ADisplay.next (ALAYOUT_NAMES cfg) (audio_dmode g) = Returns m' ->
     view (snd (update_audio cfg world g)) = (m', false))
    /\ (screen_press g = false ->
        view (snd (update_audio cfg world g)) = (audio_dmode g, false))).
  unfold update_audio, screen_on.
  split; [intros Hpress m' Hnext | intros Hpress].
  all: destruct (negb (USE_BACKLIGHT cfg) || DEMO_MODE); cbn [USE_PWM]; mrun;
    rewrite Hpress; mrun; try rewrite Hnext; mrun.
  all: destruct (rpc_music_labels world) as [|info];
    [unfold view; mrun; try rewrite Hpress; reflexivity|].
  all: destruct (rpc_percentage world) as [|percentage];
    [unfold view; mrun; try rewrite Hpress; reflexivity|].
  all: rewrite Hscreens; unfold view; mrun; try rewrite Hpress; reflexivity.
Qed.

(** X13.  While audio is playing the layout changes on a press only, and
    by one step: a pass that finds a press pending consumes it and moves
    [audio_dmode] to the next name of [ALAYOUT_NAMES]; a pass without a
    press leaves the layout as it is.  This holds whatever the outcome of
    the pass. *)
Theorem update_display_audio_press world g rest :
  lock g = false ->
  rpc_active_players world = Reply (py "audio" :: rest) ->
  (screen_press g = true ->
   forall m', ADisplay.next (ALAYOUT_NAMES cfg) (audio_dmode g) = Returns m' ->
   audio_dmode (snd (update_display cfg world g)) = m'
   /\ screen_press (snd (update_display cfg world g)) = false)
  /\ (screen_press g = false ->
      audio_dmode (snd (update_display cfg world g)) = audio_dmode g
      /\ screen_press (snd (update_display cfg world g)) = false).
Proof.
  intros Hfree Hplayers.
  set (view := fun g => (audio_dmode g, screen_press g)).
  assert (Hrun : forall v,
            (forall g2, audio_dmode g2 = audio_dmode g ->
                        screen_press g2 = screen_press g ->
                        view (snd (update_audio cfg world g2)) = v) ->
            view (snd (update_display cfg world g)) = v).
  { intros v Haudio. unfold update_display. rewrite Hplayers.
    unfold lock_acquire, blank_slate, device_display, lock_release, screen_off.
    mrun. rewrite Hfree. mrun.
    rewrite bool_decide_eq_false_2 by (intros H; apply H; reflexivity).
    destruct (screen_active g && (now world >=? screen_offtime g));
      [destruct (negb (USE_BACKLIGHT cfg) || DEMO_MODE)|];
      cbn [USE_PWM]; mrun.
    all: match goal with
         | |- context [update_audio _ _ ?g2] =>
             pose proof (Haudio g2 eq_refl eq_refl) as Hmode;
             destruct (update_audio cfg world g2) as [[[]| |] g3]
         end; exact Hmode. }
  split; [intros Hpress m' Hnext | intros Hpress].
  - assert (Hview : view (snd (update_display cfg world g)) = (m', false)).
    { apply Hrun. intros g2 Hmode2 Hpress2.
      apply (proj1 (update_audio_mode world g2)); congruence. }
    inversion Hview. auto.
  - assert (Hview : view (snd (update_display cfg world g))
                    = (audio_dmode g, false)).
    { apply Hrun. intros g2 Hmode2 Hpress2. rewrite <- Hmode2.
      apply (proj2 (update_audio_mode world g2)); congruence. }
    inversion Hview. auto.
Qed.

End PollingMore.

(** ** What a pass adds to the frame and to the requests *)

Section Extended.

Context {B : Type}.
Variable view : globals -> list B.
Variable Q : B -> Prop.

Lemma extended_refl g : extended view Q (view g) g.
Proof. exists []. split; [symmetry; apply app_nil_r | constructor]. Qed.

Lemma extended_same base g g' :
  extended view Q base g -> view g' = view g -> extended view Q base g'.
Proof. intros (l & Hl & HQ) Hsame. exists l. rewrite Hsame. auto. Qed.

Lemma extended_emit base g g' x :
  extended view Q base g -> view g' = view g ++ [x] -> Q x ->
  extended view Q base g'.
Proof.
  intros (l & Hl & HQ) Hemit Hx. exists (l ++ [x]). split.
  - rewrite Hemit, Hl, app_assoc. reflexivity.
  - apply Forall_app. split; [exact HQ | repeat constructor; exact Hx].
Qed.

End Extended.

(** An assignment either leaves the list alone or puts one element at
    its end. *)
Ltac extended_assign :=
  let g := fresh "g" in
  let Hg := fresh "Hg" in
  intros g Hg;
  first
    [ exact Hg
    | apply (extended_same _ _ _ _ _ Hg); reflexivity
    | eapply (extended_emit _ _ _ _ _ _ Hg);
      [reflexivity | first [reflexivity | exact I]] ].

Ltac extended_step :=
  first
    [ match goal with
      | H : context [preserves] |- preserves _ _ => solve [apply H]
      end
    | preserves_step ].

Ltac extended_tac := repeat extended_step; extended_assign.


Section Backlight.

Variable cfg : settings.
Hypothesis no_backlight : USE_BACKLIGHT cfg = false.

Lemma screen_on_quiet (P : globals -> Prop) : preserves P (screen_on cfg).
Proof.
  unfold screen_on. rewrite no_backlight.
  apply preserves_unchanged. reflexivity.
Qed.

Lemma screen_off_quiet (P : globals -> Prop) : preserves P (screen_off cfg).
Proof.
  unfold screen_off. rewrite no_backlight.
  apply preserves_unchanged. reflexivity.
Qed.

Lemma update_display_quiet base world :
  preserves (extended io_log (fun ev => is_backlight ev = false) base)
    (update_display cfg world).
Proof.
  pose proof screen_on_quiet as Hon. pose proof screen_off_quiet as Hoff.
  extended_tac.
Qed.

Lemma touch_callback_quiet base world :
  preserves (extended io_log (fun ev => is_backlight ev = false) base)
    (touch_callback cfg world).
Proof.
  pose proof (update_display_quiet base) as Hupd.
  extended_tac.
Qed.

Lemma main_loop_quiet base worlds : forall status g,
  extended io_log (fun ev => is_backlight ev = false) base g ->
  extended io_log (fun ev => is_backlight ev = false) base
    (snd (main_loop cfg status worlds g)).
Proof.
  pose proof screen_on_quiet as Hon. pose proof screen_off_quiet as Hoff.
  set (P := extended io_log (fun ev => is_backlight ev = false) base).
  assert (Hwait : preserves P
            (modify (set_kodi_active false);; waiting_screen cfg))
    by (subst P; extended_tac).
  assert (Hconn : preserves P
            (screen_off cfg;;
             modify (set_kodi_active true);;
             modify (set_screen_press false)))
    by (subst P; extended_tac).
  induction worlds as [|world worlds IH]; intros status g Hg; [exact Hg|].
  destruct status; cbn [main_loop]; try exact Hg.
  - match goal with
    | |- context [try_except ?body ?handler g] =>
        assert (Hping : preserves P (try_except body handler))
          by (subst P; extended_tac);
        specialize (Hping g Hg);
        destruct (try_except body handler g) as [[[|]| |] g1]
    end; simpl in Hping; try (apply IH; exact Hping).
    specialize (Hconn g1 Hping).
    destruct ((screen_off cfg;;
               modify (set_kodi_active true);;
               modify (set_screen_press false)) g1) as [o2 g2].
    apply IH. exact Hconn.
  - pose proof (update_display_quiet base world g Hg) as Hupd.
    destruct (update_display cfg world g) as [[a|e|] g1]; simpl in Hupd.
    + apply IH. exact Hupd.
    + destruct e; try exact Hupd.
      specialize (Hwait g1 Hupd).
      destruct ((modify (set_kodi_active false);; waiting_screen cfg) g1)
        as [o2 g2].
      apply IH. exact Hwait.
    + exact Hupd.
Qed.

End Backlight.

(** X14.  With [USE_BACKLIGHT] off the script never calls
    [device.backlight]: whatever the player answers and however long it
    runs, the requests that [main], a pass of [update_display] or a touch
    add to those made before contain no backlight call. *)
Theorem no_backlight_without_setting cfg :
  USE_BACKLIGHT cfg = false ->
  (forall worlds g,
     extended io_log (fun ev => is_backlight ev = false) (io_log g)
       (snd (main cfg worlds g)))
  /\ (forall world g,
        extended io_log (fun ev => is_backlight ev = false) (io_log g)
          (snd (update_display cfg world g)))
  /\ (forall world g,
        extended io_log (fun ev => is_backlight ev = false) (io_log g)
          (snd (touch_callback cfg world g))).
Proof.
  intros Hno. split; [|split].
  - intros worlds g. unfold main.
    assert (Hwait : preserves
              (extended io_log (fun ev => is_backlight ev = false) (io_log g))
              (modify (set_kodi_active false);; waiting_screen cfg)).
    { pose proof (screen_on_quiet cfg Hno) as Hon. extended_tac. }
    specialize (Hwait g (extended_refl _ _ g)).
    destruct ((modify (set_kodi_active false);; waiting_screen cfg) g)
      as [o1 g1].
    apply main_loop_quiet; assumption.
  - intros world g. apply update_display_quiet; [exact Hno|].
    apply extended_refl.
  - intros world g. apply touch_callback_quiet; [exact Hno|].
    apply extended_refl.
Qed.

Lemma bind_Returns_inv {A C} (m : M A) (k : A -> M C) g c g' :
  bind m k g = (Returns c, g') ->
  exists a g1, m g = (Returns a, g1) /\ k a g1 = (Returns c, g').
Proof.
  unfold bind. destruct (m g) as [[a| |] g1]; try discriminate.
  intros Hk. exists a, g1. auto.
Qed.

Lemma preserves_run {A} (P : globals -> Prop) (m : M A) g o g' :
  preserves P m -> P g -> m g = (o, g') -> P g'.
Proof. intros Hm Hg Hrun. specialize (Hm g Hg). rewrite Hrun in Hm. exact Hm. Qed.

Lemma truncate_text_draws_text frame_width textsize cache xy text fill f r :
  truncate_text frame_width textsize cache xy text fill f = Returns r ->
  is_rectangle (tr_drawn r) = false.
Proof.
  intros Hcall.
  destruct (truncate_text_Returns _ _ _ _ _ _ _ _ Hcall)
    as [(e & _ & ->) | (cand & s & t & m & _ & _ & _ & ->)]; reflexivity.
Qed.

Section FrameFacts.

Variable cfg : settings.

Lemma draw_truncated_no_rectangle base xy text fill f :
  preserves (extended frame (fun op => is_rectangle op = false) base)
    (draw_truncated cfg xy text fill f).
Proof.
  intros g Hg. unfold draw_truncated. mrun.
  destruct (truncate_text (DISPLAY_WIDTH cfg) (textsize_of cfg)
              (last_trunc g) xy text fill f) as [r| |] eqn:Hcall;
    [|exact Hg..].
  mrun. eapply (extended_emit _ _ _ _ _ _ Hg); [reflexivity|].
  eapply truncate_text_draws_text. exact Hcall.
Qed.

(** Without a progress value the audio screen is made of texts and the
    cover. *)
Lemma audio_screens_no_progress base world info :
  preserves (extended frame (fun op => is_rectangle op = false) base)
    (audio_screens cfg world info (-1)).
Proof.
  pose proof (draw_truncated_no_rectangle base) as Htrunc.
  unfold audio_screens.
  change (negb (Qeq_bool (-1) (-1))) with false.
  extended_tac.
Qed.

(** X15.  When [Player.GetProperties] gives no percentage, the frame of
    a pass over playing audio has no progress bar: after the black
    rectangle that clears the frame, nothing drawn is a rectangle.  This
    holds from the moment the pass has the lock, whatever its outcome. *)
Theorem update_display_no_percentage world g rest :
  lock g = false ->
  rpc_active_players world = Reply (py "audio" :: rest) ->
  rpc_percentage world = Reply None ->
  extended frame (fun op => is_rectangle op = false) [black_slate cfg]
    (snd (update_display cfg world g)).
Proof.
  intros Hfree Hplayers Hpct.
  assert (Haudio : preserves
            (extended frame (fun op => is_rectangle op = false)
               [black_slate cfg])
            (update_audio cfg world)).
  { pose proof (audio_screens_no_progress [black_slate cfg] world) as Hscr.
    unfold update_audio. rewrite Hpct.
    do 4 (apply preserves_bind; [solve [extended_tac] | intros ?]).
    intros g0 Hg0. unfold post. mrun. apply Hscr.
    apply (extended_same _ _ _ _ _ Hg0). reflexivity. }
  unfold update_display. rewrite Hplayers.
  unfold lock_acquire, blank_slate, device_display, lock_release, screen_off.
  mrun. rewrite Hfree. mrun.
  rewrite bool_decide_eq_false_2 by (intros H; apply H; reflexivity).
  destruct (screen_active g && (now world >=? screen_offtime g));
    [destruct (negb (USE_BACKLIGHT cfg) || DEMO_MODE)|];
    cbn [USE_PWM]; mrun.
  all: match goal with
       | |- context [update_audio _ _ ?g2] =>
           pose proof (Haudio g2 (extended_refl _ _ g2)) as Hframe;
           destruct (update_audio cfg world g2) as [[[]| |] g3]
       end; exact Hframe.
Qed.

(** X16.  A pass that returns has shown what it drew: it found the lock
    free and has released it, the frame starts with the black rectangle
    that clears it, the requests made before the pass are still there,
    and the last thing the pass did to the outside is [device.display]
    of the frame as it stands at the end. *)
Theorem update_display_shows_frame world g g' :
  update_display cfg world g = (Returns tt, g') ->
  lock g = false
  /\ lock g' = false
  /\ (exists ops, frame g' = black_slate cfg :: ops)
  /\ (exists evs, io_log g' = io_log g ++ evs ++ [DeviceDisplay (frame g')]).
Proof.
  intros Hrun.
  set (I0 := fun g0 : globals =>
               extended frame (fun _ => True) [black_slate cfg] g0
               /\ extended io_log (fun _ => True) (io_log g) g0).
  assert (Hstep : forall A (m : M A) g1 o g2,
            preserves (extended frame (fun _ => True) [black_slate cfg]) m ->
            preserves (extended io_log (fun _ => True) (io_log g)) m ->
            I0 g1 -> m g1 = (o, g2) -> I0 g2).
  { intros A m g1 o g2 Hf Hl [Hf1 Hl1] Hm.
    split; eapply preserves_run; eassumption. }
  unfold update_display in Hrun.
  apply bind_Returns_inv in Hrun as (? & g1 & Hlock & Hrun).
  apply bind_Returns_inv in Hrun as (? & g2 & Hslate & Hrun).
  apply bind_Returns_inv in Hrun as (active & g3 & Hactive & Hrun).
  apply bind_Returns_inv in Hrun as (offtime & g4 & Hofftime & Hrun).
  apply bind_Returns_inv in Hrun as (? & g5 & Hexpiry & Hrun).
  apply bind_Returns_inv in Hrun as (result & g6 & Hplayers & Hrun).
  apply bind_Returns_inv in Hrun as (? & g7 & Hbranch & Hrun).
  apply bind_Returns_inv in Hrun as (? & g8 & Hdisplay & Hrun).
  assert (Hfree : lock g = false).
  { unfold lock_acquire in Hlock. revert Hlock. mrun.
    destruct (lock g); [discriminate | reflexivity]. }
  unfold lock_acquire in Hlock. revert Hlock. mrun. rewrite Hfree.
  intros Hlock. inversion Hlock; subst g1.
  inversion Hslate; subst g2. inversion Hactive; subst g3.
  inversion Hofftime; subst g4.
  assert (H4 : I0 (set_frame [black_slate cfg] (set_lock true g))).
  { split; [exists [] | exists []]; split; try constructor;
      rewrite app_nil_r; reflexivity. }
  assert (H5 : I0 g5).
  { eapply Hstep; [| |exact H4|exact Hexpiry]; extended_tac. }
  assert (H6 : I0 g6).
  { eapply Hstep; [| |exact H5|exact Hplayers]; extended_tac. }
  assert (H7 : I0 g7).
  { eapply Hstep; [| |exact H6|exact Hbranch]; extended_tac. }
  inversion Hdisplay; subst g8. inversion Hrun; subst g'.
  destruct H7 as [(ops & Hops & _) (evs & Hevs & _)].
  split; [reflexivity|]. split; [reflexivity|]. split.
  - exists ops. exact Hops.
  - exists evs. mrun. rewrite Hevs, <- app_assoc. reflexivity.
Qed.

End FrameFacts.

(** ** main and touch_callback *)

Section MainMore.

Variable cfg : settings.

Lemma ping_unanswered world g :
  rpc_ping world <> Reply (py "pong") ->
  try_except
    (let* response := post "JSONRPC.Ping" (py "") (rpc_ping world) in
     ret (bool_decide (response = py "pong")))
    (ret false) g
  = (Returns false,
     set_io_log (io_log g ++ [RpcPost "JSONRPC.Ping" (py "")]) g).
Proof.
  intros Hping. destruct (rpc_ping world) as [|response]; mrun;
    [reflexivity|].
  rewrite bool_decide_eq_false_2; [reflexivity|].
  intros ->. apply Hping. reflexivity.
Qed.

(** X17.  While the player does not answer a ping with ["pong"], be it
    unreachable or answering something else, [main] stays in its ping
    loop: each round makes one [JSONRPC.Ping] request and changes nothing
    else, no exception leaves the loop and nothing is drawn or shown. *)
Theorem main_loop_waits worlds : forall g,
  Forall (fun world => rpc_ping world <> Reply (py "pong")) worlds ->
  main_loop cfg Connecting worlds g
  = (Connecting,
     set_io_log (io_log g ++ repeat (RpcPost "JSONRPC.Ping" (py ""))
                               (length worlds)) g).
Proof.
  induction worlds as [|world worlds IH]; intros g Hpings.
  - cbn [main_loop length repeat]. rewrite app_nil_r. destruct g; reflexivity.
  - apply Forall_cons in Hpings as [Hping Hpings].
    cbn [main_loop]. rewrite (ping_unanswered world g Hping).
    rewrite (IH _ Hpings). cbn [length repeat]. mrun.
    rewrite <- app_assoc. reflexivity.
Qed.

(** X18.  [touch_callback] lets no exception out.  While the player is
    marked as away it only clears [screen_press].  When the player is
    marked as present but does not answer, the error of the pass is
    swallowed: the callback returns with the press still pending and the
    lock still held. *)
Theorem touch_callback_swallows_errors world g :
  (forall e, fst (touch_callback cfg world g) <> Raises e)
  /\ (kodi_active g = false ->
      touch_callback cfg world g = (Returns tt, set_screen_press false g))
  /\ (kodi_active g = true -> lock g = false ->
      rpc_active_players world = Unreachable ->
      exists g',
        touch_callback cfg world g = (Returns tt, g')
        /\ lock g' = true /\ screen_press g' = true).
Proof.
  split; [|split].
  - intros e. unfold touch_callback. mrun.
    destruct (kodi_active g); [|discriminate].
    match goal with
    | |- context [update_display _ _ ?g1] =>
        destruct (update_display cfg world g1) as [[[]| |] g2]
    end; discriminate.
  - intros Haway. unfold touch_callback. mrun. rewrite Haway. reflexivity.
  - intros Hthere Hfree Hplayers. unfold touch_callback, update_display.
    rewrite Hplayers.
    unfold lock_acquire, blank_slate, device_display, lock_release, screen_off.
    mrun. rewrite Hthere. mrun. rewrite Hfree. mrun.
    destruct (screen_active g && (now world >=? screen_offtime g));
      [destruct (negb (USE_BACKLIGHT cfg) || DEMO_MODE)|];
      cbn [USE_PWM]; mrun; eexists; (split; [reflexivity|]); mrun; auto.
Qed.

End MainMore.

(** ** The further properties on the sample panel *)

Lemma status_field_time_hrmin_witness :
  status_field sample_settings clock24_status (py "Idle") time_field
    sample_globals
  = (Raises IndexError,
     set_frame (frame sample_globals
                ++ [DrawText (145, 80) (py "22:30") "white" "font7S"])
       sample_globals).
Proof.
  apply (proj1 (status_field_time_hrmin sample_settings clock24_status
                  (py "Idle") time_field (py "22:30") sample_globals
                  eq_refl ltac:(vm_compute; reflexivity))).
  apply (bool_decide_unpack _). vm_compute. exact I.
Defined.

(** With the sample layout, the first status screen of a player with a
    24-hour clock ends [main]. *)
Lemma main_crashes_on_24_hour_clock :
  fst (main_loop sample_settings Polling [clock24_world; clock24_world]
         pressed_globals)
  = Crashed IndexError.
Proof. vm_compute. reflexivity. Qed.

Lemma update_display_idle_dark_witness :
  exists g',
    update_display sample_settings idle_world sample_globals
      = (Returns tt, g')
    /\ screen_active g' = false
    /\ frame g' = [black_slate sample_settings]
    /\ io_log g'
       = io_log sample_globals
         ++ []
         ++ [RpcPost "Player.GetActivePlayers" (py "");
             DeviceBacklight false;
             DeviceDisplay [black_slate sample_settings]].
Proof.
  apply (update_display_idle_dark sample_settings idle_world sample_globals
           [] eq_refl eq_refl eq_refl ltac:(discriminate) eq_refl
           (or_introl eq_refl)).
Defined.

Lemma update_display_idle_press_wakes_witness :
  screen_press (snd (update_display sample_settings idle_world
                       pressed_globals)) = false
  /\ screen_active (snd (update_display sample_settings idle_world
                           pressed_globals)) = true
  /\ screen_offtime (snd (update_display sample_settings idle_world
                            pressed_globals)) = 1000 + 25.
Proof.
  apply (update_display_idle_press_wakes sample_settings idle_world
           pressed_globals [] eq_refl eq_refl ltac:(discriminate) eq_refl).
Defined.

Lemma update_display_audio_press_witness :
  audio_dmode (snd (update_display sample_settings sample_world
                      pressed_globals)) = "A_FULLSCREEN"%string
  /\ screen_press (snd (update_display sample_settings sample_world
                          pressed_globals)) = false.
Proof.
  apply (proj1 (update_display_audio_press sample_settings sample_world
                  pressed_globals [] eq_refl eq_refl)
           eq_refl "A_FULLSCREEN"%string).
  vm_compute. reflexivity.
Defined.

Lemma no_backlight_without_setting_witness :
  (forall worlds g,
     extended io_log (fun ev => is_backlight ev = false) (io_log g)
       (snd (main oled_settings worlds g)))
  /\ (forall world g,
        extended io_log (fun ev => is_backlight ev = false) (io_log g)
          (snd (update_display oled_settings world g)))
  /\ (forall world g,
        extended io_log (fun ev => is_backlight ev = false) (io_log g)
          (snd (touch_callback oled_settings world g))).
Proof. apply (no_backlight_without_setting oled_settings). reflexivity. Defined.

Lemma update_display_no_percentage_witness :
  extended frame (fun op => is_rectangle op = false)
    [black_slate sample_settings]
    (snd (update_display sample_settings no_percentage_world sample_globals)).
Proof.
  apply (update_display_no_percentage sample_settings no_percentage_world
           sample_globals []); reflexivity.
Defined.

Lemma update_display_shows_frame_witness :
  lock sample_globals = false
  /\ lock (snd (update_display sample_settings sample_world sample_globals))
     = false
  /\ (exists ops,
        frame (snd (update_display sample_settings sample_world
                      sample_globals))
        = black_slate sample_settings :: ops)
  /\ (exists evs,
        io_log (snd (update_display sample_settings sample_world
                       sample_globals))
        = io_log sample_globals ++ evs
          ++ [DeviceDisplay
                (frame (snd (update_display sample_settings sample_world
                               sample_globals)))]).
Proof.
  apply (update_display_shows_frame sample_settings sample_world
           sample_globals).
  vm_compute. reflexivity.
Defined.

Lemma main_loop_waits_witness :
  main_loop sample_settings Connecting [offline_world; offline_world]
    sample_globals
  = (Connecting,
     set_io_log (io_log sample_globals
                 ++ [RpcPost "JSONRPC.Ping" (py "");
                     RpcPost "JSONRPC.Ping" (py "")]) sample_globals).
Proof.
  apply (main_loop_waits sample_settings [offline_world; offline_world]
           sample_globals).
  repeat constructor; discriminate.
Defined.

Lemma touch_callback_swallows_errors_witness :
  exists g',
    touch_callback sample_settings offline_world
      (set_kodi_active true sample_globals) = (Returns tt, g')
    /\ lock g' = true /\ screen_press g' = true.
Proof.
  apply (proj2 (proj2 (touch_callback_swallows_errors sample_settings
                         offline_world
                         (set_kodi_active true sample_globals))));
    reflexivity.
Defined.

(** ** fixup_layouts and fixup_array *)

(** Induction over a settings value, with the items of a list and the
    values of a dictionary as smaller values. *)
Lemma value_nested_ind (P : value -> Prop) :
  (forall z, P (VInt z)) ->
  (forall s, P (VStr s)) ->
  (forall f, P (VFont f)) ->
  (forall items, Forall P items -> P (VList items)) ->
  (forall entries, Forall (fun kv => P (snd kv)) entries -> P (VDict entries)) ->
  forall v, P v.
Proof.
  intros HInt HStr HFont HList HDict. fix IH 1. intros [z|s|f|items|entries].
  - apply HInt.
  - apply HStr.
  - apply HFont.
  - apply HList. induction items as [|item items IHitems]; constructor.
    + apply IH.
    + exact IHitems.
  - apply HDict. induction entries as [|[key v] entries IHentries]; constructor.
    + apply IH.
    + exact IHentries.
Qed.

Lemma font_key_not_color key :
  is_font_key key = true -> is_color_key key = false.
Proof.
  unfold is_font_key. intros H.
  apply orb_prop in H as [H|H]; [apply orb_prop in H as [H|H]|];
    apply bool_decide_eq_true_1 in H; subst; vm_compute; reflexivity.
Qed.

Section FixupFacts.

Variable colors : gmap pystr value.
Variable fonts : gmap pystr font.

(** The two loops written inside [fixup_layouts] are [fixup_entries] and
    [fixup_array]. *)
Lemma fixup_layouts_dict es :
  fixup_layouts colors fonts (VDict es)
  = obind (fixup_entries colors fonts es) (fun newdict =>
    Returns (VDict newdict)).
Proof. reflexivity. Qed.

Lemma fixup_entries_lookup es : forall es',
  fixup_entries colors fonts es = Returns es' ->
  map fst es' = map fst es
  /\ forall i key v,
       es !! i = Some (key, v) ->
       exists v', es' !! i = Some (key, v')
                  /\ fixup_entry colors fonts key v = Returns v'.
Proof.
  induction es as [|[key0 v0] es IH]; intros es' Hrun.
  - inversion Hrun. split; [reflexivity|]. intros i key v Hi. discriminate.
  - cbn [fixup_entries] in Hrun.
    destruct (fixup_entry colors fonts key0 v0) as [v0'| |] eqn:Hentry;
      try discriminate.
    cbn [obind] in Hrun.
    destruct (fixup_entries colors fonts es) as [rest| |]; try discriminate.
    inversion Hrun; subst es'. destruct (IH rest eq_refl) as [Hkeys Hlook].
    split; [cbn [map fst]; rewrite Hkeys; reflexivity|].
    intros [|i] key v Hi.
    + inversion Hi; subst. exists v0'. auto.
    + apply Hlook. exact Hi.
Qed.

Lemma fixup_entries_raises es i key v e :
  es !! i = Some (key, v) ->
  fixup_entry colors fonts key v = Raises e ->
  (forall es', fixup_entries colors fonts es <> Returns es').
Proof.
  intros Hi Hentry es' Hrun.
  destruct (proj2 (fixup_entries_lookup es es' Hrun) i key v Hi)
    as (v' & _ & Hv').
  congruence.
Qed.

(** Neither function has a loop that could go on: both end with a value
    or with an exception. *)
Lemma fixup_total v :
  fixup_layouts colors fonts v <> Hangs
  /\ forall items, v = VList items -> fixup_array colors fonts items <> Hangs.
Proof.
  induction v as [z|s|f|items IH|entries IH] using value_nested_ind;
    (split; [|intros items' Heq; try discriminate]); try discriminate.
  - inversion Heq; subst items'. clear Heq.
    induction items as [|item items IHitems]; [discriminate|].
    apply Forall_cons in IH as [[Hitem _] IH]. cbn [fixup_array].
    destruct item; cbn [obind];
      try (destruct (fixup_array colors fonts items);
           [discriminate | discriminate | exfalso; apply (IHitems IH); reflexivity]).
    destruct (fixup_layouts colors fonts (VDict entries)) as [d| |];
      [|discriminate|exfalso; apply Hitem; reflexivity].
    cbn [obind]. destruct (fixup_array colors fonts items);
      [discriminate | discriminate | exfalso; apply (IHitems IH); reflexivity].
  - rewrite fixup_layouts_dict.
    assert (Hentries : fixup_entries colors fonts entries <> Hangs).
    { induction entries as [|[key v] entries IHentries]; [discriminate|].
      apply Forall_cons in IH as [[Hv Harr] IH]. cbn [fixup_entries].
      assert (Hentry : fixup_entry colors fonts key v <> Hangs).
      { destruct v; cbn [fixup_entry]; try exact Hv.
        - unfold fixup_scalar, value_startswith.
          destruct (is_color_key key), (is_font_key key); discriminate.
        - unfold fixup_scalar, value_startswith.
          destruct (is_color_key key); cbn [obind];
            [destruct (startswith (py "color_") s)|];
            try destruct (colors !! s); try destruct (is_font_key key);
            try destruct (fonts !! s); discriminate.
        - unfold fixup_scalar, value_startswith.
          destruct (is_color_key key), (is_font_key key); discriminate.
        - specialize (Harr items eq_refl).
          destruct (fixup_array colors fonts items);
            [discriminate | discriminate | contradiction]. }
      destruct (fixup_entry colors fonts key v);
        [|discriminate|contradiction].
      cbn [obind]. destruct (fixup_entries colors fonts entries);
        [discriminate | discriminate | exfalso; apply (IHentries IH); reflexivity]. }
    destruct (fixup_entries colors fonts entries);
      [discriminate | discriminate | contradiction].
Qed.

End FixupFacts.

Section FixupProperties.

Variable colors : gmap pystr value.
Variable fonts : gmap pystr font.

(** X19.  [fixup_layouts] returns a dictionary with the keys of the one
    it was given, in the same order.  Under a font key a font name has
    become the font loaded under that name; under a colour key a name
    that starts with [color_] has become its entry of [COLORS]; every
    other string or number is what it was: a literal colour such as
    [white] under [fill], a position, a field name. *)
Theorem fixup_layouts_entries es v' :
  fixup_layouts colors fonts (VDict es) = Returns v' ->
  exists es',
    v' = VDict es'
    /\ map fst es' = map fst es
    /\ forall i key,
         (forall name,
            es !! i = Some (key, VStr name) -> is_font_key key = true ->
            exists f, fonts !! name = Some f
                      /\ es' !! i = Some (key, VFont f))
         /\ (forall name,
               es !! i = Some (key, VStr name) -> is_color_key key = true ->
               startswith (py "color_") name = true ->
               exists c, colors !! name = Some c /\ es' !! i = Some (key, c))
         /\ (forall name,
               es !! i = Some (key, VStr name) -> is_font_key key = false ->
               is_color_key key = false
               \/ startswith (py "color_") name = false ->
               es' !! i = Some (key, VStr name))
         /\ (forall z,
               es !! i = Some (key, VInt z) -> is_font_key key = false ->
               is_color_key key = false ->
               es' !! i = Some (key, VInt z)).
Proof.
  intros Hrun. rewrite fixup_layouts_dict in Hrun.
  destruct (fixup_entries colors fonts es) as [es'| |] eqn:Hentries;
    try discriminate.
  inversion Hrun; subst v'. exists es'. split; [reflexivity|].
  destruct (fixup_entries_lookup colors fonts es es' Hentries)
    as [Hkeys Hlook].
  split; [exact Hkeys|]. intros i key. repeat split.
  - intros name Hi Hfont.
    destruct (Hlook i key _ Hi) as (v' & Hi' & Hv').
    cbn [fixup_entry] in Hv'. unfold fixup_scalar in Hv'.
    rewrite (font_key_not_color key Hfont), Hfont in Hv'. cbn [obind] in Hv'.
    destruct (fonts !! name) as [f|]; [|discriminate].
    inversion Hv'; subst v'. exists f. auto.
  - intros name Hi Hcolor Hname.
    destruct (Hlook i key _ Hi) as (v' & Hi' & Hv').
    cbn [fixup_entry] in Hv'. unfold fixup_scalar, value_startswith in Hv'.
    rewrite Hcolor, Hname in Hv'. cbn [obind] in Hv'.
    destruct (colors !! name) as [c|]; [|discriminate].
    inversion Hv'; subst v'. exists c. auto.
  - intros name Hi Hfont Hplain.
    destruct (Hlook i key _ Hi) as (v' & Hi' & Hv').
    cbn [fixup_entry] in Hv'. unfold fixup_scalar, value_startswith in Hv'.
    rewrite Hfont in Hv'.
    destruct Hplain as [Hcolor | Hname].
    + rewrite Hcolor in Hv'. cbn [obind] in Hv'. congruence.
    + destruct (is_color_key key); [rewrite Hname in Hv'|];
        cbn [obind] in Hv'; congruence.
  - intros z Hi Hfont Hcolor.
    destruct (Hlook i key _ Hi) as (v' & Hi' & Hv').
    cbn [fixup_entry] in Hv'. unfold fixup_scalar in Hv'.
    rewrite Hfont, Hcolor in Hv'. cbn [obind] in Hv'. congruence.
Qed.

(** X20.  A layout is refused at startup when a dictionary names, under
    a font key, a font that is not loaded, or, under a colour key, a
    [color_] name that [COLORS] does not have: [fixup_layouts] ends with
    an exception. *)
Theorem fixup_layouts_unknown_name es i key name :
  es !! i = Some (key, VStr name) ->
  (is_font_key key = true /\ fonts !! name = None)
  \/ (is_color_key key = true /\ startswith (py "color_") name = true
      /\ colors !! name = None) ->
  exists e, fixup_layouts colors fonts (VDict es) = Raises e.
Proof.
  intros Hi Hunknown.
  assert (Hentry : fixup_entry colors fonts key (VStr name) = Raises KeyError).
  { cbn [fixup_entry]. unfold fixup_scalar, value_startswith.
    destruct Hunknown as [[Hfont Hnone] | (Hcolor & Hname & Hnone)].
    - rewrite (font_key_not_color key Hfont), Hfont. cbn [obind].
      rewrite Hnone. reflexivity.
    - rewrite Hcolor, Hname. cbn [obind]. rewrite Hnone. reflexivity. }
  pose proof (fixup_entries_raises colors fonts es i key _ KeyError Hi Hentry)
    as Hnot.
  pose proof (proj1 (fixup_total colors fonts (VDict es))) as Htotal.
  rewrite fixup_layouts_dict in *.
  destruct (fixup_entries colors fonts es) as [es'|e|].
  - exfalso. apply (Hnot es'). reflexivity.
  - exists e. reflexivity.
  - exfalso. apply Htotal. reflexivity.
Qed.

(** X21.  [fixup_array] returns a list of the same length and looks at
    the dictionaries among the items only: every item that is not a
    dictionary is returned as it is, a list included, whatever that list
    holds; a dictionary is replaced by its fixup. *)
Theorem fixup_array_items array : forall newarray,
  fixup_array colors fonts array = Returns newarray ->
  length newarray = length array
  /\ forall i item,
       array !! i = Some item ->
       ((forall es, item <> VDict es) -> newarray !! i = Some item)
       /\ (forall es, item = VDict es ->
           exists d, fixup_layouts colors fonts item = Returns d
                     /\ newarray !! i = Some d).
Proof.
  induction array as [|item0 array IH]; intros newarray Hrun.
  - inversion Hrun. split; [reflexivity|]. intros i item Hi. discriminate.
  - cbn [fixup_array] in Hrun.
    destruct (match item0 with
              | VDict _ => fixup_layouts colors fonts item0
              | _ => Returns item0
              end) as [item0'| |] eqn:Hitem0; try discriminate.
    cbn [obind] in Hrun.
    destruct (fixup_array colors fonts array) as [rest| |]; try discriminate.
    inversion Hrun; subst newarray. destruct (IH rest eq_refl) as [Hlen Hlook].
    split; [cbn [length]; rewrite Hlen; reflexivity|].
    intros [|i] item Hi.
    + inversion Hi; subst item0. split.
      * intros Hnot. destruct item; try (inversion Hitem0; reflexivity).
        exfalso. apply (Hnot entries). reflexivity.
      * intros es ->. exists item0'. auto.
    + apply Hlook. exact Hi.
Qed.

End FixupProperties.

Lemma fixup_layouts_entries_witness :
  exists es',
    VDict [ (py "name", VStr (py "artist"));
            (py "posx", VInt 150);
            (py "posy", VInt 60);
            (py "fill", VStr (py "yellow"));
            (py "lfill", VStr (py "white"));
            (py "font", VFont "font_main") ] = VDict es'
    /\ map fst es' = map fst [ (py "name", VStr (py "artist"));
                               (py "posx", VInt 150);
                               (py "posy", VInt 60);
                               (py "fill", VStr (py "color_artist"));
                               (py "lfill", VStr (py "white"));
                               (py "font", VStr (py "font_main")) ]
    /\ es' !! 5%nat = Some (py "font", VFont "font_main").
Proof.
  destruct (fixup_layouts_entries sample_colors sample_fonts
              [ (py "name", VStr (py "artist"));
                (py "posx", VInt 150);
                (py "posy", VInt 60);
                (py "fill", VStr (py "color_artist"));
                (py "lfill", VStr (py "white"));
                (py "font", VStr (py "font_main")) ]
              (VDict [ (py "name", VStr (py "artist"));
                       (py "posx", VInt 150);
                       (py "posy", VInt 60);
                       (py "fill", VStr (py "yellow"));
                       (py "lfill", VStr (py "white"));
                       (py "font", VFont "font_main") ])
              ltac:(vm_compute; reflexivity))
    as (es' & Heq & Hkeys & Hlook).
  exists es'. split; [exact Heq|]. split; [exact Hkeys|].
  destruct (proj1 (Hlook 5%nat (py "font")) (py "font_main") eq_refl
              ltac:(vm_compute; reflexivity)) as (f & Hf & Hi).
  vm_compute in Hf. inversion Hf; subst f. exact Hi.
Defined.

Lemma fixup_layouts_unknown_name_witness :
  exists e, fixup_layouts sample_colors sample_fonts unknown_font_field
            = Raises e.
Proof.
  apply (fixup_layouts_unknown_name sample_colors sample_fonts
           [ (py "name", VStr (py "title"));
             (py "font", VStr (py "font_huge")) ]
           1%nat (py "font") (py "font_huge") eq_refl).
  left. split; vm_compute; reflexivity.
Defined.

(** A field inside a list of lists keeps its font name, here one that
    is not even loaded. *)
Lemma fixup_array_items_witness :
  length [ VList [unknown_font_field]; VStr (py "rows");
           VDict [ (py "name", VStr (py "artist"));
                   (py "posx", VInt 150);
                   (py "posy", VInt 60);
                   (py "fill", VStr (py "yellow"));
                   (py "lfill", VStr (py "white"));
                   (py "font", VFont "font_main") ] ] = length field_rows
  /\ [ VList [unknown_font_field]; VStr (py "rows");
       VDict [ (py "name", VStr (py "artist"));
               (py "posx", VInt 150);
               (py "posy", VInt 60);
               (py "fill", VStr (py "yellow"));
               (py "lfill", VStr (py "white"));
               (py "font", VFont "font_main") ] ] !! 0%nat
     = Some (VList [unknown_font_field]).
Proof.
  destruct (fixup_array_items sample_colors sample_fonts field_rows _
              ltac:(vm_compute; reflexivity)) as [Hlen Hlook].
  split; [exact Hlen|].
  apply (proj1 (Hlook 0%nat (VList [unknown_font_field]) eq_refl)).
  intros es. discriminate.
Defined.

(** ** More on get_artwork and update_display *)

Section ArtworkAirplay.

Variable cfg : settings.
Variable world : env.

(** X22.  The AirPlay cover of a player on another host is fetched when
    its last-modified token is new: the image made from the bytes
    received is resized once and returned, and the token becomes the
    cached one.  The cached locator is not touched on this path. *)
Theorem get_artwork_airplay_fetch info prev thumb_size g (c : pystr) name
    (t p : pystr) r :
  info !! "MusicPlayer.Cover" = Some c ->
  _airtunes_re_match c = Some name ->
  _local_kodi cfg = false ->
  rpc_file_details world c = Reply (Some t) ->
  t <> [] ->
  _last_image_time g <> Some t ->
  rpc_prepare_download world c = Reply (Some p) ->
  http_get world (BASE_URL cfg ++ py "/" ++ p) = Reply r ->
  status_code r = 200 ->
  decodes world (content r) = true ->
  exists g',
    get_artwork cfg world info prev thumb_size g
      = (Returns (Some (length (heap g))), g')
    /\ heap g' = heap g ++ [{| img_source_of := FromContent (content r);
                               img_thumbnails := [thumb_size] |}]
    /\ _last_image_time g' = Some t
    /\ _last_image_path g' = _last_image_path g.
Proof.
  intros Hcover Hair Hremote Hdetails Ht Hnew Hprep Hget H200 Hdec.
  unfold get_artwork, bind at 1, dict_get. rewrite Hcover. unfold ret at 1.
  unfold bind at 1.
  rewrite artwork_library_skip
    by (eapply is_airplay_cover_not_library; exact Hair).
  unfold artwork_airplay, prepare_download, fetch_cover, image_open_bytes.
  rewrite Hair, Hremote.
  rewrite (bool_decide_eq_true_2 (is_Some (Some name))) by eauto.
  mrun. rewrite Hdetails. mrun.
  assert (Htest : truthy (Some t)
                  && bool_decide (Some t <> _last_image_time g) = true).
  { rewrite bool_decide_eq_true_2 by congruence.
    destruct t; [contradiction | reflexivity]. }
  rewrite Htest. mrun. rewrite Hprep. mrun. rewrite Hget, H200.
  cbn [Z.eqb Pos.eqb]. mrun. rewrite Hdec. mrun.
  rewrite artwork_fallback_skip by reflexivity. mrun.
  unfold artwork_resize. mrun.
  erewrite (thumbnail_newest _
              {| img_source_of := FromContent (content r);
                 img_thumbnails := [] |} thumb_size) by reflexivity.
  mrun. eexists. split; [reflexivity|]. mrun. auto.
Qed.

End ArtworkAirplay.

Section PlayerTypes.

Variable cfg : settings.

(** X23.  The status screen has a summary for no player, a video player
    and a picture player only.  For any other player type that is not
    audio, a pass that shows the status screen (a press is pending, or
    the screen is within its wake time) and gets the system labels ends
    with [UnboundLocalError], the lock still held. *)
Theorem update_display_unknown_player world g type rest status :
  lock g = false ->
  rpc_active_players world = Reply (type :: rest) ->
  type <> py "audio" -> type <> py "video" -> type <> py "picture" ->
  screen_press g = true
  \/ (screen_active g = true /\ now world < screen_offtime g) ->
  rpc_system_labels world = Reply status ->
  exists g',
    update_display cfg world g = (Raises UnboundLocalError, g')
    /\ lock g' = true.
Proof.
  intros Hfree Hplayers Haudio Hvideo Hpicture Hshown Hlabels.
  unfold update_display. rewrite Hplayers.
  unfold lock_acquire, blank_slate, device_display, lock_release.
  mrun. rewrite Hfree. mrun.
  rewrite (bool_decide_eq_true_2 (type <> py "audio")) by exact Haudio.
  unfold update_idle. rewrite Hlabels.
  rewrite (bool_decide_eq_false_2 (type = py "video")) by exact Hvideo.
  rewrite (bool_decide_eq_false_2 (type = py "picture")) by exact Hpicture.
  unfold screen_on, screen_off.
  destruct Hshown as [Hpress | [Hactive Hwake]].
  - destruct (screen_active g && (now world >=? screen_offtime g));
      destruct (negb (USE_BACKLIGHT cfg) || DEMO_MODE);
      cbn [USE_PWM]; mrun; rewrite Hpress; mrun;
      eexists; (split; [reflexivity|]); reflexivity.
  - assert (Hlt : (now world >=? screen_offtime g) = false)
      by (rewrite Z.geb_leb; apply Z.leb_gt; exact Hwake).
    rewrite Hactive, Hlt. cbn [andb]. mrun.
    destruct (screen_press g);
      destruct (negb (USE_BACKLIGHT cfg) || DEMO_MODE);
      cbn [USE_PWM]; mrun; try rewrite Hactive; mrun;
      eexists; (split; [reflexivity|]); reflexivity.
Qed.

End PlayerTypes.

Lemma get_artwork_airplay_fetch_witness :
  exists g',
    get_artwork sample_settings airplay_world (sample_info airplay_cover)
      None 140 sample_globals
      = (Returns (Some (length (heap sample_globals))), g')
    /\ heap g' = heap sample_globals
                 ++ [{| img_source_of := FromContent [255; 216; 255]%N;
                        img_thumbnails := [140] |}]
    /\ _last_image_time g' = Some airplay_token
    /\ _last_image_path g' = _last_image_path sample_globals.
Proof.
  apply (get_artwork_airplay_fetch sample_settings airplay_world
           (sample_info airplay_cover) None 140 sample_globals
           airplay_cover (py "airtunes_album_thumb.jpg") airplay_token
           (py "image/cover.jpg") (mk_http_response 200 [255; 216; 255]%N));
    try (vm_compute; reflexivity); discriminate.
Defined.

Lemma update_display_unknown_player_witness :
  exists g',
    update_display sample_settings
      (with_players (Reply [py "game"]) sample_world) pressed_globals
      = (Raises UnboundLocalError, g')
    /\ lock g' = true.
Proof.
  apply (update_display_unknown_player sample_settings
           (with_players (Reply [py "game"]) sample_world) pressed_globals
           (py "game") [] sample_status);
    try reflexivity; try discriminate.
  left. reflexivity.
Defined.

(** ** Invariants of the main loop *)

(** What every statement of the two loops of [main] keeps, the loops
    keep. *)
Lemma main_loop_preserves cfg (P : globals -> Prop) :
  (forall world, preserves P (update_display cfg world)) ->
  preserves P (screen_on cfg) ->
  preserves P (screen_off cfg) ->
  (forall f, preserves P (modify (set_kodi_active f))) ->
  (forall f, preserves P (modify (set_screen_press f))) ->
  (forall ev, preserves P (log ev)) ->
  (forall op, preserves P (draw_emit op)) ->
  preserves P (blank_slate cfg) ->
  forall worlds status g, P g -> P (snd (main_loop cfg status worlds g)).
Proof.
  intros Hupd Hon Hoff Hactive Hpress Hlog Hdraw Hslate.
  assert (Hwait : preserves P
            (modify (set_kodi_active false);; waiting_screen cfg)).
  { apply preserves_bind; [apply Hactive | intros _].
    unfold waiting_screen, draw_text, device_display.
    repeat (apply preserves_bind; [|intros ?]);
      first [apply Hon | apply Hslate | apply Hdraw | apply Hlog
            | apply preserves_unchanged; reflexivity]. }
  assert (Hconn : preserves P
            (screen_off cfg;;
             modify (set_kodi_active true);;
             modify (set_screen_press false))).
  { repeat (apply preserves_bind; [|intros ?]);
      first [apply Hoff | apply Hactive | apply Hpress]. }
  induction worlds as [|world worlds IH]; intros status g Hg; [exact Hg|].
  destruct status; cbn [main_loop]; try exact Hg.
  - match goal with
    | |- context [try_except ?body ?handler g] =>
        assert (Hping : preserves P (try_except body handler))
    end.
    { apply preserves_try_except; [|apply preserves_unchanged; reflexivity].
      apply preserves_bind; [|intros ?; apply preserves_unchanged; reflexivity].
      unfold post. apply preserves_bind; [apply Hlog | intros _].
      destruct (rpc_ping world); apply preserves_unchanged; reflexivity. }
    specialize (Hping g Hg).
    match goal with
    | |- context [try_except ?body ?handler g] =>
        destruct (try_except body handler g) as [[[|]| |] g1]
    end; simpl in Hping; try (apply IH; exact Hping).
    specialize (Hconn g1 Hping).
    destruct ((screen_off cfg;;
               modify (set_kodi_active true);;
               modify (set_screen_press false)) g1) as [o2 g2].
    apply IH. exact Hconn.
  - pose proof (Hupd world g Hg) as Hrun.
    destruct (update_display cfg world g) as [[a|e|] g1]; simpl in Hrun.
    + apply IH. exact Hrun.
    + destruct e; try exact Hrun.
      specialize (Hwait g1 Hrun).
      destruct ((modify (set_kodi_active false);; waiting_screen cfg) g1)
        as [o2 g2].
      apply IH. exact Hwait.
    + exact Hrun.
Qed.

Lemma truncate_text_bounded frame_width textsize cache xy text fill f r :
  truncate_text frame_width textsize cache xy text fill f = Returns r ->
  (length cache <= 9)%nat -> (length (tr_last_trunc r) <= 9)%nat.
Proof.
  intros Hcall Hcache.
  destruct (truncate_text_Returns _ _ _ _ _ _ _ _ Hcall)
    as [(e & _ & ->) | (cand & s & t & m & _ & _ & _ & ->)];
    cbn [tr_last_trunc]; [exact Hcache|].
  rewrite length_take. lia.
Qed.

Lemma draw_truncated_bounded cfg xy text fill f :
  preserves (fun g => (length (last_trunc g) <= 9)%nat)
    (draw_truncated cfg xy text fill f).
Proof.
  intros g Hg. unfold draw_truncated. mrun.
  destruct (truncate_text (DISPLAY_WIDTH cfg) (textsize_of cfg)
              (last_trunc g) xy text fill f) as [r| |] eqn:Hcall;
    [|exact Hg..].
  mrun. eapply truncate_text_bounded; eassumption.
Qed.

Ltac unchanged_assign :=
  let g := fresh "g" in
  let Hg := fresh "Hg" in
  intros g Hg; exact Hg.

Lemma update_display_bounded cfg world :
  preserves (fun g => (length (last_trunc g) <= 9)%nat)
    (update_display cfg world).
Proof.
  pose proof (draw_truncated_bounded cfg) as Htrunc.
  repeat extended_step; unchanged_assign.
Qed.

(** X24.  The list of recent truncations never has more than nine
    entries: a list that is that short stays so through every pass of
    [update_display], every touch and however long [main] runs. *)
Theorem last_trunc_bounded cfg g :
  (length (last_trunc g) <= 9)%nat ->
  (forall world,
     (length (last_trunc (snd (update_display cfg world g))) <= 9)%nat)
  /\ (forall world,
        (length (last_trunc (snd (touch_callback cfg world g))) <= 9)%nat)
  /\ (forall worlds,
        (length (last_trunc (snd (main cfg worlds g))) <= 9)%nat).
Proof.
  intros Hg.
  set (P := fun g => (length (last_trunc g) <= 9)%nat).
  assert (Hloop : forall worlds status g0,
            P g0 -> P (snd (main_loop cfg status worlds g0))).
  { apply main_loop_preserves;
      try (intros; apply update_display_bounded);
      intros; repeat extended_step; unchanged_assign. }
  split; [|split].
  - intros world. apply (update_display_bounded cfg world g Hg).
  - intros world.
    assert (Htouch : preserves P (touch_callback cfg world)).
    { pose proof (update_display_bounded cfg) as Hupd.
      subst P. repeat extended_step; unchanged_assign. }
    apply (Htouch g Hg).
  - intros worlds. unfold main.
    assert (Hwait : preserves P
              (modify (set_kodi_active false);; waiting_screen cfg))
      by (subst P; repeat extended_step; unchanged_assign).
    specialize (Hwait g Hg).
    destruct ((modify (set_kodi_active false);; waiting_screen cfg) g)
      as [o1 g1].
    apply Hloop. exact Hwait.
Qed.

Lemma last_trunc_bounded_witness :
  (forall world,
     (length (last_trunc (snd (update_display sample_settings world
                                 sample_globals))) <= 9)%nat)
  /\ (forall world,
        (length (last_trunc (snd (touch_callback sample_settings world
                                    sample_globals))) <= 9)%nat)
  /\ (forall worlds,
        (length (last_trunc (snd (main sample_settings worlds
                                    sample_globals))) <= 9)%nat).
Proof. apply (last_trunc_bounded sample_settings sample_globals). simpl. lia. Defined.
